(** * Polymarket event store: fetch, reconcile and query

    A shallow embedding of [Playground/fetch_and_populate.py],
    [Playground/search_event_db.py], the loop of
    [Playground/polymarket_events_periodic_updatas.py] and the schema
    constraints of [Playground/database_schema.py].

    Python values are a single inductive type [pyval]; the pieces of the
    Python runtime the code calls but does not define ([float], [str] on
    floats, [datetime.fromisoformat], ...) are the fields of the class
    [PyRuntime].  Exceptions are explicit ([res]); the HTTP exchange and the
    ORM session are state threaded through a small state-and-exception
    monad. *)

From Stdlib Require Import ZArith Lia Ascii String DecimalString.
From stdpp Require Import gmap strings list fin_maps pretty sorting.

Set Warnings "-register-all".

Local Open Scope Z_scope.

(** ** Exceptions and the state-and-exception monad *)

Inductive exn :=
  | AttributeError
  | TypeError
  | ValueError
  | OverflowError
  | IntegrityError
  | JSONDecodeError.

Inductive res (A : Type) :=
  | Ok (a : A)
  | Raise (e : exn).
Arguments Ok {A} a.
Arguments Raise {A} e.

Global Instance exn_eq_dec : EqDecision exn.
Proof. solve_decision. Defined.

Global Instance res_eq_dec {A} `{EqDecision A} : EqDecision (res A).
Proof. solve_decision. Defined.

Definition res_bind {A B} (r : res A) (k : A → res B) : res B :=
  match r with
  | Ok a => k a
  | Raise e => Raise e
  end.

(** A computation over a state [S]: it returns a value or raises, and in
    both cases hands back the state it reached. *)
Definition M (S A : Type) : Type := S → res A * S.

Definition ret {S A} (a : A) : M S A := λ s, (Ok a, s).
Definition lift {S A} (r : res A) : M S A := λ s, (r, s).
Definition bind {S A B} (m : M S A) (k : A → M S B) : M S B :=
  λ s, match m s with
       | (Ok a, s') => k a s'
       | (Raise e, s') => (Raise e, s')
       end.
Definition gets {S A} (f : S → A) : M S A := λ s, (Ok (f s), s).
Definition modify {S} (f : S → S) : M S unit := λ s, (Ok tt, f s).

Global Instance res_ret : MRet res := λ A a, Ok a.
Global Instance res_bind_inst : MBind res := λ A B k r, res_bind r k.
Global Instance M_ret {S} : MRet (M S) := λ A a, ret a.
Global Instance M_bind {S} : MBind (M S) := λ A B k m, bind m k.

(** ** Strings

    A string is a sequence of one-byte characters.  [lower] folds the ASCII
    letters, which is what [str.lower] does to them; what it does to other
    scripts is not modelled. *)

(** [s.replace(c, new)] for a one-character [c]: every occurrence. *)
Fixpoint str_replace (c : ascii) (new : string) (s : string) : string :=
  match s with
  | EmptyString => EmptyString
  | String a s' =>
      if Ascii.eqb a c then new +:+ str_replace c new s'
      else String a (str_replace c new s')
  end.

Definition is_upper (a : ascii) : bool :=
  let n := nat_of_ascii a in (Nat.leb 65 n && Nat.leb n 90)%bool.

Definition lower_char (a : ascii) : ascii :=
  if is_upper a then ascii_of_nat (nat_of_ascii a + 32) else a.

(** [s.lower()] on the ASCII letters. *)
Fixpoint lower (s : string) : string :=
  match s with
  | EmptyString => EmptyString
  | String a s' => String (lower_char a) (lower s')
  end.

(** [s.startswith(p)] *)
Fixpoint startswith (s p : string) : bool :=
  match p, s with
  | EmptyString, _ => true
  | String a p', String b s' => Ascii.eqb a b && startswith s' p'
  | String _ _, EmptyString => false
  end.

(** [needle in hay] on strings: [hay] has [needle] at some position. *)
Fixpoint str_in (needle hay : string) : bool :=
  startswith hay needle
  || match hay with
     | EmptyString => false
     | String _ hay' => str_in needle hay'
     end.

(** [key.startswith('_')] *)
Definition startswith_underscore (key : string) : bool := startswith key "_".

(** The text of a line break. *)
Definition newline : string := String (ascii_of_nat 10) EmptyString.

Fixpoint chars (s : string) : list string :=
  match s with
  | EmptyString => []
  | String a s' => String a EmptyString :: chars s'
  end.

(** The two tables the reconciliation writes. *)
Inductive table := Events | Markets.

Global Instance table_eq_dec : EqDecision table.
Proof. solve_decision. Defined.

Global Instance table_countable : Countable table.
Proof.
  refine (inj_countable' (λ t, match t with Events => true | Markets => false end)
                         (λ b : bool, if b then Events else Markets) _).
  by intros [].
Defined.

(** ** The schema ([database_schema.py])

    The columns of the two tables, in declaration order, with their
    declared types. *)

Inductive coltype :=
  | CString | CText | CInteger | CBoolean | CFloat | CDateTime | CJSON.

Definition event_columns : list (string * coltype) :=
  [ ("id", CString); ("slug", CString); ("ticker", CString);
    ("title", CString); ("description", CText);
    ("active", CBoolean); ("closed", CBoolean); ("archived", CBoolean);
    ("restricted", CBoolean); ("featured", CBoolean);
    ("created_at", CDateTime); ("updated_at", CDateTime);
    ("start_time", CDateTime); ("end_date", CDateTime);
    ("icon", CString); ("image", CString);
    ("resolution_source", CString);
    ("liquidity", CInteger); ("liquidity_amm", CInteger);
    ("liquidity_clob", CInteger); ("open_interest", CInteger);
    ("volume", CInteger); ("volume_24hr", CInteger);
    ("volume_1wk", CInteger); ("volume_1mo", CInteger);
    ("volume_1yr", CInteger);
    ("cyom", CBoolean); ("competitive", CInteger);
    ("comment_count", CInteger); ("enable_order_book", CBoolean);
    ("neg_risk", CBoolean);
    ("tags", CJSON) ].

Definition market_columns : list (string * coltype) :=
  [ ("id", CString); ("event_id", CString);
    ("slug", CString); ("question", CString); ("description", CText);
    ("question_id", CString); ("condition_id", CString);
    ("active", CBoolean); ("closed", CBoolean); ("archived", CBoolean);
    ("restricted", CBoolean); ("featured", CBoolean);
    ("accepting_orders", CBoolean);
    ("created_at", CDateTime); ("updated_at", CDateTime);
    ("start_date", CDateTime); ("end_date", CDateTime);
    ("end_date_iso", CString); ("event_start_time", CDateTime);
    ("accepting_orders_timestamp", CDateTime);
    ("icon", CString); ("image", CString);
    ("best_bid", CFloat); ("best_ask", CFloat); ("spread", CFloat);
    ("last_trade_price", CFloat);
    ("liquidity", CString); ("liquidity_num", CInteger);
    ("liquidity_amm", CInteger); ("liquidity_clob", CInteger);
    ("volume", CString); ("volume_num", CInteger);
    ("volume_24hr", CInteger); ("volume_1wk", CInteger);
    ("volume_1mo", CInteger); ("volume_1yr", CInteger);
    ("one_hour_price_change", CFloat); ("one_day_price_change", CFloat);
    ("one_week_price_change", CFloat); ("one_month_price_change", CFloat);
    ("one_year_price_change", CFloat);
    ("order_min_size", CInteger); ("order_price_min_tick_size", CFloat);
    ("resolution_source", CString); ("resolved_by", CString);
    ("uma_bond", CString); ("uma_reward", CString);
    ("clob_token_ids", CJSON); ("outcomes", CJSON);
    ("neg_risk", CBoolean); ("enable_order_book", CBoolean);
    ("competitive", CInteger); ("cyom", CBoolean);
    ("submitted_by", CString); ("market_maker_address", CString) ].

Definition table_columns (t : table) : list (string * coltype) :=
  match t with
  | Events => event_columns
  | Markets => market_columns
  end.

(** ** The Python runtime the code relies on *)

Class PyRuntime := {
  pyfloat : Type;
  datetime : Type;
  (** [float(n)] of an int; [None] is [OverflowError] *)
  float_of_int : Z → option pyfloat;
  (** [float(s)] of a str; [None] is [ValueError] *)
  float_of_str : string → option pyfloat;
  float_zero : pyfloat;
  float_of_int_0 : float_of_int 0 = Some float_zero;
  (** [x == 0.0], which decides the truth value of a float *)
  float_is_zero : pyfloat → bool;
  str_of_float : pyfloat → string;
  (** [repr(s)] of a str: quoting and escaping *)
  repr_of_str : string → string;
  (** [datetime.fromisoformat(s)]; [None] is [ValueError] *)
  fromisoformat : string → option datetime;
  str_of_datetime : datetime → string;
  (** [a < b] as the store evaluates it on a DateTime column *)
  datetime_ltb : datetime → datetime → bool;
}.

Section Python.
Context {R : PyRuntime}.

(** ** Python values

    What [response.json()] yields (None, bool, int, float, str, list, dict),
    plus [datetime] objects and opaque objects (the ORM's instance state). *)
Inductive pyval :=
  | VNone
  | VBool (b : bool)
  | VInt (z : Z)
  | VFloat (f : pyfloat)
  | VStr (s : string)
  | VList (l : list pyval)
  | VDict (d : list (string * pyval))
  | VDatetime (d : datetime)
  | VObject (cls : string).

(** [bool(v)] *)
Definition truthy (v : pyval) : bool :=
  match v with
  | VNone => false
  | VBool b => b
  | VInt z => negb (z =? 0)
  | VFloat f => negb (float_is_zero f)
  | VStr s => negb (String.eqb s "")
  | VList l => match l with [] => false | _ => true end
  | VDict d => match d with [] => false | _ => true end
  | VDatetime _ => true
  | VObject _ => true
  end.

Fixpoint py_repr (v : pyval) : string :=
  match v with
  | VNone => "None"
  | VBool true => "True"
  | VBool false => "False"
  | VInt z => pretty z
  | VFloat f => str_of_float f
  | VStr s => repr_of_str s
  | VList l =>
      let fix items (l : list pyval) : string :=
        match l with
        | [] => ""
        | x :: l' =>
            py_repr x +:+ match l' with [] => "" | _ => ", " +:+ items l' end
        end in
      "[" +:+ items l +:+ "]"
  | VDict d =>
      let fix items (d : list (string * pyval)) : string :=
        match d with
        | [] => ""
        | (k, x) :: d' =>
            repr_of_str k +:+ ": " +:+ py_repr x
            +:+ match d' with [] => "" | _ => ", " +:+ items d' end
        end in
      "{" +:+ items d +:+ "}"
  | VDatetime d => str_of_datetime d
  | VObject cls => "<" +:+ cls +:+ " object>"
  end.

(** [str(v)] *)
Definition py_str (v : pyval) : string :=
  match v with
  | VStr s => s
  | _ => py_repr v
  end.

(** [float(v)] *)
Definition py_float (v : pyval) : res pyval :=
  match v with
  | VFloat f => Ok (VFloat f)
  | VInt z =>
      match float_of_int z with
      | Some f => Ok (VFloat f)
      | None => Raise OverflowError
      end
  | VBool b =>
      match float_of_int (if b then 1 else 0) with
      | Some f => Ok (VFloat f)
      | None => Raise OverflowError
      end
  | VStr s =>
      match float_of_str s with
      | Some f => Ok (VFloat f)
      | None => Raise ValueError
      end
  | _ => Raise TypeError
  end.

Fixpoint assoc_get {A} (k : string) (d : list (string * A)) : option A :=
  match d with
  | [] => None
  | (k', v) :: d' => if String.eqb k' k then Some v else assoc_get k d'
  end.

(** [v.get(k, dflt)]; only a dict has [get]. *)
Definition py_get (v : pyval) (k : string) (dflt : pyval) : res pyval :=
  match v with
  | VDict d => Ok (default dflt (assoc_get k d))
  | _ => Raise AttributeError
  end.

(** What [for x in v] / [list.extend(v)] walks over. *)
Definition py_iter (v : pyval) : res (list pyval) :=
  match v with
  | VList l => Ok l
  | VDict d => Ok (VStr <$> d.*1)
  | VStr s => Ok (VStr <$> chars s)
  | _ => Raise TypeError
  end.

(** [len(v)] *)
Definition py_len (v : pyval) : res Z :=
  match v with
  | VList l => Ok (Z.of_nat (length l))
  | VDict d => Ok (Z.of_nat (length d))
  | VStr s => Ok (Z.of_nat (String.length s))
  | _ => Raise TypeError
  end.

(** [l[:n]] on a list, [n] possibly negative. *)
Definition slice_to {A} (l : list A) (n : Z) : list A :=
  if 0 <=? n then take (Z.to_nat n) l
  else take (Z.to_nat (Z.of_nat (length l) + n)) l.

(** ** parse_datetime *)

Definition py_replace (v : pyval) (c : ascii) (new : string) : res pyval :=
  match v with
  | VStr s => Ok (VStr (str_replace c new s))
  | _ => Raise AttributeError
  end.

Definition datetime_fromisoformat (v : pyval) : res pyval :=
  match v with
  | VStr s =>
      match fromisoformat s with
      | Some d => Ok (VDatetime d)
      | None => Raise ValueError
      end
  | _ => Raise TypeError
  end.

Definition parse_datetime (date_string : pyval) : pyval :=
  if negb (truthy date_string) then VNone
  else
    match (s ← py_replace date_string "Z"%char "+00:00";
           datetime_fromisoformat s) with
    | Ok d => d
    | Raise _ => VNone
    end.

(** ** The API client *)

(** The query parameters of one GET on [/events]. *)
Record request := {
  rq_closed : string;
  rq_order : string;
  rq_ascending : string;
  rq_limit : Z;
  rq_offset : Z;
}.

(** An HTTP response: its status and what [response.json()] gives. *)
Record response := {
  status_code : Z;
  json : res pyval;
}.

(** The outside world of the client: every request sent so far and the
    text of every [print], both oldest first.  A request always gets a
    response; a transport failure, on which [requests.get] itself raises,
    is outside the model. *)
Record world := {
  requests : list request;
  stdout : list string;
}.

Definition print (line : string) : M world unit :=
  modify (λ w, {| requests := requests w; stdout := stdout w ++ [line] |}).

Section Client.
(** The remote data source. *)
Variable server : request → response.

Definition requests_get (params : request) : M world response :=
  modify (λ w, {| requests := requests w ++ [params]; stdout := stdout w |});;
  ret (server params).

Definition fetch_active_events (limit offset : Z) : M world pyval :=
  let params := {| rq_closed := "false"; rq_order := "id";
                   rq_ascending := "false";
                   rq_limit := limit; rq_offset := offset |} in
  response ← requests_get params;
  if status_code response =? 200 then lift (json response)
  else
    print ("Error fetching events: " +:+ pretty (status_code response));;
    ret (VList []).

(** [max_events] is [None] or an int. *)
Definition max_reached (max_events : option Z) (n : nat) : bool :=
  match max_events with
  | Some m => negb (m =? 0) && (m <=? Z.of_nat n)
  | None => false
  end.

(** The [while True] loop; [None] when the fuel runs out before a [break]. *)
Fixpoint fetch_loop (fuel : nat) (max_events : option Z) (limit : Z)
    (all_events : list pyval) (offset : Z) : M world (option (list pyval)) :=
  match fuel with
  | O => ret None
  | S fuel' =>
      events ← fetch_active_events limit offset;
      if negb (truthy events) then ret (Some all_events)
      else
        new ← lift (py_iter events);
        let all_events := all_events ++ new in
        n ← lift (py_len events);
        print ("  Fetched " +:+ pretty n +:+ " events (total: "
               +:+ pretty (length all_events) +:+ ")");;
        if n <? limit then ret (Some all_events)
        else if max_reached max_events (length all_events)
        then ret (Some (slice_to all_events (default 0 max_events)))
        else fetch_loop fuel' max_events limit all_events (offset + limit)
  end.

Definition fetch_all_active_events (fuel : nat) (max_events : option Z)
    : M world (option (list pyval)) :=
  print "Fetching active events from Polymarket...";;
  r ← fetch_loop fuel max_events 100 [] 0;
  match r with
  | Some all_events =>
      print (newline +:+ "Total events fetched: "
             +:+ pretty (length all_events));;
      ret r
  | None => ret None
  end.

End Client.

(** ** Field mapping

    An ORM object is its [__dict__]: the attributes in the order the
    constructor set them, headed by the ORM's own [_sa_instance_state].
    Each keyword argument of the constructor call is one row of a table:
    the attribute, the API key and how the value is obtained. *)

Inductive conv :=
  | Plain (dflt : pyval)    (* data.get(key, dflt) *)
  | AsStr (dflt : pyval)    (* str(data.get(key, dflt)) *)
  | AsFloat (dflt : pyval)  (* float(data.get(key, dflt)) *)
  | AsDate                  (* parse_datetime(data.get(key)) *)
  | Given (v : pyval).      (* a value passed in, not read from data *)

Definition map_field (data : pyval) (f : string * string * conv)
    : res (string * pyval) :=
  let '(attr, key, c) := f in
  match c with
  | Plain dflt => v ← py_get data key dflt; Ok (attr, v)
  | AsStr dflt => v ← py_get data key dflt; Ok (attr, VStr (py_str v))
  | AsFloat dflt => v ← py_get data key dflt; x ← py_float v; Ok (attr, x)
  | AsDate => v ← py_get data key VNone; Ok (attr, parse_datetime v)
  | Given v => Ok (attr, v)
  end.

(** Keyword arguments are evaluated left to right: the first one that
    raises ends the call. *)
Fixpoint map_fields (data : pyval) (fs : list (string * string * conv))
    : res (list (string * pyval)) :=
  match fs with
  | [] => Ok []
  | f :: fs' =>
      kv ← map_field data f;
      kvs ← map_fields data fs';
      Ok (kv :: kvs)
  end.

Definition sa_instance_state : string * pyval :=
  ("_sa_instance_state", VObject "InstanceState").

Definition event_fields : list (string * string * conv) :=
  [ ("id", "id", AsStr VNone);
    ("slug", "slug", Plain VNone);
    ("ticker", "ticker", Plain VNone);
    ("title", "title", Plain VNone);
    ("description", "description", Plain VNone);
    ("active", "active", Plain (VBool false));
    ("closed", "closed", Plain (VBool false));
    ("archived", "archived", Plain (VBool false));
    ("restricted", "restricted", Plain (VBool false));
    ("featured", "featured", Plain (VBool false));
    ("created_at", "createdAt", AsDate);
    ("updated_at", "updatedAt", AsDate);
    ("start_time", "startTime", AsDate);
    ("end_date", "endDate", AsDate);
    ("icon", "icon", Plain VNone);
    ("image", "image", Plain VNone);
    ("resolution_source", "resolutionSource", Plain VNone);
    ("liquidity", "liquidity", Plain (VInt 0));
    ("liquidity_amm", "liquidityAmm", Plain (VInt 0));
    ("liquidity_clob", "liquidityClob", Plain (VInt 0));
    ("open_interest", "openInterest", Plain (VInt 0));
    ("volume", "volume", Plain (VInt 0));
    ("volume_24hr", "volume24hr", Plain (VInt 0));
    ("volume_1wk", "volume1wk", Plain (VInt 0));
    ("volume_1mo", "volume1mo", Plain (VInt 0));
    ("volume_1yr", "volume1yr", Plain (VInt 0));
    ("cyom", "cyom", Plain (VBool false));
    ("competitive", "competitive", Plain (VInt 0));
    ("comment_count", "commentCount", Plain (VInt 0));
    ("enable_order_book", "enableOrderBook", Plain (VBool false));
    ("neg_risk", "negRisk", Plain (VBool false));
    ("tags", "tags", Plain (VList [])) ].

Definition create_event_from_api (event_data : pyval)
    : res (list (string * pyval)) :=
  attrs ← map_fields event_data event_fields;
  Ok (sa_instance_state :: attrs).

Definition market_fields (event_id : string) : list (string * string * conv) :=
  [ ("id", "id", AsStr VNone);
    ("event_id", "", Given (VStr event_id));
    ("slug", "slug", Plain VNone);
    ("question", "question", Plain VNone);
    ("description", "description", Plain VNone);
    ("question_id", "questionID", Plain VNone);
    ("condition_id", "conditionId", Plain VNone);
    ("active", "active", Plain (VBool false));
    ("closed", "closed", Plain (VBool false));
    ("archived", "archived", Plain (VBool false));
    ("restricted", "restricted", Plain (VBool false));
    ("featured", "featured", Plain (VBool false));
    ("accepting_orders", "acceptingOrders", Plain (VBool false));
    ("created_at", "createdAt", AsDate);
    ("updated_at", "updatedAt", AsDate);
    ("start_date", "startDate", AsDate);
    ("end_date", "endDate", AsDate);
    ("end_date_iso", "endDateIso", Plain VNone);
    ("event_start_time", "eventStartTime", AsDate);
    ("accepting_orders_timestamp", "acceptingOrdersTimestamp", AsDate);
    ("icon", "icon", Plain VNone);
    ("image", "image", Plain VNone);
    ("best_bid", "bestBid", AsFloat (VInt 0));
    ("best_ask", "bestAsk", AsFloat (VInt 0));
    ("spread", "spread", AsFloat (VInt 0));
    ("last_trade_price", "lastTradePrice", AsFloat (VInt 0));
    ("liquidity", "liquidity", AsStr (VInt 0));
    ("liquidity_num", "liquidityNum", Plain (VInt 0));
    ("liquidity_amm", "liquidityAmm", Plain (VInt 0));
    ("liquidity_clob", "liquidityClob", Plain (VInt 0));
    ("volume", "volume", AsStr (VInt 0));
    ("volume_num", "volumeNum", Plain (VInt 0));
    ("volume_24hr", "volume24hr", Plain (VInt 0));
    ("volume_1wk", "volume1wk", Plain (VInt 0));
    ("volume_1mo", "volume1mo", Plain (VInt 0));
    ("volume_1yr", "volume1yr", Plain (VInt 0));
    ("one_hour_price_change", "oneHourPriceChange", AsFloat (VInt 0));
    ("one_day_price_change", "oneDayPriceChange", AsFloat (VInt 0));
    ("one_week_price_change", "oneWeekPriceChange", AsFloat (VInt 0));
    ("one_month_price_change", "oneMonthPriceChange", AsFloat (VInt 0));
    ("one_year_price_change", "oneYearPriceChange", AsFloat (VInt 0));
    ("order_min_size", "orderMinSize", Plain (VInt 0));
    ("order_price_min_tick_size", "orderPriceMinTickSize", AsFloat (VInt 0));
    ("resolution_source", "resolutionSource", Plain VNone);
    ("resolved_by", "resolvedBy", Plain VNone);
    ("uma_bond", "umaBond", AsStr (VStr ""));
    ("uma_reward", "umaReward", AsStr (VStr ""));
    ("clob_token_ids", "clobTokenIds", Plain (VList []));
    ("outcomes", "outcomes", Plain (VList []));
    ("neg_risk", "negRisk", Plain (VBool false));
    ("enable_order_book", "enableOrderBook", Plain (VBool false));
    ("competitive", "competitive", Plain (VInt 0));
    ("cyom", "cyom", Plain (VBool false));
    ("submitted_by", "submitted_by", Plain VNone);
    ("market_maker_address", "marketMakerAddress", Plain VNone) ].

Definition create_market_from_api (market_data : pyval) (event_id : string)
    : res (list (string * pyval)) :=
  attrs ← map_fields market_data (market_fields event_id);
  Ok (sa_instance_state :: attrs).

(** ** The store and the ORM session

    A row is its column values by column name; the store maps a table and
    a primary key to the row.  [database_schema.py] declares [Event.slug]
    unique: a state of the store in which two event rows carry the same
    slug text is refused when it is flushed (rows without a slug text do
    not collide).  A store that was flushed satisfies the constraint, so
    checking the whole state and checking the rows just written come to
    the same.

    The store of the model keeps each value as the mapping produced it.
    What a database does besides is outside the model: it converts a value
    to the type of its column, it refuses a value the column cannot hold,
    and it applies the constraint on [slug] to whatever it made of the
    value.  So the model describes the passes over records whose values
    have the types of their columns; on other records a pass of the
    program may be refused where the model's completes, never the other
    way round. *)

Definition slug_text (r : gmap string pyval) : option string :=
  match r !! "slug" with
  | Some (VStr s) => Some s
  | _ => None
  end.

Definition event_slugs (db : gmap (table * string) (gmap string pyval))
    : list string :=
  omap (λ kv, match kv.1.1 with
              | Events => slug_text kv.2
              | Markets => None
              end) (map_to_list db).

Definition integrity_ok (db : gmap (table * string) (gmap string pyval))
    : bool :=
  bool_decide (NoDup (event_slugs db)).

(** A session: the committed store and the session's own view of it, in
    which its pending writes are already applied. *)
Record session := {
  committed : gmap (table * string) (gmap string pyval);
  working : gmap (table * string) (gmap string pyval);
}.

Definition set_working
    (f : gmap (table * string) (gmap string pyval)
         → gmap (table * string) (gmap string pyval))
    (s : session) : session :=
  {| committed := committed s; working := f (working s) |}.

(** Pending writes reach the store; a constraint violation raises. *)
Definition flush : M session unit :=
  λ s, if integrity_ok (working s) then (Ok tt, s)
       else (Raise IntegrityError, s).

(** [session.query(T).filter_by(id=id).first()].  The session comes from
    [sessionmaker(bind=engine)] with its defaults, so it flushes what is
    pending before it runs a query, and the query sees the session's own
    writes. *)
Definition query_first (t : table) (id : string)
    : M session (option (gmap string pyval)) :=
  flush;; gets (λ s, working s !! (t, id)).

(** The loop [for key, value in obj.__dict__.items(): if not
    key.startswith('_'): setattr(existing, key, value)]. *)
Definition setattrs (obj : list (string * pyval)) (existing : gmap string pyval)
    : gmap string pyval :=
  fold_left (λ r kv, if startswith_underscore kv.1 then r
                     else <[kv.1 := kv.2]> r) obj existing.

(** The column values of a freshly constructed object. *)
Definition columns (obj : list (string * pyval)) : gmap string pyval :=
  list_to_map (filter (λ kv, startswith_underscore kv.1 = false) obj).

Definition primary_key (obj : list (string * pyval)) : string :=
  match assoc_get "id" obj with
  | Some (VStr s) => s
  | _ => ""
  end.

(** [session.add(obj)] *)
Definition session_add (t : table) (obj : list (string * pyval))
    : M session unit :=
  modify (set_working <[(t, primary_key obj) := columns obj]>).

(** The attribute loop run on the object loaded for [(t, id)]. *)
Definition session_update (t : table) (id : string)
    (existing : gmap string pyval) (obj : list (string * pyval))
    : M session unit :=
  modify (set_working <[(t, id) := setattrs obj existing]>).

Definition commit : M session unit :=
  flush;; modify (λ s, {| committed := working s; working := working s |}).

Definition rollback : M session unit :=
  modify (λ s, {| committed := committed s; working := committed s |}).

(** ** Reconciliation *)

Record counts := {
  events_added : nat;
  events_updated : nat;
  markets_added : nat;
  markets_updated : nat;
}.

Definition no_counts : counts :=
  {| events_added := 0; events_updated := 0;
     markets_added := 0; markets_updated := 0 |}.

Definition event_added (c : counts) : counts :=
  {| events_added := S (events_added c); events_updated := events_updated c;
     markets_added := markets_added c; markets_updated := markets_updated c |}.
Definition event_updated (c : counts) : counts :=
  {| events_added := events_added c; events_updated := S (events_updated c);
     markets_added := markets_added c; markets_updated := markets_updated c |}.
Definition market_added (c : counts) : counts :=
  {| events_added := events_added c; events_updated := events_updated c;
     markets_added := S (markets_added c); markets_updated := markets_updated c |}.
Definition market_updated (c : counts) : counts :=
  {| events_added := events_added c; events_updated := events_updated c;
     markets_added := markets_added c; markets_updated := S (markets_updated c) |}.

(** A [for] loop whose body updates the counters. *)
Fixpoint for_each {A} (body : counts → A → M session counts)
    (l : list A) (c : counts) : M session counts :=
  match l with
  | [] => ret c
  | x :: l' => c' ← body c x; for_each body l' c'
  end.

(** The body of the inner loop of [populate_database]. *)
Definition process_market (event_id : string) (c : counts)
    (market_data : pyval) : M session counts :=
  id ← lift (py_get market_data "id" VNone);
  let market_id := py_str id in
  existing_market ← query_first Markets market_id;
  match existing_market with
  | Some existing =>
      obj ← lift (create_market_from_api market_data event_id);
      session_update Markets market_id existing obj;;
      ret (market_updated c)
  | None =>
      new_market ← lift (create_market_from_api market_data event_id);
      session_add Markets new_market;;
      ret (market_added c)
  end.

(** The body of the outer loop of [populate_database]. *)
Definition process_event (c : counts) (event_data : pyval)
    : M session counts :=
  id ← lift (py_get event_data "id" VNone);
  let event_id := py_str id in
  existing_event ← query_first Events event_id;
  c ← match existing_event with
      | Some existing =>
          obj ← lift (create_event_from_api event_data);
          session_update Events event_id existing obj;;
          ret (event_updated c)
      | None =>
          new_event ← lift (create_event_from_api event_data);
          session_add Events new_event;;
          ret (event_added c)
      end;
  markets_data ← lift (py_get event_data "markets" (VList []));
  markets ← lift (py_iter markets_data);
  for_each (process_market event_id) markets c.

(** The [try] block of [populate_database]. *)
Definition populate_try (events_data : list pyval) : M session counts :=
  c ← for_each process_event events_data no_counts;
  commit;;
  ret c.

(** [populate_database] on a store: the counters it prints, or the
    exception it re-raises after the rollback, and the store it leaves.
    The printing itself is left out. *)
Definition populate_database (events_data : list pyval)
    (store : gmap (table * string) (gmap string pyval))
    : res counts * gmap (table * string) (gmap string pyval) :=
  let session := {| committed := store; working := store |} in
  match populate_try events_data session with
  | (Ok c, s) => (Ok c, committed s)
  | (Raise e, s) => (Raise e, committed (rollback s).2)
  end.

(** ** The query layer

    [event_rows] lists the rows of the events in the order of their keys.
    The order in which a database hands back the rows of a query without
    [ORDER BY] is its own; what is stated of a search result below holds
    in whatever order the rows come, unless it is about one row only. *)

Definition event_rows (db : gmap (table * string) (gmap string pyval))
    : list (gmap string pyval) :=
  omap (λ kv, match kv.1.1 with
              | Events => Some kv.2
              | Markets => None
              end) (map_to_list db).

(** [Event.end_date > now, Event.active == True] *)
Definition future_active (now : datetime) (event : gmap string pyval) : bool :=
  match event !! "end_date", event !! "active" with
  | Some (VDatetime d), Some (VBool true) => datetime_ltb now d
  | _, _ => false
  end.

Definition py_lower (v : pyval) : res string :=
  match v with
  | VStr s => Ok (lower s)
  | _ => Raise AttributeError
  end.

(** The loop over the tags of one event; [true] when it left with
    [append; break]. *)
Fixpoint tags_match (tag_keyword : string) (tags : list pyval) : res bool :=
  match tags with
  | [] => Ok false
  | tag :: rest =>
      match tag with
      | VDict _ =>
          label ← py_get tag "label" (VStr "");
          tag_label ← py_lower label;
          slug ← py_get tag "slug" (VStr "");
          tag_slug ← py_lower slug;
          if str_in (lower tag_keyword) tag_label
             || str_in (lower tag_keyword) tag_slug
          then Ok true
          else tags_match tag_keyword rest
      | VStr s =>
          if str_in (lower tag_keyword) (lower s) then Ok true
          else tags_match tag_keyword rest
      | _ => tags_match tag_keyword rest
      end
  end.

Definition event_matches (tag_keyword : string) (event : gmap string pyval)
    : res bool :=
  let tags := default VNone (event !! "tags") in
  if truthy tags then
    ts ← py_iter tags; tags_match tag_keyword ts
  else Ok false.

(** The loop over [all_future_events]. *)
Fixpoint scan_events (tag_keyword : string) (limit : Z)
    (events matching_events : list (gmap string pyval))
    : res (list (gmap string pyval)) :=
  match events with
  | [] => Ok matching_events
  | event :: rest =>
      m ← event_matches tag_keyword event;
      let matching_events :=
        if (m : bool) then matching_events ++ [event] else matching_events in
      if limit <=? Z.of_nat (length matching_events) then Ok matching_events
      else scan_events tag_keyword limit rest matching_events
  end.

Definition get_events_by_tag (tag_keyword : string) (limit : Z)
    (now : datetime) (db : gmap (table * string) (gmap string pyval))
    : res (list (gmap string pyval)) :=
  let all_future_events := filter (λ e, future_active now e = true)
                                  (event_rows db) in
  scan_events tag_keyword limit all_future_events [].

(** ** The other queries of [search_event_db.py]

    These run in the store: the rows of a table are filtered, ordered by
    [end_date] and cut to [limit] rows. *)

Definition market_rows (db : gmap (table * string) (gmap string pyval))
    : list (gmap string pyval) :=
  omap (λ kv, match kv.1.1 with
              | Markets => Some kv.2
              | Events => None
              end) (map_to_list db).

Definition end_date_of (row : gmap string pyval) : option datetime :=
  match row !! "end_date" with
  | Some (VDatetime d) => Some d
  | _ => None
  end.

(** The order of [ORDER BY end_date ASC]: [a] does not come after [b].
    A row without an end date sorts first; the queries below drop such rows
    before they sort. *)
Definition ends_no_later (a b : gmap string pyval) : Prop :=
  match end_date_of a, end_date_of b with
  | None, _ => True
  | Some _, None => False
  | Some x, Some y => datetime_ltb y x = false
  end.

Global Instance ends_no_later_dec a b : Decision (ends_no_later a b).
Proof.
  unfold ends_no_later.
  destruct (end_date_of a), (end_date_of b); apply _.
Defined.

(** [.order_by(T.end_date.asc())].  Which of two rows with the same end
    date comes first is the store's choice; here it is the one the merge
    sort makes. *)
Definition order_by_end_date (rows : list (gmap string pyval))
    : list (gmap string pyval) :=
  merge_sort ends_no_later rows.

(** [.limit(n)]: the first [n] rows.  SQLite, the store [DATABASE_URL]
    defaults to, reads a negative [n] as no limit. *)
Definition sql_limit {A} (n : Z) (rows : list A) : list A :=
  if n <? 0 then rows else take (Z.to_nat n) rows.

Definition get_future_events (limit : Z) (now : datetime)
    (db : gmap (table * string) (gmap string pyval))
    : list (gmap string pyval) :=
  sql_limit limit
    (order_by_end_date
       (filter (λ e, future_active now e = true) (event_rows db))).

(** [text LIKE pattern] without an escape character: [%] stands for any
    run of characters, [_] for any one character. *)
Fixpoint like (pattern text : string) : bool :=
  match pattern with
  | EmptyString => match text with EmptyString => true | _ => false end
  | String p pattern' =>
      if Ascii.eqb p "%" then
        (fix skip (t : string) : bool :=
           like pattern' t
           || match t with
              | EmptyString => false
              | String _ t' => skip t'
              end) text
      else
        match text with
        | EmptyString => false
        | String a text' =>
            (Ascii.eqb p "_" || Ascii.eqb p a) && like pattern' text'
        end
  end.

(** [column.ilike(pattern)], which the store evaluates as
    [lower(column) LIKE lower(pattern)].  A String column holds a text or
    NULL, and on a NULL the condition is not true. *)
Definition ilike (column : pyval) (pattern : string) : bool :=
  match column with
  | VStr s => like (lower pattern) (lower s)
  | _ => false
  end.

(** The [WHERE] clause of [search_markets_by_keyword]. *)
Definition market_found (keyword : string) (now : datetime)
    (market : gmap string pyval) : bool :=
  future_active now market
  && (ilike (default VNone (market !! "question")) ("%" +:+ keyword +:+ "%")
      || ilike (default VNone (market !! "description"))
               ("%" +:+ keyword +:+ "%")).

Definition search_markets_by_keyword (keyword : string) (limit : Z)
    (now : datetime) (db : gmap (table * string) (gmap string pyval))
    : list (gmap string pyval) :=
  sql_limit limit
    (order_by_end_date
       (filter (λ m, market_found keyword now m = true) (market_rows db))).

(** *** get_all_unique_tags *)

(** The values the loop over the tags of one event adds to [unique_tags],
    in order. *)
Fixpoint tag_labels (tags : list pyval) : list pyval :=
  match tags with
  | [] => []
  | tag :: rest =>
      match tag with
      | VDict d => default (VStr "") (assoc_get "label" d) :: tag_labels rest
      | VStr s => VStr s :: tag_labels rest
      | _ => tag_labels rest
      end
  end.

Definition event_tag_labels (event : gmap string pyval) : res (list pyval) :=
  let tags := default VNone (event !! "tags") in
  if truthy tags then ts ← py_iter tags; Ok (tag_labels ts)
  else Ok [].

(** The loop over [all_events]. *)
Fixpoint collect_labels (events : list (gmap string pyval))
    : res (list pyval) :=
  match events with
  | [] => Ok []
  | event :: rest =>
      ls ← event_tag_labels event;
      ls' ← collect_labels rest;
      Ok (ls ++ ls')
  end.

(** [set.add] hashes its argument. *)
Definition hashable (v : pyval) : bool :=
  match v with
  | VList _ | VDict _ => false
  | _ => true
  end.

Fixpoint strings_of (vs : list pyval) : option (list string) :=
  match vs with
  | [] => Some []
  | VStr s :: vs' => cons s <$> strings_of vs'
  | _ :: _ => None
  end.

(** [sorted(list(set(vs)))] where every value is a string: the distinct
    strings in code point order. *)
Definition sorted_set (l : list string) : list string :=
  merge_sort String.le (remove_dups l).

(** [get_all_unique_tags] on a store.  A tag list that cannot be iterated
    and a label that cannot be hashed raise [TypeError].  The outer [None]
    stands for the stores this model does not cover: those in which some
    label is hashable but not a string. *)
Definition get_all_unique_tags
    (db : gmap (table * string) (gmap string pyval))
    : option (res (list string)) :=
  match collect_labels (event_rows db) with
  | Raise e => Some (Raise e)
  | Ok vs =>
      if forallb hashable vs
      then Ok <$> (sorted_set <$> strings_of vs)
      else Some (Raise TypeError)
  end.

(** ** The scheduler ([polymarket_events_periodic_updatas.py])

    One turn of the [while True] loop of [continuous_update]: fetch
    everything, reconcile it when there is anything.  An exception of
    either step is caught and the turn ends like any other, with the same
    sleep.  What the turn itself prints and how long it sleeps are left
    out, and so is a KeyboardInterrupt, which ends the loop: a turn is what
    it does to the store and what it asks of the source.  [None] when the
    fetch does not end. *)
Definition update_turn (server : request → response) (fuel : nat)
    (state : gmap (table * string) (gmap string pyval) * world)
    : option (gmap (table * string) (gmap string pyval) * world) :=
  match fetch_all_active_events server fuel None state.2 with
  | (Ok None, _) => None
  | (Ok (Some events), w) =>
      Some (if truthy (VList events)
            then (populate_database events state.1).2
            else state.1, w)
  | (Raise _, w) => Some (state.1, w)
  end.

(** The loop for as many turns as [servers] has entries, each the source
    as it is at that turn. *)
Fixpoint continuous_update (servers : list (request → response)) (fuel : nat)
    (state : gmap (table * string) (gmap string pyval) * world)
    : option (gmap (table * string) (gmap string pyval) * world) :=
  match servers with
  | [] => Some state
  | server :: rest =>
      match update_turn server fuel state with
      | Some state' => continuous_update rest fuel state'
      | None => None
      end
  end.

End Python.

(** ** Vocabulary of the statements *)

Section Statements.
Context {R : PyRuntime}.

Fixpoint has_char (c : ascii) (s : string) : bool :=
  match s with
  | EmptyString => false
  | String a s' => Ascii.eqb a c || has_char c s'
  end.

(** A parse result as the value [parse_datetime] hands back. *)
Definition datetime_or_none (o : option datetime) : pyval :=
  match o with
  | Some d => VDatetime d
  | None => VNone
  end.

(** The parameters [fetch_active_events] sends. *)
Definition events_request (limit offset : Z) : request :=
  {| rq_closed := "false"; rq_order := "id"; rq_ascending := "false";
     rq_limit := limit; rq_offset := offset |}.

(** What one page fetch returns, and the world it leaves. *)
Definition page (server : request → response) (limit offset : Z) : res pyval :=
  let r := server (events_request limit offset) in
  if status_code r =? 200 then json r else Ok (VList []).

Definition after_fetch (server : request → response) (limit offset : Z)
    (w : world) : world :=
  let r := server (events_request limit offset) in
  {| requests := requests w ++ [events_request limit offset];
     stdout := if status_code r =? 200 then stdout w
               else stdout w ++ ["Error fetching events: "
                                 +:+ pretty (status_code r)] |}.

(** The world after a non-empty page of [n] records brought the total to
    [total]. *)
Definition after_page (server : request → response) (limit offset n : Z)
    (total : nat) (w : world) : world :=
  let w1 := after_fetch server limit offset w in
  {| requests := requests w1;
     stdout := stdout w1 ++ ["  Fetched " +:+ pretty n +:+ " events (total: "
                             +:+ pretty total +:+ ")"] |}.

(** The records on a page: those of a JSON array, none otherwise. *)
Definition page_records (server : request → response) (limit offset : Z)
    : list pyval :=
  match page server limit offset with
  | Ok (VList l) => l
  | _ => []
  end.

(** The records of the first [n] pages from [offset] on, in order. *)
Fixpoint first_pages (server : request → response) (limit : Z) (n : nat)
    (offset : Z) : list pyval :=
  match n with
  | O => []
  | S n' => page_records server limit offset
            ++ first_pages server limit n' (offset + limit)
  end.

(** *** Tag search *)


(** The texts a tag is searched in: the string itself, or the label and
    the slug of an object (the empty string for a missing one); nothing for
    an entry of another type.  [None] for an object whose label or slug is
    not a string. *)
Definition tag_texts (tag : pyval) : option (list string) :=
  match tag with
  | VStr s => Some [s]
  | VDict d =>
      match default (VStr "") (assoc_get "label" d),
            default (VStr "") (assoc_get "slug" d) with
      | VStr label, VStr slug => Some [label; slug]
      | _, _ => None
      end
  | _ => Some []
  end.

(** The keyword is, case aside, part of one of the texts. *)
Definition keyword_hits (tag_keyword : string) (texts : list string) : bool :=
  existsb (λ t, str_in (lower tag_keyword) (lower t)) texts.

(** *** Field defaults *)

(** The zero value of a column type that has one. *)
Definition zero_value (ty : coltype) : option pyval :=
  match ty with
  | CInteger => Some (VInt 0)
  | CFloat => Some (VFloat float_zero)
  | CBoolean => Some (VBool false)
  | CJSON => Some (VList [])
  | CString | CText | CDateTime => None
  end.

Definition is_numeric (ty : coltype) : bool :=
  match ty with
  | CInteger | CFloat => true
  | _ => false
  end.

(** What a field maps to when its key is missing from the record. *)
Definition missing_value (c : conv) : res pyval :=
  match c with
  | Plain dflt => Ok dflt
  | AsStr dflt => Ok (VStr (py_str dflt))
  | AsFloat dflt => py_float dflt
  | AsDate => Ok (parse_datetime VNone)
  | Given v => Ok v
  end.

Definition table_fields (t : table) (event_id : string)
    : list (string * string * conv) :=
  match t with
  | Events => event_fields
  | Markets => market_fields event_id
  end.

(** The mapping function of a table; [event_id] matters to markets only. *)
Definition create_from_api (t : table) (data : pyval) (event_id : string)
    : res (list (string * pyval)) :=
  match t with
  | Events => create_event_from_api data
  | Markets => create_market_from_api data event_id
  end.

(** *** Reconciliation as a list of writes *)

(** One write of the reconciliation: the table, the primary key and the
    object mapped from the raw record. *)
Definition write : Type := table * string * list (string * pyval).

Definition write_key (w : write) : table * string := w.1.
Definition write_obj (w : write) : list (string * pyval) := w.2.

(** The attribute names of a freshly mapped object, in [__dict__] order. *)
Definition object_keys (t : table) : list string :=
  "_sa_instance_state"
  :: match t with
     | Events => event_fields.*1.*1
     | Markets => (market_fields "").*1.*1
     end.

(** The public attributes of an object as a map; a name set twice keeps
    its last value. *)
Definition public_attrs (obj : list (string * pyval)) : gmap string pyval :=
  list_to_map (reverse (filter (λ kv, startswith_underscore kv.1 = false) obj)).

(** A write as the mapping functions produce it: the object has the
    attributes of its class and its [id] is the key. *)
Definition write_ok (w : write) : Prop :=
  (write_obj w).*1 = object_keys (write_key w).1
  ∧ primary_key (write_obj w) = (write_key w).2.

(** What one write does to the session's view: the attribute loop on the
    row found, or a new row. *)
Definition upsert (w : write) (db : gmap (table * string) (gmap string pyval))
    : gmap (table * string) (gmap string pyval) :=
  <[write_key w := match db !! write_key w with
                   | Some existing => setattrs (write_obj w) existing
                   | None => columns (write_obj w)
                   end]> db.

Definition apply_writes (ws : list write)
    (db : gmap (table * string) (gmap string pyval))
    : gmap (table * string) (gmap string pyval) :=
  fold_left (λ db w, upsert w db) ws db.

(** Every write is preceded by a query, hence by a flush of the view the
    earlier writes left. *)
Fixpoint flushes_ok (ws : list write)
    (db : gmap (table * string) (gmap string pyval)) : bool :=
  match ws with
  | [] => true
  | w :: ws' => integrity_ok db && flushes_ok ws' (upsert w db)
  end.

Definition count_write (t : table) (found : bool) (c : counts) : counts :=
  match t, found with
  | Events, true => event_updated c
  | Events, false => event_added c
  | Markets, true => market_updated c
  | Markets, false => market_added c
  end.

(** The counters after the writes [ws], each classified by whether its
    row was there when its turn came. *)
Fixpoint tally (ws : list write)
    (db : gmap (table * string) (gmap string pyval)) (c : counts) : counts :=
  match ws with
  | [] => c
  | w :: ws' =>
      tally ws' (upsert w db)
            (count_write (write_key w).1
                         (bool_decide (is_Some (db !! write_key w))) c)
  end.

(** The object of the last write to [k] in [ws]. *)
Fixpoint last_write (k : table * string) (ws : list write)
    : option (list (string * pyval)) :=
  match ws with
  | [] => None
  | w :: ws' =>
      match last_write k ws' with
      | Some obj => Some obj
      | None => if decide (write_key w = k) then Some (write_obj w) else None
      end
  end.

(** The query-then-write step both loops of [populate_database] perform. *)
Definition do_write (c : counts) (w : write) : M session counts :=
  let '(t, id, obj) := w in
  existing ← query_first t id;
  match existing with
  | Some existing =>
      session_update t id existing obj;; ret (count_write t true c)
  | None => session_add t obj;; ret (count_write t false c)
  end.

(** A computation that leaves the committed store alone, also when it
    raises. *)
Definition keeps_committed {A} (m : M session A) : Prop :=
  ∀ s, committed (m s).2 = committed s.

Definition raises {S A} (m : M S A) (s : S) : Prop :=
  ∃ e s', m s = (Raise e, s').

Fixpoint map_res {A B} (f : A → res B) (l : list A) : res (list B) :=
  match l with
  | [] => Ok []
  | x :: l' => y ← f x; ys ← map_res f l'; Ok (y :: ys)
  end.

Definition market_write (event_id : string) (market_data : pyval) : res write :=
  id ← py_get market_data "id" VNone;
  obj ← create_market_from_api market_data event_id;
  Ok (Markets, py_str id, obj).

(** The nested market records of a raw event; none when the record has no
    iterable [markets]. *)
Definition markets_of (event_data : pyval) : list pyval :=
  match (md ← py_get event_data "markets" (VList []); py_iter md) with
  | Ok ms => ms
  | Raise _ => []
  end.

(** The primary key [populate_database] computes for a raw record. *)
Definition record_id (data : pyval) : string :=
  match py_get data "id" VNone with
  | Ok id => py_str id
  | Raise _ => ""
  end.

Definition event_writes (event_data : pyval) : res (list write) :=
  id ← py_get event_data "id" VNone;
  obj ← create_event_from_api event_data;
  markets_data ← py_get event_data "markets" (VList []);
  markets ← py_iter markets_data;
  mws ← map_res (market_write (py_str id)) markets;
  Ok ((Events, py_str id, obj) :: mws).

Definition batch_writes (events_data : list pyval) : res (list write) :=
  wss ← map_res event_writes events_data; Ok (concat wss).

(** The keys a batch writes, in order; none when some record does not map. *)
Definition batch_keys (events_data : list pyval) : list (table * string) :=
  match batch_writes events_data with
  | Ok ws => write_key <$> ws
  | Raise _ => []
  end.

(** The keys one raw event writes: its own, then one per nested market. *)
Definition event_keys (event_data : pyval) : list (table * string) :=
  (Events, record_id event_data)
  :: ((λ md, (Markets, record_id md)) <$> markets_of event_data).

Definition keys_in (t : table) (ks : list (table * string)) : nat :=
  length (filter (λ k, k.1 = t) ks).

Definition total_markets (events_data : list pyval) : nat :=
  sum_list (length ∘ markets_of <$> events_data).

(** The counters of a pass in which every row was found. *)
Definition all_updated (events_data : list pyval) : counts :=
  {| events_added := 0; events_updated := length events_data;
     markets_added := 0; markets_updated := total_markets events_data |}.

End Statements.

(** ** Vocabulary of the further properties *)

Section MoreStatements.
Context {R : PyRuntime}.

(** *** Pagination *)

(** The requests of [n] consecutive pages from [offset] on. *)
Definition offsets_requested (limit offset : Z) (n : nat) : list request :=
  (λ i : nat, events_request limit (offset + limit * Z.of_nat i)) <$> seq 0 n.

(** The pages before page [k] are arrays of at least [limit] records and
    page [k] is an array of fewer (a page that failed counts as empty). *)
Definition first_short_page (server : request → response) (limit offset : Z)
    (k : nat) : Prop :=
  (∀ i, (i < k)%nat →
        ∃ l, page server limit (offset + limit * Z.of_nat i) = Ok (VList l)
             ∧ limit ≤ Z.of_nat (length l))
  ∧ ∃ l, page server limit (offset + limit * Z.of_nat k) = Ok (VList l)
         ∧ Z.of_nat (length l) < limit.

(** Every page is an array of at least [limit] records. *)
Definition only_full_pages (server : request → response) (limit : Z) : Prop :=
  ∀ offset, ∃ l, page server limit offset = Ok (VList l)
                 ∧ limit ≤ Z.of_nat (length l).

Definition no_limit (max_events : option Z) : Prop :=
  max_events = None ∨ max_events = Some 0.




(** *** Field mapping *)

Definition is_ok {A} (r : res A) : Prop := ∃ a, r = Ok a.

(** The fields passed through [float(...)], in constructor order: the API
    key and the default of its [get]. *)
Definition float_keys (fs : list (string * string * conv))
    : list (string * pyval) :=
  omap (λ f, match f.2 with
             | AsFloat dflt => Some (f.1.2, dflt)
             | _ => None
             end) fs.

(** [float(d.get(key, dflt))] *)
Definition float_of_key (d : list (string * pyval)) (kd : string * pyval)
    : res pyval :=
  py_float (default kd.2 (assoc_get kd.1 d)).

(** *** The store *)

(** The number of rows of a table. *)
Definition rows_in (t : table)
    (db : gmap (table * string) (gmap string pyval)) : nat :=
  size (filter (λ kv : (table * string) * gmap string pyval, kv.1.1 = t) db).

(** The constraint on [Event.slug]: no two event rows carry the same slug
    text. *)
Definition unique_slugs (db : gmap (table * string) (gmap string pyval))
    : Prop :=
  ∀ i j ri rj s,
    db !! (Events, i) = Some ri → db !! (Events, j) = Some rj →
    slug_text ri = Some s → slug_text rj = Some s → i = j.

(** A value as [response.json()] yields it. *)
Fixpoint json_value (v : pyval) : bool :=
  match v with
  | VNone | VBool _ | VInt _ | VFloat _ | VStr _ => true
  | VList l => forallb json_value l
  | VDict d => forallb (λ kv, let '(_, x) := kv in json_value x) d
  | VDatetime _ | VObject _ => false
  end.

(** The store keeps the value as it is given and hands it back unchanged:
    a NULL, a text in a String or Text column, an integer of at most 64
    bits in an Integer column, a boolean in a Boolean column, a JSON value
    in a JSON column.  Float and DateTime columns are left out, and so is
    every value of a type other than its column's: what the store makes of
    those is its own matter. *)
Definition stored_as_is (ty : coltype) (v : pyval) : bool :=
  match ty, v with
  | (CFloat | CDateTime), VNone => true
  | (CFloat | CDateTime), _ => false
  | CJSON, _ => json_value v
  | _, VNone => true
  | (CString | CText), VStr _ => true
  | CInteger, VInt z => (- 2 ^ 63 <=? z) && (z <? 2 ^ 63)
  | CBoolean, VBool _ => true
  | _, _ => false
  end.

(** A raw event that cannot be written: it is no JSON object, or its
    [markets] field is there but cannot be iterated (a null, a number), or
    one of its nested market records does not map. *)
Definition unmappable (event_data : pyval) : Prop :=
  (∀ d, event_data ≠ VDict d)
  ∨ (∃ d v e, event_data = VDict d ∧ assoc_get "markets" d = Some v
              ∧ py_iter v = Raise e)
  ∨ (∃ market_data e,
       market_data ∈ markets_of event_data
       ∧ create_market_from_api market_data (record_id event_data) = Raise e).

(** *** Queries *)

(** What the store's comparison of two timestamps has to satisfy for
    [ORDER BY] to mean anything: it is asymmetric, and "not later than" is
    transitive. *)
Definition datetime_order : Prop :=
  (∀ x y, datetime_ltb x y = true → datetime_ltb y x = false)
  ∧ (∀ x y z, datetime_ltb y x = false → datetime_ltb z y = false →
              datetime_ltb z x = false).

(** The tags of a stored event when they are a JSON array. *)
Definition event_tags (event : gmap string pyval) : list pyval :=
  match event !! "tags" with
  | Some (VList ts) => ts
  | _ => []
  end.

(** The tags are missing, null or an array whose objects have a string
    for label and for slug wherever they have one. *)
Definition well_tagged (event : gmap string pyval) : Prop :=
  match default VNone (event !! "tags") with
  | VNone => True
  | VList ts => Forall (λ tag, is_Some (tag_texts tag)) ts
  | _ => False
  end.


(** Some tag of the event carries the keyword. *)
Definition tagged_with (tag_keyword : string) (event : gmap string pyval)
    : bool :=
  existsb (λ tag, keyword_hits tag_keyword (default [] (tag_texts tag)))
          (event_tags event).

(** The text of a String column: none for a NULL. *)
Definition column_text (row : gmap string pyval) (column : string)
    : option string :=
  match row !! column with
  | Some (VStr s) => Some s
  | _ => None
  end.

(** The keyword is, case aside, part of the text of the column. *)
Definition column_contains (keyword : string) (row : gmap string pyval)
    (column : string) : bool :=
  match column_text row column with
  | Some s => str_in (lower keyword) (lower s)
  | None => false
  end.

(** The name a tag is listed under: a string tag itself, the label of an
    object (the empty string when it has none); nothing for an entry of
    another type or an object whose label is not a string. *)
Definition tag_label (tag : pyval) : option string :=
  match tag with
  | VStr s => Some s
  | VDict d =>
      match default (VStr "") (assoc_get "label" d) with
      | VStr s => Some s
      | _ => None
      end
  | _ => None
  end.

(** The tags are missing, null or an array whose objects have a string
    for label when they have one. *)
Definition well_labelled (event : gmap string pyval) : Prop :=
  match default VNone (event !! "tags") with
  | VNone => True
  | VList ts => Forall (λ tag, match tag with
                               | VDict _ => is_Some (tag_label tag)
                               | _ => True
                               end) ts
  | _ => False
  end.


Definition well_labelled_check (event : gmap string pyval) : bool :=
  match default VNone (event !! "tags") with
  | VNone => true
  | VList ts => forallb (λ tag, match tag with
                                | VDict _ => bool_decide (is_Some (tag_label tag))
                                | _ => true
                                end) ts
  | _ => false
  end.

End MoreStatements.
(** ** A small runtime to run the definitions on

    Floats are the whole numbers, a timestamp is its ISO text in UTC with
    seconds ([YYYY-MM-DDTHH:MM:SS+00:00]); texts of that one shape compare
    in time order. *)

Definition is_digit (a : ascii) : bool :=
  match a with
  | Ascii _ b1 b2 b3 true true false false => negb (b3 && (b1 || b2))
  | _ => false
  end.

Definition digit_value (a : ascii) : Z :=
  match a with
  | Ascii b0 b1 b2 b3 _ _ _ _ =>
      Z.b2z b0 + 2 * Z.b2z b1 + 4 * Z.b2z b2 + 8 * Z.b2z b3
  end.

(** [d] in the pattern stands for a digit, any other character for itself. *)
Fixpoint matches_pattern (pat s : string) : bool :=
  match pat, s with
  | EmptyString, EmptyString => true
  | String p pat', String a s' =>
      (if Ascii.eqb p "d" then is_digit a else Ascii.eqb p a)
      && matches_pattern pat' s'
  | _, _ => false
  end.

Fixpoint digits_value (s : string) (acc : Z) : option Z :=
  match s with
  | EmptyString => Some acc
  | String a s' =>
      if is_digit a
      then digits_value s' (10 * acc + digit_value a)
      else None
  end.

Definition sample_float_of_str (s : string) : option Z :=
  match s with
  | EmptyString => None
  | String "-" s' => match s' with
                     | EmptyString => None
                     | _ => Z.opp <$> digits_value s' 0
                     end
  | _ => digits_value s 0
  end.

Definition sample_fromisoformat (s : string) : option string :=
  if matches_pattern "dddd-dd-ddTdd:dd:dd+00:00" s then Some s else None.

Global Instance sample_runtime : PyRuntime := {|
  pyfloat := Z;
  datetime := string;
  float_of_int z := Some z;
  float_of_str := sample_float_of_str;
  float_zero := 0;
  float_of_int_0 := eq_refl;
  float_is_zero z := z =? 0;
  str_of_float z := NilZero.string_of_int (Z.to_int z) +:+ ".0";
  repr_of_str s := "'" +:+ s +:+ "'";
  fromisoformat := sample_fromisoformat;
  str_of_datetime s := s;
  datetime_ltb := String.ltb;
|}.

Definition world0 : world := {| requests := []; stdout := [] |}.

Definition ok_page (l : list (@pyval sample_runtime)) : response :=
  {| status_code := 200; json := Ok (VList l) |}.

Definition sample_event (id : string) : @pyval sample_runtime :=
  VDict [("id", VStr id); ("slug", VStr ("event-" +:+ id))].

(** A source that always serves as many records as asked for. *)
Definition endless_server (rq : request) : response :=
  ok_page (replicate (Z.to_nat (rq_limit rq)) (sample_event "1")).

(** A source with one full page of 100 records and nothing after it. *)
Definition one_full_page_server (rq : request) : response :=
  if rq_offset rq =? 0 then ok_page (replicate 100 (sample_event "1"))
  else ok_page [].

(** A source with three records in all. *)
Definition three_events_server (rq : request) : response :=
  if rq_offset rq =? 0
  then ok_page [sample_event "1"; sample_event "2"; sample_event "3"]
  else ok_page [].

(** A source that is down. *)
Definition failing_server (rq : request) : response :=
  {| status_code := 503; json := Raise JSONDecodeError |}.

(** The raw event of the specification's scenario. *)
Definition scenario_event : @pyval sample_runtime :=
  VDict [("id", VStr "1"); ("slug", VStr "will-x-happen");
         ("markets", VList [VDict [("id", VStr "10");
                                   ("question", VStr "Will X happen?")]])].

(** A batch whose second market does not map: its best bid is no number. *)
Definition unmappable_batch : list (@pyval sample_runtime) :=
  [ VDict [("id", VStr "1"); ("slug", VStr "first");
           ("markets", VList [VDict [("id", VStr "10")]])];
    VDict [("id", VStr "2"); ("slug", VStr "second");
           ("markets", VList [VDict [("id", VStr "20");
                                     ("bestBid", VStr "n/a")]])] ].

(** A batch that lists event 1 twice, with two slugs, and gives the first
    of them to event 2. *)
Definition slug_swap_batch : list (@pyval sample_runtime) :=
  [ VDict [("id", VStr "1"); ("slug", VStr "a")];
    VDict [("id", VStr "1"); ("slug", VStr "b")];
    VDict [("id", VStr "2"); ("slug", VStr "a")] ].

(** A raw event whose liquidity is an explicit null. *)
Definition null_liquidity_event : @pyval sample_runtime :=
  VDict [("id", VStr "1"); ("liquidity", VNone)].

(** A future, active event tagged Crypto, and the store that holds it. *)
Definition crypto_event : @pyval sample_runtime :=
  VDict [("id", VStr "7"); ("slug", VStr "btc-100k"); ("active", VBool true);
         ("endDate", VStr "2030-01-01T00:00:00Z");
         ("tags", VList [VDict [("label", VStr "Crypto");
                                ("slug", VStr "crypto")]])].

Definition empty_store
    : gmap (table * string) (gmap string (@pyval sample_runtime)) := ∅.

Definition crypto_store
    : gmap (table * string) (gmap string (@pyval sample_runtime)) :=
  (populate_database [crypto_event] empty_store).2.

Definition sample_now : string := "2026-01-01T00:00:00+00:00".

(** The store after the scenario's first pass, and a session opened on it. *)
Definition scenario_store
    : gmap (table * string) (gmap string (@pyval sample_runtime)) :=
  (populate_database [scenario_event] empty_store).2.

Definition scenario_session : @session sample_runtime :=
  {| committed := scenario_store; working := scenario_store |}.

(** ** Further sample data *)



(** An event with two future, active markets and one that has ended. *)
Definition bitcoin_event : @pyval sample_runtime :=
  VDict [("id", VStr "9"); ("slug", VStr "bitcoin"); ("active", VBool true);
         ("endDate", VStr "2030-06-01T00:00:00Z");
         ("tags", VList [VStr "Crypto"; VDict [("slug", VStr "btc")]]);
         ("markets",
          VList [VDict [("id", VStr "91"); ("active", VBool true);
                        ("question", VStr "Will Bitcoin reach 200k?");
                        ("endDate", VStr "2030-06-01T00:00:00Z")];
                 VDict [("id", VStr "92"); ("active", VBool true);
                        ("question", VStr "Will it fall?");
                        ("description", VStr "Resolves on the BITCOIN price.");
                        ("endDate", VStr "2029-06-01T00:00:00Z")];
                 VDict [("id", VStr "93"); ("active", VBool true);
                        ("question", VStr "Did Bitcoin reach 50k?");
                        ("endDate", VStr "2024-06-01T00:00:00Z")]])].

Definition bitcoin_store
    : gmap (table * string) (gmap string (@pyval sample_runtime)) :=
  (populate_database [bitcoin_event; crypto_event] empty_store).2.

(** A market row as the store holds it. *)
Definition sample_market : gmap string (@pyval sample_runtime) :=
  {[ "id" := VStr "91"; "active" := VBool true;
     "question" := VStr "Will Bitcoin reach 200k?";
     "end_date" := VDatetime "2030-06-01T00:00:00+00:00" ]}.

(** A raw market whose best bid is no number. *)
Definition bad_bid_market : list (string * @pyval sample_runtime) :=
  [("id", VStr "20"); ("bestBid", VStr "n/a")].

(** An event whose three nested market records carry one id. *)
Definition shared_id_event : @pyval sample_runtime :=
  VDict [("id", VStr "3"); ("slug", VStr "shared");
         ("markets", VList [VDict [("id", VStr "30"); ("question", VStr "a")];
                            VDict [("id", VStr "30"); ("question", VStr "b")];
                            VDict [("id", VStr "30"); ("question", VStr "c")]])].

(** * Properties *)

Ltac unfold_M :=
  unfold mbind, mret, M_bind, M_ret, res_bind_inst, res_ret,
    bind, ret, lift, gets, modify, res_bind in *.

(** ** Strings *)

Lemma str_app_cons a s1 s2 : String a s1 +:+ s2 = String a (s1 +:+ s2).
Proof. reflexivity. Qed.

Lemma str_app_assoc s1 s2 s3 : (s1 +:+ s2) +:+ s3 = s1 +:+ (s2 +:+ s3).
Proof.
  induction s1 as [|a s1 IH]; [done|].
  by rewrite !str_app_cons, IH.
Qed.

Lemma str_replace_app c new s1 s2 :
  str_replace c new (s1 +:+ s2) = str_replace c new s1 +:+ str_replace c new s2.
Proof.
  induction s1 as [|a s1 IH]; [done|].
  rewrite str_app_cons. simpl. rewrite IH.
  destruct (Ascii.eqb a c); [|done].
  by rewrite str_app_assoc.
Qed.

Lemma str_replace_absent c new s :
  has_char c s = false → str_replace c new s = s.
Proof.
  induction s as [|a s IH]; simpl; [done|].
  destruct (Ascii.eqb a c); simpl; [done|]. intros H. by rewrite IH.
Qed.

Section DatetimeTheory.
Context {R : PyRuntime}.

Lemma parse_datetime_str s :
  parse_datetime (VStr s) =
  if String.eqb s "" then VNone
  else datetime_or_none (fromisoformat (str_replace "Z" "+00:00" s)).
Proof.
  unfold parse_datetime. simpl. destruct (String.eqb s ""); simpl; [done|].
  unfold_M. simpl. by destruct (fromisoformat _).
Qed.

Lemma parse_datetime_total v :
  parse_datetime v = VNone ∨ ∃ d, parse_datetime v = VDatetime d.
Proof.
  destruct v; try (unfold parse_datetime; simpl;
    repeat match goal with |- context [if ?b then _ else _] => destruct b end;
    simpl; by left).
  rewrite parse_datetime_str. destruct (String.eqb s ""); [by left|].
  destruct (fromisoformat _); simpl; eauto.
Qed.

(** C6. [parse_datetime] never raises: on every input it returns [None] or
    a datetime.  A falsy input (None, the empty string) gives [None]; a
    string ending in "Z" is parsed as the same text ending in "+00:00";
    a string [fromisoformat] rejects gives [None]. *)
Theorem parse_datetime_spec (v : pyval) (s : string) :
  (parse_datetime v = VNone ∨ ∃ d, parse_datetime v = VDatetime d)
  ∧ (truthy v = false → parse_datetime v = VNone)
  ∧ (has_char "Z" s = false →
     parse_datetime (VStr (s +:+ "Z"))
     = datetime_or_none (fromisoformat (s +:+ "+00:00")))
  ∧ (fromisoformat (str_replace "Z" "+00:00" s) = None →
     parse_datetime (VStr s) = VNone).
Proof.
  split; [apply parse_datetime_total|]. split; [|split].
  - intros H. unfold parse_datetime. by rewrite H.
  - intros H. rewrite parse_datetime_str, str_replace_app.
    rewrite (str_replace_absent _ _ s H). simpl.
    destruct (String.eqb (s +:+ "Z") "") eqn:E; [|done].
    apply String.eqb_eq in E. destruct s; discriminate.
  - intros H. rewrite parse_datetime_str, H. by destruct (String.eqb s "").
Qed.

End DatetimeTheory.

Section ClientTheory.
Context {R : PyRuntime}.
Variable server : request → response.

Lemma fetch_active_events_eq limit offset w :
  fetch_active_events server limit offset w
  = (page server limit offset, after_fetch server limit offset w).
Proof.
  unfold fetch_active_events, requests_get, print, page, after_fetch.
  unfold_M. fold (events_request limit offset). simpl.
  by destruct (status_code _ =? 200).
Qed.

(** C7. On status 200 [fetch_active_events] returns what [response.json()]
    gives and prints nothing; on every other status it returns the empty
    list without raising and prints the error line.  Either way it sent
    exactly one request. *)
Theorem fetch_active_events_spec limit offset w :
  let r := server (events_request limit offset) in
  let sent := requests w ++ [events_request limit offset] in
  (status_code r = 200 →
   fetch_active_events server limit offset w
   = (json r, {| requests := sent; stdout := stdout w |}))
  ∧ (status_code r ≠ 200 →
     fetch_active_events server limit offset w
     = (Ok (VList []),
        {| requests := sent;
           stdout := stdout w ++ ["Error fetching events: "
                                  +:+ pretty (status_code r)] |})).
Proof.
  intros r sent. rewrite fetch_active_events_eq. unfold page, after_fetch.
  fold r. split; intros H.
  - by rewrite H.
  - apply Z.eqb_neq in H. by rewrite H.
Qed.

Lemma fetch_loop_falsy fuel max_events limit all offset w events :
  page server limit offset = Ok events → truthy events = false →
  fetch_loop server (S fuel) max_events limit all offset w
  = (Ok (Some all), after_fetch server limit offset w).
Proof.
  intros Hp Ht. simpl. unfold_M. rewrite fetch_active_events_eq, Hp.
  by rewrite Ht.
Qed.

Lemma fetch_loop_list fuel max_events limit all offset w l :
  page server limit offset = Ok (VList l) → l ≠ [] →
  fetch_loop server (S fuel) max_events limit all offset w
  = let all' := all ++ l in
    let w' := after_page server limit offset (Z.of_nat (length l))
                         (length all') w in
    if Z.of_nat (length l) <? limit then (Ok (Some all'), w')
    else if max_reached max_events (length all')
         then (Ok (Some (slice_to all' (default 0 max_events))), w')
         else fetch_loop server fuel max_events limit all' (offset + limit) w'.
Proof.
  intros Hp Hl. simpl. unfold_M. rewrite fetch_active_events_eq, Hp.
  destruct l as [|x l]; [done|]. simpl.
  fold (after_page server limit offset (Z.of_nat (S (length l)))
          (length (all ++ x :: l)) w).
  destruct (_ <? limit); [done|].
  by destruct (max_reached _ _).
Qed.

Lemma fetch_loop_zero fuel limit all offset w :
  fetch_loop server fuel (Some 0) limit all offset w
  = fetch_loop server fuel None limit all offset w.
Proof.
  revert all offset w. induction fuel as [|fuel IH]; intros; [done|].
  simpl. unfold_M. rewrite !fetch_active_events_eq.
  destruct (page server limit offset) as [events|]; [|done].
  destruct (negb (truthy events)); [done|].
  destruct (py_iter events) as [new|]; [|done].
  destruct (py_len events) as [n|]; [|done].
  unfold print. simpl.
  destruct (n <? limit); [done|]. simpl. apply IH.
Qed.

(** C10. [max_events=0] is no limit: the call behaves exactly as with
    [max_events=None], whatever the source serves; and a full page does not
    end the loop when [max_events] is 0: the next page is asked for with
    every record kept. *)
Theorem max_events_zero_is_no_limit fuel w all offset l :
  fetch_all_active_events server fuel (Some 0) w
  = fetch_all_active_events server fuel None w
  ∧ (page server 100 offset = Ok (VList l) → 100 ≤ Z.of_nat (length l) →
     fetch_loop server (S fuel) (Some 0) 100 all offset w
     = fetch_loop server fuel (Some 0) 100 (all ++ l) (offset + 100)
         (after_page server 100 offset (Z.of_nat (length l))
                     (length (all ++ l)) w)).
Proof.
  split.
  - unfold fetch_all_active_events. unfold_M. unfold print. simpl.
    by rewrite fetch_loop_zero.
  - intros Hp Hl. rewrite (fetch_loop_list _ _ _ _ _ _ l Hp).
    + simpl. destruct (Z.ltb_spec (Z.of_nat (length l)) 100); [lia|done].
    + intros ->. simpl in Hl. lia.
Qed.


Lemma length_slice_to {A} (l : list A) (m : Z) :
  0 < m → m ≤ Z.of_nat (length l) → Z.of_nat (length (slice_to l m)) = m.
Proof.
  intros Hm Hl. unfold slice_to.
  destruct (Z.leb_spec 0 m); [|lia]. rewrite length_take. lia.
Qed.

End ClientTheory.

(** ** Objects and rows *)

Section RowTheory.
Context {R : PyRuntime}.
Implicit Types (obj : list (string * pyval)) (r : gmap string pyval).

Lemma public_keys obj :
  (filter (λ kv : string * pyval, startswith_underscore kv.1 = false) obj).*1
  = filter (λ k, startswith_underscore k = false) obj.*1.
Proof.
  induction obj as [|[k v] obj IH]; [done|].
  rewrite fmap_cons, !filter_cons. simpl.
  destruct (decide _); [rewrite fmap_cons|]; by rewrite IH.
Qed.

(** The attribute loop overwrites with the public attributes and keeps
    the rest of the row. *)
Lemma setattrs_union obj r : setattrs obj r = public_attrs obj ∪ r.
Proof.
  unfold setattrs, public_attrs. revert r.
  induction obj as [|[k v] obj IH]; intros r; simpl.
  - by rewrite (left_id_L ∅ (∪)).
  - rewrite IH. destruct (startswith_underscore k) eqn:E.
    + rewrite filter_cons_False; [done|]. simpl. by rewrite E.
    + rewrite filter_cons_True by done.
      rewrite reverse_cons, list_to_map_app. simpl.
      rewrite <-(assoc_L (∪)). f_equal.
      by rewrite insert_empty, <-insert_union_singleton_l.
Qed.

Lemma public_attrs_None obj k :
  public_attrs obj !! k = None
  ↔ k ∉ filter (λ k, startswith_underscore k = false) obj.*1.
Proof.
  unfold public_attrs. rewrite <-not_elem_of_list_to_map.
  rewrite fmap_reverse, elem_of_reverse. rewrite public_keys. done.
Qed.

(** A second object with the same attribute names overwrites all that the
    first one wrote. *)
Lemma public_attrs_absorb obj1 obj2 r :
  obj1.*1 = obj2.*1 →
  public_attrs obj2 ∪ (public_attrs obj1 ∪ r) = public_attrs obj2 ∪ r.
Proof.
  intros Hk. apply map_eq. intros k. rewrite !lookup_union.
  destruct (public_attrs obj2 !! k) as [v|] eqn:E2.
  - by destruct (public_attrs obj1 !! k), (r !! k).
  - apply public_attrs_None in E2. rewrite <-Hk in E2.
    apply public_attrs_None in E2. rewrite E2. by destruct (r !! k).
Qed.

Lemma public_attrs_idemp obj r :
  public_attrs obj ∪ (public_attrs obj ∪ r) = public_attrs obj ∪ r.
Proof. by apply public_attrs_absorb. Qed.

Lemma columns_public obj : NoDup obj.*1 → columns obj = public_attrs obj.
Proof.
  intros Hnd. unfold columns, public_attrs. apply list_to_map_proper.
  - rewrite public_keys. by apply NoDup_filter.
  - by rewrite reverse_Permutation.
Qed.

Lemma public_attrs_lookup obj k v :
  NoDup obj.*1 → (k, v) ∈ obj → startswith_underscore k = false →
  public_attrs obj !! k = Some v.
Proof.
  intros Hnd Hin Hk. unfold public_attrs. apply elem_of_list_to_map.
  - rewrite fmap_reverse, public_keys, reverse_Permutation.
    by apply NoDup_filter.
  - rewrite elem_of_reverse. apply list_elem_of_filter. done.
Qed.

(** After the attribute loop every public attribute of the object is on
    the row. *)
Lemma setattrs_lookup obj r k v :
  NoDup obj.*1 → (k, v) ∈ obj → startswith_underscore k = false →
  setattrs obj r !! k = Some v.
Proof.
  intros. rewrite setattrs_union. apply lookup_union_Some_l.
  by apply public_attrs_lookup.
Qed.

(** ... and every other attribute of the row is as it was. *)
Lemma setattrs_lookup_other obj r k :
  k ∉ obj.*1 → setattrs obj r !! k = r !! k.
Proof.
  intros Hk. rewrite setattrs_union. apply lookup_union_r.
  apply public_attrs_None. intros Hin%list_elem_of_filter. tauto.
Qed.

(** *** The field tables *)

Lemma map_fields_Forall2 data fs kvs :
  map_fields data fs = Ok kvs →
  Forall2 (λ f kv, map_field data f = Ok kv) fs kvs.
Proof.
  revert kvs. induction fs as [|f fs IH]; intros kvs; simpl.
  - intros [= <-]. constructor.
  - unfold_M. destruct (map_field data f) as [kv|] eqn:E; [|done].
    destruct (map_fields data fs) as [kvs'|]; [|done].
    intros [= <-]. constructor; auto.
Qed.

Lemma map_field_attr data f kv : map_field data f = Ok kv → kv.1 = f.1.1.
Proof.
  destruct f as [[attr key] c]. simpl. unfold_M.
  destruct c; repeat (case_match; try done); by intros [= <-].
Qed.

Lemma map_fields_keys data fs kvs :
  map_fields data fs = Ok kvs → kvs.*1 = fs.*1.*1.
Proof.
  intros H%map_fields_Forall2. induction H as [|f kv fs kvs Hf _ IH]; [done|].
  rewrite !fmap_cons. by rewrite IH, (map_field_attr _ _ _ Hf).
Qed.

Lemma object_keys_NoDup t : NoDup (object_keys t).
Proof. destruct t; apply (bool_decide_unpack _); by vm_compute. Qed.

Lemma create_event_keys event_data obj :
  create_event_from_api event_data = Ok obj → obj.*1 = object_keys Events.
Proof.
  unfold create_event_from_api. unfold_M.
  destruct (map_fields _ _) as [kvs|] eqn:E; [|done]. intros [= <-].
  rewrite fmap_cons. apply map_fields_keys in E. rewrite E. reflexivity.
Qed.

Lemma create_market_keys market_data event_id obj :
  create_market_from_api market_data event_id = Ok obj →
  obj.*1 = object_keys Markets.
Proof.
  unfold create_market_from_api. unfold_M.
  destruct (map_fields _ _) as [kvs|] eqn:E; [|done]. intros [= <-].
  rewrite fmap_cons. apply map_fields_keys in E. rewrite E. reflexivity.
Qed.

End RowTheory.

(** ** The session *)

Section SessionTheory.
Context {R : PyRuntime}.
Implicit Types (s : session) (c : counts) (w : write) (ws : list write).
Implicit Types (db : gmap (table * string) (gmap string pyval)).

Lemma kc_ret {A} (a : A) : keeps_committed (mret a).
Proof. by intros s. Qed.

Lemma kc_lift {A} (r : res A) : keeps_committed (lift r).
Proof. by intros s. Qed.

Lemma kc_bind {A B} (m : M session A) (k : A → M session B) :
  keeps_committed m → (∀ a, keeps_committed (k a)) →
  keeps_committed (m ≫= k).
Proof.
  intros Hm Hk s. unfold_M. specialize (Hm s).
  destruct (m s) as [[a|e] s']; simpl in *; [|done].
  by rewrite Hk.
Qed.

Lemma kc_flush : keeps_committed flush.
Proof. intros s. unfold flush. by destruct (integrity_ok _). Qed.

Lemma kc_query t id : keeps_committed (query_first t id).
Proof. apply kc_bind; [apply kc_flush|]. by intros _ s. Qed.

Lemma kc_set_working f : keeps_committed (modify (set_working f)).
Proof. by intros s. Qed.

Lemma kc_for_each {A} (body : counts → A → M session counts) l c :
  (∀ c x, keeps_committed (body c x)) → keeps_committed (for_each body l c).
Proof.
  intros Hb. revert c. induction l as [|x l IH]; intros c; simpl.
  - apply kc_ret.
  - apply kc_bind; auto.
Qed.

Ltac kc :=
  repeat first
    [ apply kc_ret | apply kc_lift | apply kc_query | apply kc_set_working
    | apply kc_bind; [|intros; cbv zeta]
    | match goal with
      | |- keeps_committed (match ?x with _ => _ end) => destruct x
      end ].

Lemma kc_process_market event_id c market_data :
  keeps_committed (process_market event_id c market_data).
Proof. unfold process_market, session_add, session_update. kc. Qed.

Lemma kc_process_event c event_data :
  keeps_committed (process_event c event_data).
Proof.
  unfold process_event, session_add, session_update. kc.
  apply kc_for_each. intros. apply kc_process_market.
Qed.

(** The loop of [populate_database] never touches the committed store. *)
Lemma kc_process_events events_data c :
  keeps_committed (for_each process_event events_data c).
Proof. apply kc_for_each. intros. apply kc_process_event. Qed.

(** *** One write *)

Lemma upsert_union w db :
  write_ok w →
  upsert w db
  = <[write_key w := public_attrs (write_obj w) ∪ default ∅ (db !! write_key w)]> db.
Proof.
  intros [Hk _]. unfold upsert. f_equal.
  destruct (db !! write_key w) as [r|]; simpl.
  - apply setattrs_union.
  - rewrite columns_public, (right_id_L ∅ (∪)); [done|].
    rewrite Hk. apply object_keys_NoDup.
Qed.

Lemma do_write_run c w s :
  write_ok w →
  do_write c w s
  = if integrity_ok (working s)
    then (Ok (count_write (write_key w).1
                          (bool_decide (is_Some (working s !! write_key w))) c),
          set_working (upsert w) s)
    else (Raise IntegrityError, s).
Proof.
  destruct w as [[t id] obj]. intros [_ Hpk]. simpl in Hpk.
  unfold do_write, query_first, flush, session_add, session_update, upsert.
  unfold_M. simpl. destruct (integrity_ok (working s)); [|done].
  destruct (working s !! (t, id)) as [r|] eqn:E; simpl.
  - unfold set_working. by rewrite E.
  - unfold set_working. by rewrite Hpk, E.
Qed.

Lemma do_writes_run ws c s :
  Forall write_ok ws → flushes_ok ws (working s) = true →
  for_each do_write ws c s
  = (Ok (tally ws (working s) c), set_working (apply_writes ws) s).
Proof.
  intros Hok. revert c s.
  induction Hok as [|w ws Hw _ IH]; intros c s Hf; simpl in *.
  - by destruct s.
  - apply andb_true_iff in Hf as [Hi Hf]. unfold_M.
    rewrite (do_write_run _ _ _ Hw), Hi.
    change (mbind ?k ?m) with (bind m k) in IH. unfold bind in IH.
    by rewrite IH.
Qed.

Lemma do_writes_ok ws c s c' s' :
  Forall write_ok ws → for_each do_write ws c s = (Ok c', s') →
  flushes_ok ws (working s) = true.
Proof.
  intros Hok. revert c s.
  induction Hok as [|w ws Hw _ IH]; intros c s; simpl; [done|].
  unfold_M. rewrite (do_write_run _ _ _ Hw).
  destruct (integrity_ok (working s)); [|done]. simpl.
  intros H. by apply IH in H.
Qed.

End SessionTheory.

(** ** The loops of [populate_database] as a list of writes *)

Section PlanTheory.
Context {R : PyRuntime}.
Implicit Types (s : session) (c : counts) (w : write) (ws : list write).

Lemma create_event_pk event_data id obj :
  py_get event_data "id" VNone = Ok id →
  create_event_from_api event_data = Ok obj →
  primary_key obj = py_str id.
Proof.
  intros Hid. unfold create_event_from_api. unfold_M.
  destruct (map_fields _ _) as [kvs|] eqn:E; [|done]. intros [= <-].
  apply map_fields_Forall2 in E. unfold event_fields in E.
  inversion E as [|f kv fs kvs' Hf _]; subst. simpl in Hf. unfold_M.
  rewrite Hid in Hf. by injection Hf as <-.
Qed.

Lemma create_market_pk market_data event_id id obj :
  py_get market_data "id" VNone = Ok id →
  create_market_from_api market_data event_id = Ok obj →
  primary_key obj = py_str id.
Proof.
  intros Hid. unfold create_market_from_api. unfold_M.
  destruct (map_fields _ _) as [kvs|] eqn:E; [|done]. intros [= <-].
  apply map_fields_Forall2 in E. unfold market_fields in E.
  inversion E as [|f kv fs kvs' Hf _]; subst. simpl in Hf. unfold_M.
  rewrite Hid in Hf. by injection Hf as <-.
Qed.

Lemma market_write_ok event_id market_data w :
  market_write event_id market_data = Ok w →
  write_ok w ∧ write_key w = (Markets, record_id market_data).
Proof.
  unfold market_write, record_id. unfold_M.
  destruct (py_get market_data "id" VNone) as [id|] eqn:Hid; [|done].
  destruct (create_market_from_api _ _) as [obj|] eqn:Hobj; [|done].
  intros [= <-]. split; [split|done]; simpl.
  - by eapply create_market_keys.
  - by eapply create_market_pk.
Qed.

Lemma process_market_write event_id c market_data s w :
  market_write event_id market_data = Ok w →
  process_market event_id c market_data s = do_write c w s.
Proof.
  unfold market_write, process_market, do_write. unfold_M.
  destruct (py_get market_data "id" VNone) as [id|]; [|done].
  destruct (create_market_from_api _ _) as [obj|]; [|done].
  intros [= <-]. destruct (query_first _ _ s) as [[[r|]|e] s']; done.
Qed.

Lemma process_market_raise event_id c market_data s e :
  market_write event_id market_data = Raise e →
  raises (process_market event_id c market_data) s.
Proof.
  unfold market_write, process_market, raises. unfold_M.
  destruct (py_get market_data "id" VNone) as [id|]; [|by eauto].
  destruct (create_market_from_api _ _) as [obj|]; [done|]. intros _.
  destruct (query_first _ _ s) as [[[r|]|e'] s']; eauto.
Qed.

Lemma map_res_Forall2 {A B} (f : A → res B) l ys :
  map_res f l = Ok ys → Forall2 (λ x y, f x = Ok y) l ys.
Proof.
  revert ys. induction l as [|x l IH]; intros ys; simpl.
  - intros [= <-]. constructor.
  - unfold_M. destruct (f x) as [y|] eqn:E; [|done].
    destruct (map_res f l) as [ys'|]; [|done].
    intros [= <-]. constructor; auto.
Qed.

Lemma process_markets_write event_id markets mws c s :
  map_res (market_write event_id) markets = Ok mws →
  for_each (process_market event_id) markets c s = for_each do_write mws c s.
Proof.
  intros H%map_res_Forall2. revert c s.
  induction H as [|md w markets mws Hw _ IH]; intros c s; [done|].
  simpl. unfold_M. rewrite (process_market_write _ _ _ _ _ Hw).
  destruct (do_write c w s) as [[c'|e] s']; [|done]. apply IH.
Qed.

Lemma process_markets_raise event_id markets e c s :
  map_res (market_write event_id) markets = Raise e →
  raises (for_each (process_market event_id) markets c) s.
Proof.
  unfold raises.
  revert c s. induction markets as [|md markets IH]; intros c s; simpl; [done|].
  unfold_M. destruct (market_write event_id md) as [w|e1] eqn:Hw.
  - rewrite (process_market_write _ _ _ _ _ Hw).
    destruct (map_res _ markets) as [mws|e2] eqn:Hm; [done|]. intros [= ->].
    destruct (do_write c w s) as [[c'|e3] s']; [|by eexists _, _].
    by apply IH.
  - intros _. destruct (process_market_raise _ c _ s _ Hw) as (e' & s' & ->).
    by eexists _, _.
Qed.

Lemma event_writes_ok event_data ws :
  event_writes event_data = Ok ws → Forall write_ok ws.
Proof.
  unfold event_writes. unfold_M.
  destruct (py_get event_data "id" VNone) as [id|] eqn:Hid; [|done].
  destruct (create_event_from_api _) as [obj|] eqn:Hobj; [|done].
  destruct (py_get event_data "markets" _) as [md|]; [|done].
  destruct (py_iter md) as [markets|]; [|done].
  destruct (map_res _ markets) as [mws|] eqn:Hm; [|done].
  intros [= <-]. constructor.
  - split; simpl; [by eapply create_event_keys|by eapply create_event_pk].
  - apply map_res_Forall2 in Hm. clear -Hm.
    induction Hm as [|md' w ms mws Hw _ IH]; constructor; [|done].
    by apply market_write_ok in Hw as [? _].
Qed.

Lemma process_event_write c event_data s ws :
  event_writes event_data = Ok ws →
  process_event c event_data s = for_each do_write ws c s.
Proof.
  unfold event_writes, process_event. unfold_M.
  destruct (py_get event_data "id" VNone) as [id|]; [|done].
  destruct (create_event_from_api _) as [obj|]; [|done].
  destruct (py_get event_data "markets" _) as [md|]; [|done].
  destruct (py_iter md) as [markets|]; [|done].
  destruct (map_res _ markets) as [mws|] eqn:Hm; [|done].
  intros [= <-]. simpl. unfold do_write. unfold_M.
  destruct (query_first _ _ s) as [[[r|]|e] s']; [| |done].
  - simpl. unfold session_update. unfold_M.
    apply (process_markets_write _ _ _ _ _ Hm).
  - simpl. unfold session_add. unfold_M.
    apply (process_markets_write _ _ _ _ _ Hm).
Qed.

Lemma process_event_raise c event_data s e :
  event_writes event_data = Raise e → raises (process_event c event_data) s.
Proof.
  unfold event_writes, process_event, raises. unfold_M.
  destruct (py_get event_data "id" VNone) as [id|]; [|by eauto].
  destruct (query_first _ _ s) as [[o|e'] s']; [|by eauto].
  destruct (create_event_from_api _) as [obj|].
  2:{ destruct o; eauto. }
  destruct (py_get event_data "markets" _) as [md|].
  2:{ destruct o; simpl; eauto. }
  destruct (py_iter md) as [markets|].
  2:{ destruct o; simpl; eauto. }
  destruct (map_res _ markets) as [mws|e2] eqn:Hm; [done|]. intros _.
  destruct o; simpl; eapply process_markets_raise, Hm.
Qed.

Lemma for_each_app {A} (body : counts → A → M session counts) l1 l2 c s :
  for_each body (l1 ++ l2) c s
  = match for_each body l1 c s with
    | (Ok c', s') => for_each body l2 c' s'
    | (Raise e, s') => (Raise e, s')
    end.
Proof.
  revert c s. induction l1 as [|x l1 IH]; intros c s; simpl; [done|].
  unfold_M. destruct (body c x s) as [[c'|e] s']; [|done]. apply IH.
Qed.

Lemma batch_writes_ok events_data ws :
  batch_writes events_data = Ok ws → Forall write_ok ws.
Proof.
  unfold batch_writes. unfold_M.
  destruct (map_res _ _) as [wss|] eqn:E; [|done]. intros [= <-].
  apply map_res_Forall2 in E. apply Forall_concat.
  induction E as [|ev ws' evs wss Hw _ IH]; constructor; [|done].
  by eapply event_writes_ok.
Qed.

(** When every record maps, the outer loop is the query-then-write step
    run over the writes of the batch. *)
Lemma process_events_write events_data ws c s :
  batch_writes events_data = Ok ws →
  for_each process_event events_data c s = for_each do_write ws c s.
Proof.
  unfold batch_writes. unfold_M.
  destruct (map_res _ _) as [wss|] eqn:E; [|done]. intros [= <-].
  apply map_res_Forall2 in E. revert c s.
  induction E as [|ev ws' evs wss Hw _ IH]; intros c s; [done|].
  simpl. unfold_M. rewrite for_each_app, (process_event_write _ _ _ _ Hw).
  destruct (for_each do_write ws' c s) as [[c'|e] s']; [|done]. apply IH.
Qed.

(** When some record does not map, the loop raises. *)
Lemma process_events_raise events_data e c s :
  batch_writes events_data = Raise e →
  raises (for_each process_event events_data c) s.
Proof.
  unfold batch_writes. unfold_M.
  destruct (map_res _ _) as [wss|e'] eqn:E; [done|]. intros _.
  unfold raises.
  revert c s. induction events_data as [|ev evs IH]; intros c s; [done|].
  simpl in *. unfold_M.
  destruct (event_writes ev) as [ws'|e1] eqn:Hw.
  - rewrite (process_event_write _ _ _ _ Hw).
    destruct (map_res _ evs) as [wss|e2]; [done|]. injection E as ->.
    destruct (for_each do_write ws' c s) as [[c'|e3] s']; [|by eexists _, _].
    by apply IH.
  - destruct (process_event_raise c _ s _ Hw) as (e3 & s' & ->).
    by eexists _, _.
Qed.

End PlanTheory.

(** ** The algebra of writes *)

Section WriteTheory.
Context {R : PyRuntime}.
Implicit Types (w : write) (ws : list write) (c : counts).
Implicit Types (db : gmap (table * string) (gmap string pyval)).

Lemma apply_writes_cons w ws db :
  apply_writes (w :: ws) db = apply_writes ws (upsert w db).
Proof. reflexivity. Qed.

Lemma last_write_in k ws obj :
  last_write k ws = Some obj → ∃ w, w ∈ ws ∧ write_key w = k ∧ write_obj w = obj.
Proof.
  induction ws as [|w ws IH]; simpl; [done|].
  destruct (last_write k ws) as [obj'|].
  - intros [= ->]. destruct IH as (w' & ? & ? & ?); [done|].
    exists w'. split; [by right|done].
  - case_decide; [|done]. intros [= <-]. exists w. split; [by left|done].
Qed.

Lemma last_write_None k ws :
  last_write k ws = None ↔ k ∉ write_key <$> ws.
Proof.
  induction ws as [|w ws IH]; simpl.
  - split; [intros _; apply not_elem_of_nil|done].
  - rewrite not_elem_of_cons, <-IH.
    destruct (last_write k ws); destruct (decide (write_key w = k));
      intuition congruence.
Qed.

(** The row a batch of writes leaves under a key: the public attributes of
    the last object written there, over what the row held before. *)
Lemma apply_writes_lookup ws db k :
  Forall write_ok ws →
  apply_writes ws db !! k
  = match last_write k ws with
    | Some obj => Some (public_attrs obj ∪ default ∅ (db !! k))
    | None => db !! k
    end.
Proof.
  intros Hok. revert db. induction Hok as [|w ws Hw Hws IH]; intros db; [done|].
  rewrite apply_writes_cons, IH. simpl. rewrite (upsert_union _ _ Hw).
  destruct (last_write k ws) as [obj|] eqn:El.
  - f_equal. destruct (decide (write_key w = k)) as [<-|Hne].
    + rewrite lookup_insert_eq. simpl.
      apply last_write_in in El as (w' & Hin & Hk' & <-).
      rewrite Forall_forall in Hws. destruct (Hws _ Hin) as [Hkeys' _].
      destruct Hw as [Hkeys _].
      apply public_attrs_absorb. by rewrite Hkeys, Hkeys', Hk'.
    + by rewrite lookup_insert_ne.
  - case_decide as Hk.
    + subst k. by rewrite lookup_insert_eq.
    + by rewrite lookup_insert_ne.
Qed.

(** Applying the same writes a second time changes nothing. *)
Lemma apply_writes_idemp ws db :
  Forall write_ok ws →
  apply_writes ws (apply_writes ws db) = apply_writes ws db.
Proof.
  intros Hok. apply map_eq. intros k.
  rewrite (apply_writes_lookup ws (apply_writes ws db)) by done.
  rewrite (apply_writes_lookup ws db) by done.
  destruct (last_write k ws) as [obj|]; [|done].
  simpl. by rewrite public_attrs_idemp.
Qed.

Lemma apply_writes_other ws db k :
  Forall write_ok ws → k ∉ write_key <$> ws →
  apply_writes ws db !! k = db !! k.
Proof.
  intros Hok Hk. rewrite apply_writes_lookup by done.
  apply last_write_None in Hk. by rewrite Hk.
Qed.

Lemma apply_writes_is_Some ws db k :
  Forall write_ok ws → k ∈ write_key <$> ws ∨ is_Some (db !! k) →
  is_Some (apply_writes ws db !! k).
Proof.
  intros Hok Hk. rewrite apply_writes_lookup by done.
  destruct (last_write k ws) eqn:El; [by eauto|].
  apply last_write_None in El. destruct Hk; [done|done].
Qed.

(** A write that is the only one to its key is a no-op on the state the
    whole batch left. *)
Lemma upsert_after_apply w ws db :
  Forall write_ok ws → w ∈ ws → NoDup (write_key <$> ws) →
  upsert w (apply_writes ws db) = apply_writes ws db.
Proof.
  intros Hok Hin Hnd.
  assert (write_ok w) as Hw by (by eapply Forall_forall in Hok).
  rewrite (upsert_union _ _ Hw). apply insert_id.
  rewrite !apply_writes_lookup by done.
  destruct (last_write (write_key w) ws) as [obj|] eqn:El.
  - apply last_write_in in El as (w' & Hin' & Hk' & <-).
    assert (w' = w) as ->.
    { apply list_elem_of_lookup in Hin as [i Hi].
      apply list_elem_of_lookup in Hin' as [j Hj].
      assert (i = j) as ->; [|congruence].
      eapply NoDup_lookup; [done| |];
        rewrite list_lookup_fmap; [by rewrite Hi|by rewrite Hj, <-Hk']. }
    simpl. by rewrite public_attrs_idemp.
  - apply last_write_None in El. destruct El.
    by apply list_elem_of_fmap_2.
Qed.

Lemma flushes_ok_stable ws ws' db :
  Forall write_ok ws → NoDup (write_key <$> ws) → ws' ⊆ ws →
  integrity_ok (apply_writes ws db) = true →
  flushes_ok ws' (apply_writes ws db) = true.
Proof.
  intros Hok Hnd Hsub Hi. induction ws' as [|w ws' IH]; [done|].
  simpl. rewrite Hi. simpl.
  rewrite upsert_after_apply by (done || apply Hsub; by left).
  apply IH. intros x Hx. apply Hsub. by right.
Qed.

Lemma upsert_is_Some w db k :
  is_Some (db !! k) → is_Some (upsert w db !! k).
Proof.
  intros H. unfold upsert. apply lookup_insert_is_Some'. by right.
Qed.

(** When every row is already there, every write counts as an update. *)
Lemma tally_present ws db c :
  (∀ w, w ∈ ws → is_Some (db !! write_key w)) →
  tally ws db c = fold_left (λ c w, count_write (write_key w).1 true c) ws c.
Proof.
  revert db c. induction ws as [|w ws IH]; intros db c Hin; [done|].
  simpl. rewrite bool_decide_true by (apply Hin; by left).
  apply IH. intros w' Hw'. apply upsert_is_Some, Hin. by right.
Qed.

End WriteTheory.

(** ** [populate_database] *)

Section PopulateTheory.
Context {R : PyRuntime}.
Implicit Types (w : write) (ws : list write) (c : counts).
Implicit Types (db store : gmap (table * string) (gmap string pyval)).

Lemma event_writes_keys event_data ws :
  event_writes event_data = Ok ws → write_key <$> ws = event_keys event_data.
Proof.
  unfold event_writes, event_keys, record_id, markets_of. unfold_M.
  destruct (py_get event_data "id" VNone) as [id|]; [|done].
  destruct (create_event_from_api _) as [obj|]; [|done].
  destruct (py_get event_data "markets" _) as [md|]; [|done].
  destruct (py_iter md) as [markets|]; [|done].
  destruct (map_res _ markets) as [mws|] eqn:Hm; [|done].
  intros [= <-]. rewrite fmap_cons. f_equal.
  apply map_res_Forall2 in Hm.
  induction Hm as [|md' w ms mws Hw _ IH]; [done|].
  rewrite !fmap_cons, IH. f_equal. by apply market_write_ok in Hw as [_ ?].
Qed.

Lemma batch_writes_keys events_data ws :
  batch_writes events_data = Ok ws →
  write_key <$> ws = concat (event_keys <$> events_data).
Proof.
  unfold batch_writes. unfold_M.
  destruct (map_res _ _) as [wss|] eqn:E; [|done]. intros [= <-].
  apply map_res_Forall2 in E.
  induction E as [|ev ws' evs wss Hw _ IH]; [done|].
  rewrite fmap_cons. simpl. rewrite fmap_app, IH.
  by rewrite (event_writes_keys _ _ Hw).
Qed.

Lemma batch_keys_eq events_data ws :
  batch_writes events_data = Ok ws →
  batch_keys events_data = concat (event_keys <$> events_data).
Proof.
  intros H. unfold batch_keys. rewrite H. by apply batch_writes_keys.
Qed.

Lemma keys_in_app t ks1 ks2 :
  keys_in t (ks1 ++ ks2) = (keys_in t ks1 + keys_in t ks2)%nat.
Proof. unfold keys_in. by rewrite filter_app, length_app. Qed.

Lemma keys_in_markets (f : pyval → string) t (l : list pyval) :
  keys_in t ((λ md, (Markets, f md)) <$> l)
  = match t with Events => 0%nat | Markets => length l end.
Proof.
  unfold keys_in. induction l as [|x l IH]; [by destruct t|].
  rewrite fmap_cons, filter_cons. simpl.
  destruct t; case_decide; try done; simpl; by rewrite IH.
Qed.

Lemma keys_in_cons t k ks :
  keys_in t (k :: ks)
  = ((if decide (k.1 = t) then 1 else 0) + keys_in t ks)%nat.
Proof. unfold keys_in. rewrite filter_cons. by case_decide. Qed.

Lemma total_markets_cons ev evs :
  total_markets (ev :: evs)
  = (length (markets_of ev) + total_markets evs)%nat.
Proof. reflexivity. Qed.

Lemma keys_in_batch events_data :
  keys_in Events (concat (event_keys <$> events_data)) = length events_data
  ∧ keys_in Markets (concat (event_keys <$> events_data))
    = total_markets events_data.
Proof.
  induction events_data as [|ev evs [IH1 IH2]]; [done|].
  rewrite fmap_cons, total_markets_cons. cbn [concat].
  rewrite !keys_in_app, IH1, IH2. unfold event_keys.
  rewrite !keys_in_cons, !keys_in_markets. simpl.
  done.
Qed.

Lemma tally_sums ws db c :
  let c' := tally ws db c in
  (events_added c' + events_updated c'
   = events_added c + events_updated c + keys_in Events (write_key <$> ws))%nat
  ∧ (markets_added c' + markets_updated c'
     = markets_added c + markets_updated c
       + keys_in Markets (write_key <$> ws))%nat.
Proof.
  simpl. revert db c. induction ws as [|w ws IH]; intros db c.
  - simpl. unfold keys_in. simpl. lia.
  - simpl tally. destruct (IH (upsert w db)
      (count_write (write_key w).1
         (bool_decide (is_Some (db !! write_key w))) c)) as [-> ->].
    rewrite fmap_cons. unfold keys_in. rewrite !filter_cons.
    destruct (write_key w) as [[] id]; destruct (bool_decide _); simpl; lia.
Qed.

Lemma fold_updates ws c :
  fold_left (λ c w, count_write (write_key w).1 true c) ws c
  = {| events_added := events_added c;
       events_updated := events_updated c + keys_in Events (write_key <$> ws);
       markets_added := markets_added c;
       markets_updated := markets_updated c
                          + keys_in Markets (write_key <$> ws) |}.
Proof.
  revert c. induction ws as [|w ws IH]; intros c.
  - destruct c. unfold keys_in. simpl. f_equal; lia.
  - simpl fold_left. rewrite IH, fmap_cons. unfold keys_in.
    rewrite !filter_cons.
    destruct (write_key w) as [[] id]; simpl; f_equal; lia.
Qed.

(** *** What a pass does *)

Lemma do_writes_refused ws c s :
  Forall write_ok ws → flushes_ok ws (working s) = false →
  (for_each do_write ws c s).1 = Raise IntegrityError.
Proof.
  intros Hok. revert c s.
  induction Hok as [|w ws Hw _ IH]; intros c s; simpl; [done|].
  unfold_M. rewrite (do_write_run _ _ _ Hw).
  destruct (integrity_ok (working s)); [|done]. simpl.
  intros Hf. apply (IH _ (set_working (upsert w) s) Hf).
Qed.

Lemma populate_try_run events_data ws s :
  batch_writes events_data = Ok ws →
  if flushes_ok ws (working s) && integrity_ok (apply_writes ws (working s))
  then populate_try events_data s
       = (Ok (tally ws (working s) no_counts),
          {| committed := apply_writes ws (working s);
             working := apply_writes ws (working s) |})
  else (populate_try events_data s).1 = Raise IntegrityError.
Proof.
  intros Hb. pose proof (batch_writes_ok _ _ Hb) as Hok.
  unfold populate_try, commit, flush. unfold_M.
  rewrite (process_events_write _ _ _ _ Hb).
  destruct (flushes_ok ws (working s)) eqn:Hf; simpl.
  - rewrite (do_writes_run _ _ _ Hok Hf). simpl.
    by destruct (integrity_ok _).
  - pose proof (do_writes_refused _ no_counts _ Hok Hf) as Hr.
    destruct (for_each do_write ws no_counts s) as [[c'|e] s']; [done|].
    simpl in *. by rewrite Hr.
Qed.

Lemma populate_try_raise events_data e s :
  batch_writes events_data = Raise e → raises (populate_try events_data) s.
Proof.
  intros Hb. unfold populate_try, raises. unfold_M.
  destruct (process_events_raise _ _ no_counts s Hb) as (e' & s' & ->).
  eauto.
Qed.

(** A pass that completes is the writes of the batch applied to the store,
    every flush having passed. *)
Lemma populate_database_ok events_data store c store' :
  populate_database events_data store = (Ok c, store') →
  ∃ ws, batch_writes events_data = Ok ws
        ∧ flushes_ok ws store = true
        ∧ integrity_ok (apply_writes ws store) = true
        ∧ store' = apply_writes ws store
        ∧ c = tally ws store no_counts.
Proof.
  unfold populate_database.
  destruct (batch_writes events_data) as [ws|e] eqn:Hb.
  - pose proof (populate_try_run _ _
      {| committed := store; working := store |} Hb) as Hrun. simpl in Hrun.
    destruct (flushes_ok ws store) eqn:Hf; simpl in Hrun.
    + destruct (integrity_ok _) eqn:Hi.
      * rewrite Hrun. intros [= <- <-]. by exists ws.
      * destruct (populate_try _ _) as [[c'|e] s']; [done|]. done.
    + destruct (populate_try _ _) as [[c'|e] s']; [done|]. done.
  - destruct (populate_try_raise _ _
      {| committed := store; working := store |} Hb) as (e' & s' & ->). done.
Qed.

Lemma populate_database_run events_data store ws :
  batch_writes events_data = Ok ws →
  flushes_ok ws store = true →
  integrity_ok (apply_writes ws store) = true →
  populate_database events_data store
  = (Ok (tally ws store no_counts), apply_writes ws store).
Proof.
  intros Hb Hf Hi. unfold populate_database.
  pose proof (populate_try_run _ _
    {| committed := store; working := store |} Hb) as Hrun. simpl in Hrun.
  rewrite Hf, Hi in Hrun. simpl in Hrun. by rewrite Hrun.
Qed.

Lemma populate_try_committed events_data s :
  match populate_try events_data s with
  | (Ok _, s') => committed s' = working (for_each process_event events_data no_counts s).2
  | (Raise _, s') => committed s' = committed s
  end.
Proof.
  unfold populate_try, commit, flush. unfold_M.
  pose proof (kc_process_events events_data no_counts s) as Hkc.
  destruct (for_each process_event events_data no_counts s) as [[c|e] s'];
    simpl in *; [|done].
  by destruct (integrity_ok (working s')).
Qed.

Lemma populate_database_raise events_data store e store' :
  populate_database events_data store = (Raise e, store') → store' = store.
Proof.
  unfold populate_database.
  pose proof (populate_try_committed events_data
                {| committed := store; working := store |}) as H.
  destruct (populate_try _ _) as [[c|e'] s']; [done|].
  intros [= _ <-]. done.
Qed.

End PopulateTheory.

(** ** Reconciliation: atomicity, counts, overwrite, idempotence *)

Section ReconcileTheory.
Context {R : PyRuntime}.
Implicit Types (w : write) (ws : list write) (c : counts) (s : session).
Implicit Types (db store : gmap (table * string) (gmap string pyval)).

Lemma elem_of_concat {A} (x : A) (ls : list (list A)) :
  x ∈ concat ls ↔ ∃ l, l ∈ ls ∧ x ∈ l.
Proof.
  rewrite list_elem_of_In, in_concat. split.
  - intros (l & Hl & Hx). exists l. by rewrite !list_elem_of_In.
  - intros (l & Hl & Hx). exists l. by rewrite <-!list_elem_of_In.
Qed.

(** C3. When [populate_database] raises, the store is as it was before the
    call, whatever had been written in the session, and the exception is
    the one the [try] block raised.  It raises whenever a record of the
    batch does not map and whenever a flush is refused.  The loop never
    changes the committed store; when the call completes, the store is the
    session's view after the whole loop. *)
Theorem populate_database_atomic events_data store :
  let session := {| committed := store; working := store |} in
  (∀ e store', populate_database events_data store = (Raise e, store') →
     store' = store ∧ (populate_try events_data session).1 = Raise e)
  ∧ (∀ e, batch_writes events_data = Raise e →
       ∃ e', populate_database events_data store = (Raise e', store))
  ∧ (∀ ws, batch_writes events_data = Ok ws →
       flushes_ok ws store && integrity_ok (apply_writes ws store) = false →
       populate_database events_data store = (Raise IntegrityError, store))
  ∧ (∀ prefix c s,
       committed (for_each process_event prefix c s).2 = committed s)
  ∧ (∀ c store', populate_database events_data store = (Ok c, store') →
       store' = working (for_each process_event events_data no_counts session).2).
Proof.
  intros session. repeat split.
  - by eapply populate_database_raise.
  - revert H. unfold populate_database. fold session.
    destruct (populate_try events_data session) as [[c|e'] s']; [done|].
    by intros [= -> _].
  - intros e Hb.
    destruct (populate_database events_data store) as [[c|e'] store'] eqn:Hrun.
    + apply populate_database_ok in Hrun as (ws & Hws & _). congruence.
    + apply populate_database_raise in Hrun as Heq. subst. eauto.
  - intros ws Hb Hbad. unfold populate_database. fold session.
    pose proof (populate_try_run _ _ session Hb) as Hrun. simpl in Hrun.
    rewrite Hbad in Hrun.
    pose proof (populate_try_committed events_data session) as Hc.
    destruct (populate_try events_data session) as [[c|e'] s']; [done|].
    simpl in *. injection Hrun as ->. by rewrite Hc.
  - intros prefix c s. apply kc_process_events.
  - intros c store'. unfold populate_database. fold session.
    pose proof (populate_try_committed events_data session) as Hc.
    destruct (populate_try events_data session) as [[c'|e'] s']; [|done].
    by intros [= _ <-].
Qed.

Lemma length_batch_keys (events_data : list pyval) :
  length (concat (event_keys <$> events_data))
  = (length events_data + total_markets events_data)%nat.
Proof.
  induction events_data as [|ev evs IH]; [done|].
  rewrite fmap_cons, total_markets_cons. cbn [concat].
  rewrite length_app, IH. unfold event_keys. simpl. rewrite length_fmap. lia.
Qed.

(** C4, as the code has it.  A pass that completes counted every event of
    the batch once and every nested market record once: with [N] markets
    under one event, the event adds 1 to [events_added + events_updated]
    and [N] to [markets_added + markets_updated].  The keys written are,
    event by event, the event's own and one per nested market record; each
    of them has a row afterwards, so an event without markets has its row
    all the same; no other row of the store changed.  When the [N] records
    of an event carry [N] different ids these are [1 + N] different rows;
    records that share an id share a row. *)
Theorem populate_database_counts events_data store c store' :
  populate_database events_data store = (Ok c, store') →
  (events_added c + events_updated c = length events_data)%nat
  ∧ (markets_added c + markets_updated c = total_markets events_data)%nat
  ∧ batch_keys events_data = concat (event_keys <$> events_data)
  ∧ length (batch_keys events_data)
    = (length events_data + total_markets events_data)%nat
  ∧ (∀ event_data, event_data ∈ events_data →
       is_Some (store' !! (Events, record_id event_data))
       ∧ ∀ market_data, market_data ∈ markets_of event_data →
           is_Some (store' !! (Markets, record_id market_data)))
  ∧ (∀ k, k ∉ batch_keys events_data → store' !! k = store !! k)
  ∧ (∀ event_data, event_data ∈ events_data →
       NoDup (record_id <$> markets_of event_data) →
       NoDup (event_keys event_data)
       ∧ length (event_keys event_data)
         = S (length (markets_of event_data))).
Proof.
  intros (ws & Hb & _ & _ & -> & ->)%populate_database_ok.
  pose proof (batch_writes_ok _ _ Hb) as Hok.
  pose proof (batch_writes_keys _ _ Hb) as Hkeys.
  rewrite (batch_keys_eq _ _ Hb).
  destruct (tally_sums ws store no_counts) as [H1 H2]. simpl in H1, H2.
  destruct (keys_in_batch events_data) as [K1 K2].
  rewrite Hkeys in H1, H2.
  split; [by rewrite H1|]. split; [by rewrite H2|]. split; [done|].
  split; [apply length_batch_keys|]. split.
  - intros ev Hev.
    assert (event_keys ev ⊆ write_key <$> ws) as Hsub.
    { rewrite Hkeys. intros k Hk. apply elem_of_concat.
      exists (event_keys ev). split; [|done]. by apply list_elem_of_fmap_2. }
    split.
    + apply apply_writes_is_Some; [done|]. left. apply Hsub. by left.
    + intros md Hmd. apply apply_writes_is_Some; [done|]. left. apply Hsub.
      right. by apply (list_elem_of_fmap_2 (λ md, (Markets, record_id md))).
  - split; [intros k Hk; apply apply_writes_other; [done|]; by rewrite Hkeys|].
    intros ev _ Hids. unfold event_keys. split.
    + constructor.
      * intros Hin. by apply list_elem_of_fmap in Hin as (md & [=] & _).
      * change (λ md : pyval, (Markets, record_id md))
          with (pair Markets ∘ record_id).
        rewrite (list_fmap_compose record_id (pair Markets)).
        by apply (NoDup_fmap_2 (pair Markets)).
    + cbn [length]. by rewrite length_fmap.
Qed.

Lemma event_writes_inv event_data ws :
  event_writes event_data = Ok ws →
  ∃ id obj mws,
    py_get event_data "id" VNone = Ok id
    ∧ create_event_from_api event_data = Ok obj
    ∧ ws = (Events, py_str id, obj) :: mws
    ∧ Forall (λ w, (write_key w).1 = Markets) mws.
Proof.
  intros Hw. pose proof (event_writes_keys _ _ Hw) as Hk. revert Hw Hk.
  unfold event_writes, event_keys. unfold_M.
  destruct (py_get event_data "id" VNone) as [id|]; [|done].
  destruct (create_event_from_api _) as [obj|]; [|done].
  destruct (py_get event_data "markets" _) as [md|]; [|done].
  destruct (py_iter md) as [markets|]; [|done].
  destruct (map_res _ markets) as [mws|]; [|done].
  intros [= <-]. rewrite fmap_cons. intros [= _ Hk].
  exists id, obj, mws. repeat split.
  apply Forall_forall. intros w Hin.
  apply (list_elem_of_fmap_2 write_key) in Hin. rewrite Hk in Hin.
  apply list_elem_of_fmap in Hin as (md' & -> & _). done.
Qed.

Lemma tally_markets_only ws db c :
  Forall (λ w, (write_key w).1 = Markets) ws →
  events_added (tally ws db c) = events_added c
  ∧ events_updated (tally ws db c) = events_updated c.
Proof.
  intros H. revert db c. induction H as [|w ws Hw _ IH]; intros db c; [done|].
  simpl. destruct (IH (upsert w db)
    (count_write (write_key w).1
       (bool_decide (is_Some (db !! write_key w))) c)) as [-> ->].
  rewrite Hw. by destruct (bool_decide _).
Qed.

Lemma create_market_event_id market_data event_id obj :
  create_market_from_api market_data event_id = Ok obj →
  ("event_id", VStr event_id) ∈ obj.
Proof.
  unfold create_market_from_api. unfold_M.
  destruct (map_fields _ _) as [kvs|] eqn:E; [|done]. intros [= <-].
  apply map_fields_Forall2 in E. unfold market_fields in E.
  inversion E as [|f kv fs kvs' _ E']; subst.
  inversion E' as [|f' kv' fs' kvs'' Hf _]; subst.
  simpl in Hf. injection Hf as <-. right. right. by left.
Qed.

(** C9. When the row is found, the update leaves on it exactly what the
    attribute loop writes from the freshly mapped object: every public
    attribute of the object, which are all the columns of the table, has
    the object's value afterwards (for a market, [event_id] is the id of
    the event whose payload carries it), and the record counts as
    updated. *)
Theorem update_overwrites_every_attribute c s c' s' existing :
  (∀ event_data,
     process_event c event_data s = (Ok c', s') →
     working s !! (Events, record_id event_data) = Some existing →
     ∃ obj, create_event_from_api event_data = Ok obj
       ∧ obj.*1 = "_sa_instance_state" :: event_columns.*1
       ∧ working s' !! (Events, record_id event_data)
         = Some (setattrs obj existing)
       ∧ (∀ k v, (k, v) ∈ obj → startswith_underscore k = false →
            setattrs obj existing !! k = Some v)
       ∧ events_updated c' = S (events_updated c)
       ∧ events_added c' = events_added c)
  ∧ (∀ event_id market_data,
       process_market event_id c market_data s = (Ok c', s') →
       working s !! (Markets, record_id market_data) = Some existing →
       ∃ obj, create_market_from_api market_data event_id = Ok obj
         ∧ obj.*1 = "_sa_instance_state" :: market_columns.*1
         ∧ working s' !! (Markets, record_id market_data)
           = Some (setattrs obj existing)
         ∧ (∀ k v, (k, v) ∈ obj → startswith_underscore k = false →
              setattrs obj existing !! k = Some v)
         ∧ setattrs obj existing !! "event_id" = Some (VStr event_id)
         ∧ c' = market_updated c).
Proof.
  split.
  - intros ev Hrun Hex.
    destruct (event_writes ev) as [ws|e] eqn:Hw.
    2:{ destruct (process_event_raise c _ s _ Hw) as (? & ? & ?). congruence. }
    pose proof (event_writes_ok _ _ Hw) as Hok.
    destruct (event_writes_inv _ _ Hw) as (id & obj & mws & Hid & Hobj & -> & Hm).
    rewrite (process_event_write _ _ _ _ Hw) in Hrun.
    pose proof (do_writes_ok _ _ _ _ _ Hok Hrun) as Hf.
    rewrite (do_writes_run _ _ _ Hok Hf) in Hrun. injection Hrun as <- <-.
    unfold record_id in *. rewrite Hid in *.
    pose proof (create_event_keys _ _ Hobj) as Hkeys.
    assert (NoDup obj.*1) as Hnd by (rewrite Hkeys; apply object_keys_NoDup).
    exists obj. split; [done|]. split; [done|]. split; [|split].
    + unfold set_working. cbn [working].
      change (apply_writes mws (upsert (Events, py_str id, obj) (working s))
              !! (Events, py_str id) = Some (setattrs obj existing)).
      rewrite apply_writes_other.
      * unfold upsert. simpl. by rewrite lookup_insert_eq, Hex.
      * by inversion Hok.
      * intros (w & Hk & Hin)%list_elem_of_fmap.
        rewrite Forall_forall in Hm. specialize (Hm _ Hin).
        by rewrite <-Hk in Hm.
    + intros k v Hin Hk. by apply setattrs_lookup.
    + change (tally ((Events, py_str id, obj) :: mws) (working s) c)
        with (tally mws (upsert (Events, py_str id, obj) (working s))
                (count_write Events
                   (bool_decide (is_Some (working s !! (Events, py_str id))))
                   c)).
      rewrite Hex.
      destruct (tally_markets_only mws
        (upsert (Events, py_str id, obj) (working s))
        (count_write Events (bool_decide (is_Some (Some existing))) c) Hm)
        as [E1 E2].
      split; [exact E2|exact E1].
  - intros eid md Hrun Hex.
    destruct (market_write eid md) as [w|e] eqn:Hw.
    2:{ destruct (process_market_raise eid c _ s _ Hw) as (? & ? & ?).
        congruence. }
    destruct (market_write_ok _ _ _ Hw) as [Hok Hkey].
    rewrite (process_market_write _ _ _ _ _ Hw), (do_write_run _ _ _ Hok) in Hrun.
    destruct (integrity_ok (working s)); [|done]. injection Hrun as <- <-.
    revert Hw. unfold market_write. unfold_M.
    destruct (py_get md "id" VNone) as [id|] eqn:Hid; [|done].
    destruct (create_market_from_api md eid) as [obj|] eqn:Hobj; [|done].
    intros [= <-]. simpl in Hkey. injection Hkey as Hkey.
    pose proof (create_market_keys _ _ _ Hobj) as Hkeys.
    assert (NoDup obj.*1) as Hnd by (rewrite Hkeys; apply object_keys_NoDup).
    exists obj. split; [done|]. split; [done|]. split; [|split; [|split]].
    + simpl. unfold upsert. simpl. rewrite <-Hkey, lookup_insert_eq.
      rewrite Hkey. by rewrite Hex.
    + intros k v Hin Hk. by apply setattrs_lookup.
    + apply setattrs_lookup; [done| |done]. by eapply create_market_event_id.
    + simpl. rewrite <-Hkey in Hex. by rewrite Hex.
Qed.

(** C2, as the code has it.  After a pass that completed, a second pass on
    the same raw event list leaves the store exactly as the first left it,
    whether it completes or is refused, so no row is added and no stored
    attribute differs; when it completes, it counted every event and every
    market as updated and none as added.  It does complete when no key
    occurs twice in the batch. *)
Theorem populate_database_idempotent events_data store c1 store1 :
  populate_database events_data store = (Ok c1, store1) →
  (∀ r store2, populate_database events_data store1 = (r, store2) →
     store2 = store1 ∧ ∀ c2, r = Ok c2 → c2 = all_updated events_data)
  ∧ (NoDup (batch_keys events_data) →
     populate_database events_data store1
     = (Ok (all_updated events_data), store1)).
Proof.
  intros (ws & Hb & Hf & Hi & -> & ->)%populate_database_ok.
  pose proof (batch_writes_ok _ _ Hb) as Hok.
  pose proof (batch_writes_keys _ _ Hb) as Hkeys.
  assert (tally ws (apply_writes ws store) no_counts = all_updated events_data)
    as Htally.
  { rewrite tally_present.
    - rewrite fold_updates, Hkeys.
      destruct (keys_in_batch events_data) as [-> ->]. done.
    - intros w Hin. apply apply_writes_is_Some; [done|]. left.
      by apply list_elem_of_fmap_2. }
  split.
  - intros [c2|e] store2 Hrun.
    + apply populate_database_ok in Hrun as (ws' & Hb' & _ & _ & -> & ->).
      assert (ws' = ws) as -> by congruence.
      rewrite apply_writes_idemp by done. split; [done|].
      intros c2 [= <-]. done.
    + apply populate_database_raise in Hrun. done.
  - intros Hnd. unfold batch_keys in Hnd. rewrite Hb in Hnd.
    rewrite (populate_database_run _ _ ws Hb).
    + by rewrite Htally, apply_writes_idemp.
    + by apply flushes_ok_stable.
    + by rewrite apply_writes_idemp.
Qed.

End ReconcileTheory.

(** ** Field mapping *)

Section MappingTheory.
Context {R : PyRuntime}.

Lemma assoc_get_elem {A} (l : list (string * A)) k v :
  NoDup l.*1 → (k, v) ∈ l → assoc_get k l = Some v.
Proof.
  induction l as [|[k' v'] l IH]; [by intros _ ?%elem_of_nil|].
  rewrite fmap_cons. intros [Hk' Hnd]%NoDup_cons [Heq|Hin]%elem_of_cons; simpl.
  - injection Heq as -> ->. by rewrite String.eqb_refl.
  - destruct (String.eqb_spec k' k) as [->|_]; [|by apply IH].
    destruct Hk'. by apply (list_elem_of_fmap_2 fst) in Hin.
Qed.

Lemma map_field_missing d attr key c :
  assoc_get key d = None →
  map_field (VDict d) (attr, key, c) = (v ← missing_value c; Ok (attr, v)).
Proof.
  intros Hk. destruct c; simpl; unfold_M; by rewrite ?Hk.
Qed.

Lemma map_field_present d attr key dflt v :
  assoc_get key d = Some v →
  map_field (VDict d) (attr, key, Plain dflt) = Ok (attr, v).
Proof. intros Hk. simpl. unfold_M. by rewrite Hk. Qed.

Lemma map_fields_elem data fs kvs f :
  map_fields data fs = Ok kvs → f ∈ fs →
  ∃ kv, map_field data f = Ok kv ∧ kv ∈ kvs.
Proof.
  intros H%map_fields_Forall2 Hin.
  induction H as [|f' kv fs kvs Hf _ IH]; [by apply elem_of_nil in Hin|].
  apply elem_of_cons in Hin as [->|Hin].
  - exists kv. split; [done|by left].
  - destruct (IH Hin) as (kv' & ? & ?). exists kv'. split; [done|by right].
Qed.

Ltac zero_field :=
  let ty := fresh "ty" in let z := fresh "z" in
  let Hty := fresh "Hty" in let Hz := fresh "Hz" in
  intros ty z Hty Hz; cbv in Hty; injection Hty as <-;
  simpl in Hz; try discriminate Hz; injection Hz as <-;
  simpl; rewrite ?float_of_int_0; reflexivity.

(** Field by field: where the column type has a zero value, that is what
    the field maps to when its key is missing. *)
Lemma fields_zero t event_id :
  Forall (λ f, ∀ ty z,
            assoc_get f.1.1 (table_columns t) = Some ty →
            zero_value ty = Some z → missing_value f.2 = Ok z)
         (table_fields t event_id).
Proof.
  destruct t; simpl table_fields; simpl table_columns;
    [unfold event_fields|unfold market_fields];
    repeat (apply Forall_cons; split; [zero_field|]); constructor.
Qed.

Lemma create_from_api_inv t data event_id obj :
  create_from_api t data event_id = Ok obj →
  ∃ kvs, map_fields data (table_fields t event_id) = Ok kvs
         ∧ obj = sa_instance_state :: kvs
         ∧ NoDup obj.*1.
Proof.
  intros H. assert (obj.*1 = object_keys t) as Hk.
  { destruct t; [by eapply create_event_keys|by eapply create_market_keys]. }
  assert (NoDup obj.*1) by (rewrite Hk; apply object_keys_NoDup).
  revert H H0 Hk. destruct t;
    unfold create_from_api, table_fields, create_event_from_api,
      create_market_from_api; unfold_M;
    destruct (map_fields _ _) as [kvs|]; try done; intros [= <-] ? ?;
    by exists kvs.
Qed.

(** C5, as the code has it.  In the object mapped from a raw record, every
    attribute whose column is numeric, boolean or a JSON list and whose key
    is missing from the record holds the zero value of its type (0, 0.0,
    False, the empty list), which is not None.  A key that is present is
    another matter: the attributes read with a plain [get] take the value
    found as it is. *)
Theorem missing_fields_default_to_zero t d event_id obj attr key c :
  create_from_api t (VDict d) event_id = Ok obj →
  (attr, key, c) ∈ table_fields t event_id →
  (∀ ty z, assoc_get key d = None →
           assoc_get attr (table_columns t) = Some ty →
           zero_value ty = Some z →
           assoc_get attr obj = Some z ∧ z ≠ VNone)
  ∧ (∀ dflt v, c = Plain dflt → assoc_get key d = Some v →
               assoc_get attr obj = Some v).
Proof.
  intros (kvs & Hkvs & -> & Hnd)%create_from_api_inv Hin.
  destruct (map_fields_elem _ _ _ _ Hkvs Hin) as (kv & Hkv & Hkvin).
  split.
  - intros ty z Hk Hty Hz.
    pose proof (fields_zero t event_id) as Hzero.
    rewrite Forall_forall in Hzero. specialize (Hzero _ Hin ty z Hty Hz).
    simpl in Hzero. rewrite (map_field_missing _ _ _ _ Hk), Hzero in Hkv.
    injection Hkv as <-. split.
    + apply assoc_get_elem; [done|by right].
    + destruct ty; simpl in Hz; by simplify_eq.
  - intros dflt v -> Hk. rewrite (map_field_present _ _ _ _ _ Hk) in Hkv.
    injection Hkv as <-. apply assoc_get_elem; [done|by right].
Qed.

End MappingTheory.

(** ** Tag search *)



Section QueryTheory.
Context {R : PyRuntime}.
Implicit Types (event : gmap string pyval) (events : list (gmap string pyval)).

(** On a list whose entries are strings, label/slug objects or something
    else altogether, the tag loop does not raise, and it hits exactly when
    the keyword is, case aside, part of a string entry or of the label or
    slug of an object. *)
Lemma tags_match_spec tag_keyword tags :
  Forall (λ tag, is_Some (tag_texts tag)) tags →
  tags_match tag_keyword tags
  = Ok (existsb (λ tag, keyword_hits tag_keyword
                          (default [] (tag_texts tag))) tags).
Proof.
  induction 1 as [|tag tags [texts Ht] _ IH]; [done|].
  cbn [tags_match existsb]. rewrite Ht. simpl.
  destruct tag; simpl in Ht |- *; simplify_eq; simpl; try done.
  - rewrite orb_false_r. by destruct (str_in _ _).
  - unfold_M. unfold keyword_hits.
    destruct (default (VStr "") (assoc_get "label" d)); try done.
    destruct (default (VStr "") (assoc_get "slug" d)); try done.
    injection Ht as <-. simpl. rewrite orb_false_r.
    by destruct (str_in _ _ || str_in _ _).
Qed.

(** The scan returns the matches in scan order and stops at [limit] of
    them, provided [limit] is not yet reached when it starts. *)
Lemma scan_events_spec tag_keyword limit events matching res :
  scan_events tag_keyword limit events matching = Ok res →
  Z.of_nat (length matching) < limit →
  res = matching
        ++ take (Z.to_nat limit - length matching)
                (filter (λ e, event_matches tag_keyword e = Ok true) events).
Proof.
  revert matching. induction events as [|event events IH]; intros matching.
  - intros [= <-] _. by rewrite filter_nil, take_nil, app_nil_r.
  - cbn [scan_events]. unfold_M.
    destruct (event_matches tag_keyword event) as [[]|] eqn:Hm; [| |done].
    + rewrite filter_cons_True by done.
      destruct (Z.leb_spec limit (Z.of_nat (length (matching ++ [event]))))
        as [Hle|Hgt]; rewrite length_app in *; simpl in *.
      * intros [= <-] Hlt.
        replace (Z.to_nat limit - length matching)%nat with 1%nat by lia.
        simpl. by rewrite take_0.
      * intros Hrun Hlt. apply IH in Hrun; [|rewrite length_app; simpl; lia].
        rewrite Hrun, length_app. simpl.
        replace (Z.to_nat limit - length matching)%nat
          with (S (Z.to_nat limit - (length matching + 1)))%nat by lia.
        simpl. by rewrite <-app_assoc.
    + rewrite filter_cons_False by (by rewrite Hm).
      intros Hrun Hlt.
      destruct (Z.leb_spec limit (Z.of_nat (length matching))); [lia|].
      by apply IH.
Qed.

(** With a positive [limit], [get_events_by_tag] returns the first [limit]
    future, active events that match, in the order the store lists them. *)
Lemma get_events_by_tag_positive tag_keyword limit now db res :
  0 < limit →
  get_events_by_tag tag_keyword limit now db = Ok res →
  res = take (Z.to_nat limit)
          (filter (λ e, event_matches tag_keyword e = Ok true)
             (filter (λ e, future_active now e = true) (event_rows db)))
  ∧ Z.of_nat (length res) ≤ limit
  ∧ Forall (λ e, future_active now e = true
                 ∧ event_matches tag_keyword e = Ok true) res.
Proof.
  intros Hl Hrun. unfold get_events_by_tag in Hrun.
  apply scan_events_spec in Hrun; [|simpl; lia]. simpl in Hrun.
  rewrite Nat.sub_0_r in Hrun. subst res. split; [done|]. split.
  - rewrite length_take. lia.
  - apply Forall_forall. intros e (i & He & _)%elem_of_take.
    apply list_elem_of_lookup_2 in He.
    apply list_elem_of_filter in He as [Hm He].
    apply list_elem_of_filter in He as [Hf _]. done.
Qed.

(** With [limit <= 0] the scan still looks at the first event, and returns
    it when it matches. *)
Lemma scan_events_nonpositive tag_keyword limit event events :
  limit ≤ 0 → event_matches tag_keyword event = Ok true →
  scan_events tag_keyword limit (event :: events) [] = Ok [event].
Proof.
  intros Hl Hm. cbn [scan_events]. unfold_M. rewrite Hm. simpl.
  destruct (Z.leb_spec limit (Z.of_nat 1)); [done|lia].
Qed.

End QueryTheory.

(** * The definitions at work *)

(** ** The API client *)

(** C6 on the sample runtime: a trailing "Z" reads as UTC, None stays
    None, and a text that is no date gives None. *)
Lemma parse_datetime_spec_witness :
  parse_datetime (VStr "2024-01-01T00:00:00Z")
  = @VDatetime sample_runtime "2024-01-01T00:00:00+00:00"
  ∧ parse_datetime (@VNone sample_runtime) = VNone
  ∧ parse_datetime (@VStr sample_runtime "next week") = VNone.
Proof.
  destruct (parse_datetime_spec (R:=sample_runtime) VNone "2024-01-01T00:00:00")
    as (_ & Hnone & Hz & _).
  destruct (parse_datetime_spec (R:=sample_runtime) VNone "next week")
    as (_ & _ & _ & Hbad).
  split; [exact (Hz eq_refl)|]. split; [exact (Hnone eq_refl)|].
  exact (Hbad eq_refl).
Defined.

(** C7 on two sources: one that answers 200 with three records, one that
    answers 503. *)
Lemma fetch_active_events_spec_witness :
  fetch_active_events three_events_server 100 0 world0
  = (Ok (VList [sample_event "1"; sample_event "2"; sample_event "3"]),
     {| requests := [events_request 100 0]; stdout := [] |})
  ∧ fetch_active_events failing_server 100 0 world0
    = (Ok (VList []),
       {| requests := [events_request 100 0];
          stdout := ["Error fetching events: 503"] |}).
Proof.
  split.
  - apply (proj1 (fetch_active_events_spec three_events_server 100 0 world0)).
    reflexivity.
  - apply (proj2 (fetch_active_events_spec failing_server 100 0 world0)).
    discriminate.
Defined.

(** C10 on a source with one full page: with [max_events=0] the second
    page is asked for, as without a limit. *)
Lemma max_events_zero_is_no_limit_witness :
  fetch_all_active_events one_full_page_server 5 (Some 0) world0
  = fetch_all_active_events one_full_page_server 5 None world0
  ∧ fetch_loop one_full_page_server 2 (Some 0) 100 [] 0 world0
    = fetch_loop one_full_page_server 1 (Some 0) 100
        (replicate 100 (sample_event "1")) 100
        (after_page one_full_page_server 100 0 100 100 world0).
Proof.
  destruct (max_events_zero_is_no_limit one_full_page_server 1 world0 [] 0
              (replicate 100 (sample_event "1"))) as [_ Hloop].
  split.
  - apply (max_events_zero_is_no_limit one_full_page_server 5 world0 [] 0 []).
  - apply Hloop; [reflexivity|]. rewrite length_replicate. lia.
Defined.


(** ** Reconciliation *)

(** C3 on a batch whose second market does not map: the call raises the
    [ValueError] of the mapping and the store stays empty, the first event
    and its market included. *)
Lemma populate_database_atomic_witness :
  populate_database unmappable_batch empty_store
  = (Raise ValueError, empty_store)
  ∧ (populate_database unmappable_batch empty_store).2 !! (Events, "1") = None.
Proof.
  destruct (populate_database_atomic unmappable_batch empty_store)
    as (Hraise & _).
  destruct (Hraise ValueError
              (populate_database unmappable_batch empty_store).2 eq_refl)
    as [Hstore _].
  split.
  - rewrite <-Hstore at 2. reflexivity.
  - by rewrite Hstore.
Defined.

(** C4 on the scenario of the specification: one event with one market
    into an empty store. *)
Lemma populate_database_counts_witness :
  populate_database [scenario_event] empty_store
  = (Ok {| events_added := 1; events_updated := 0;
           markets_added := 1; markets_updated := 0 |}, scenario_store)
  ∧ is_Some (scenario_store !! (Events, "1"))
  ∧ is_Some (scenario_store !! (Markets, "10")).
Proof.
  assert (populate_database [scenario_event] empty_store
          = (Ok {| events_added := 1; events_updated := 0;
                   markets_added := 1; markets_updated := 0 |},
             scenario_store)) as Hrun by reflexivity.
  destruct (populate_database_counts _ _ _ _ Hrun)
    as (_ & _ & _ & _ & Hrows & _).
  destruct (Hrows scenario_event) as [Hevent Hmarkets]; [by left|].
  split; [done|]. split; [exact Hevent|].
  apply (Hmarkets (VDict [("id", VStr "10");
                          ("question", VStr "Will X happen?")])).
  by left.
Defined.

(** C9 on the scenario: the event is reconciled a second time, in a
    session that already holds its row. *)
Lemma update_overwrites_every_attribute_witness :
  ∃ obj, create_event_from_api scenario_event = Ok obj
    ∧ working (process_event no_counts scenario_event scenario_session).2
      !! (Events, "1")
      = Some (setattrs obj (default ∅ (scenario_store !! (Events, "1"))))
    ∧ setattrs obj (default ∅ (scenario_store !! (Events, "1"))) !! "slug"
      = Some (VStr "will-x-happen").
Proof.
  destruct (update_overwrites_every_attribute no_counts scenario_session
              {| events_added := 0; events_updated := 1;
                 markets_added := 0; markets_updated := 1 |}
              (process_event no_counts scenario_event scenario_session).2
              (default ∅ (scenario_store !! (Events, "1")))) as [Hevent _].
  destruct (Hevent scenario_event eq_refl eq_refl)
    as (obj & Hobj & Hkeys & Hrow & Hattrs & _).
  exists obj. split; [done|]. split; [exact Hrow|].
  apply Hattrs; [|done].
  revert Hobj. unfold create_event_from_api, scenario_event. simpl.
  intros [= <-]. right. right. by left.
Defined.

(** C2 as amended, on the scenario: the second pass leaves the store as
    the first left it and counts one event and one market, both updated. *)
Lemma populate_database_idempotent_witness :
  populate_database [scenario_event] scenario_store
  = (Ok {| events_added := 0; events_updated := 1;
           markets_added := 0; markets_updated := 1 |}, scenario_store).
Proof.
  apply (populate_database_idempotent [scenario_event] empty_store
           {| events_added := 1; events_updated := 0;
              markets_added := 1; markets_updated := 0 |} scenario_store).
  - reflexivity.
  - apply (bool_decide_unpack _). reflexivity.
Defined.

(** C2 as stated fails on a batch that lists an event twice: the first
    pass completes, the second is refused by the unique slug (event 1,
    updated to slug "a" first, meets event 2, which holds it). *)
Lemma second_pass_refused :
  populate_database slug_swap_batch empty_store
  = (Ok {| events_added := 2; events_updated := 1;
           markets_added := 0; markets_updated := 0 |},
     (populate_database slug_swap_batch empty_store).2)
  ∧ (populate_database slug_swap_batch
       (populate_database slug_swap_batch empty_store).2).1
    = Raise IntegrityError.
Proof. split; reflexivity. Qed.

(** ** Field mapping *)

(** C5 as amended, on a record without [volume] and with an explicit null
    [liquidity]: the first is 0, the second stays None. *)
Lemma missing_fields_default_to_zero_witness :
  ∃ obj, create_event_from_api null_liquidity_event = Ok obj
    ∧ assoc_get "volume" obj = Some (VInt 0)
    ∧ assoc_get "liquidity" obj = Some VNone.
Proof.
  assert (∃ obj, create_event_from_api null_liquidity_event = Ok obj)
    as [obj Hobj] by (eexists; reflexivity).
  exists obj. split; [done|]. split.
  - destruct (missing_fields_default_to_zero Events
                [("id", VStr "1"); ("liquidity", VNone)] ""
                obj "volume" "volume" (Plain (VInt 0)) Hobj) as [Hmissing _].
    { unfold table_fields, event_fields. repeat (first [by left|right]). }
    apply (Hmissing CInteger (VInt 0) eq_refl eq_refl eq_refl).
  - destruct (missing_fields_default_to_zero Events
                [("id", VStr "1"); ("liquidity", VNone)] ""
                obj "liquidity" "liquidity" (Plain (VInt 0)) Hobj)
      as [_ Hpresent].
    { unfold table_fields, event_fields. repeat (first [by left|right]). }
    apply (Hpresent (VInt 0) VNone eq_refl eq_refl).
Defined.

(** C5 as stated fails on a record whose [liquidity] is an explicit null:
    the numeric attribute [liquidity] of the mapped event is None. *)
Lemma explicit_null_reaches_numeric_attribute :
  ∃ obj, create_event_from_api null_liquidity_event = Ok obj
    ∧ (is_numeric <$> assoc_get "liquidity" event_columns) = Some true
    ∧ assoc_get "liquidity" obj = Some VNone.
Proof. eexists. repeat split; reflexivity. Qed.

(** ** Tag search *)

(** C8 at [limit = 0]: the store holds one future, active event tagged
    Crypto, and the search for "crypto" returns it, one event where at
    most zero were asked for. *)
Lemma get_events_by_tag_limit_zero :
  ∃ event, get_events_by_tag "crypto" 0 sample_now crypto_store = Ok [event].
Proof. eexists. reflexivity. Qed.

(** The scenario of the specification: the event is found under "crypto"
    and "CRYPTO" and not under "sports". *)
Lemma tag_search_scenario :
  (∃ event, get_events_by_tag "crypto" 10 sample_now crypto_store = Ok [event])
  ∧ (∃ event, get_events_by_tag "CRYPTO" 10 sample_now crypto_store = Ok [event])
  ∧ get_events_by_tag "sports" 10 sample_now crypto_store = Ok [].
Proof. split; [|split]; try eexists; reflexivity. Qed.

(** ** Pagination: what is requested and what is kept *)

Section PaginationTheory.
Context {R : PyRuntime}.
Variable server : request → response.

Lemma offsets_requested_S limit offset n :
  offsets_requested limit offset (S n)
  = events_request limit offset :: offsets_requested limit (offset + limit) n.
Proof.
  unfold offsets_requested. rewrite <- cons_seq, fmap_cons. f_equal.
  - f_equal. lia.
  - rewrite <- fmap_S_seq, <- list_fmap_compose. apply list_fmap_ext.
    intros _ i _. simpl. f_equal. lia.
Qed.

Lemma requests_after_fetch limit offset w :
  requests (after_fetch server limit offset w)
  = requests w ++ [events_request limit offset].
Proof. reflexivity. Qed.

Lemma fetch_loop_requests fuel max_events limit :
  ∀ all offset w,
    ∃ n, (n ≤ fuel)%nat
         ∧ requests (fetch_loop server fuel max_events limit all offset w).2
           = requests w ++ offsets_requested limit offset n.
Proof.
  induction fuel as [|fuel IH]; intros all offset w.
  { exists 0%nat. split; [lia|]. simpl. by rewrite app_nil_r. }
  assert (Hone : ∃ n, (n ≤ S fuel)%nat
                      ∧ requests w ++ [events_request limit offset]
                        = requests w ++ offsets_requested limit offset n).
  { exists 1%nat. split; [lia|]. by rewrite offsets_requested_S. }
  cbn -[fetch_loop]. simpl. unfold_M. rewrite fetch_active_events_eq.
  destruct (page server limit offset) as [events|e]; [|exact Hone].
  destruct (truthy events); simpl; [|exact Hone].
  destruct (py_iter events) as [new|e]; simpl; [|exact Hone].
  destruct (py_len events) as [n|e]; simpl; [|exact Hone].
  unfold print; unfold_M.
  destruct (n <? limit); [exact Hone|].
  destruct (max_reached _ _); [exact Hone|].
  match goal with
  | |- context [fetch_loop server fuel max_events limit ?a ?o ?w'] =>
      destruct (IH a o w') as (k & Hk & E)
  end.
  exists (S k). split; [lia|].
  rewrite E, offsets_requested_S. simpl. by rewrite <- app_assoc.
Qed.

(** X1.  Whatever the source serves and whatever the limit, the requests of
    one [fetch_all_active_events] call are those for the offsets 0, 100,
    200, ... in this order, one per turn of the loop, each with page size
    100; nothing else is sent and no page is asked for twice. *)
Theorem fetch_all_requests_in_order fuel max_events w :
  ∃ n, (n ≤ fuel)%nat
       ∧ requests (fetch_all_active_events server fuel max_events w).2
         = requests w ++ offsets_requested 100 0 n.
Proof.
  unfold fetch_all_active_events, print. unfold_M.
  match goal with
  | |- context [fetch_loop server fuel max_events 100 [] 0 ?w'] =>
      destruct (fetch_loop_requests fuel max_events 100 [] 0 w')
        as (n & Hn & E);
      destruct (fetch_loop server fuel max_events 100 [] 0 w')
        as [[[res|]|e] w1] eqn:Hrun
  end; exists n; (split; [exact Hn|]); exact E.
Qed.

Lemma max_reached_no_limit max_events n :
  no_limit max_events → max_reached max_events n = false.
Proof. by intros [-> | ->]. Qed.

Lemma first_short_page_S limit offset k :
  first_short_page server limit offset (S k) →
  (∃ l, page server limit offset = Ok (VList l) ∧ limit ≤ Z.of_nat (length l))
  ∧ first_short_page server limit (offset + limit) k.
Proof.
  intros [Hfull (l & Hl & Hshort)]. split.
  - destruct (Hfull 0%nat) as (l0 & E & Hlen); [lia|].
    exists l0. split; [|done]. rewrite <- E. f_equal. lia.
  - split.
    + intros i Hi. destruct (Hfull (S i)) as (li & E & Hlen); [lia|].
      exists li. split; [|done]. rewrite <- E. f_equal. lia.
    + exists l. split; [|done]. rewrite <- Hl. f_equal. lia.
Qed.

Lemma fetch_loop_unlimited max_events limit k :
  no_limit max_events → 1 ≤ limit →
  ∀ fuel all offset w,
    first_short_page server limit offset k → (k < fuel)%nat →
    ∃ w', fetch_loop server fuel max_events limit all offset w
          = (Ok (Some (all ++ first_pages server limit (S k) offset)), w')
          ∧ requests w' = requests w ++ offsets_requested limit offset (S k).
Proof.
  intros Hmax Hlimit. induction k as [|k IH]; intros fuel all offset w Hk Hfuel.
  - destruct fuel as [|fuel]; [lia|].
    destruct Hk as [_ (l & Hl & Hshort)].
    replace (offset + limit * Z.of_nat 0) with offset in Hl by lia.
    simpl first_pages. unfold page_records. rewrite Hl, app_nil_r.
    rewrite offsets_requested_S. destruct l as [|x l].
    + rewrite app_nil_r. eexists. split; [by eapply fetch_loop_falsy|]. done.
    + eexists. rewrite (fetch_loop_list _ _ _ _ _ _ _ _ Hl) by done.
      cbv zeta. apply Z.ltb_lt in Hshort. rewrite Hshort. done.
  - destruct fuel as [|fuel]; [lia|].
    apply first_short_page_S in Hk as [(l & Hl & Hfull) Hk].
    assert (l ≠ []) by (intros ->; simpl in Hfull; lia).
    rewrite (fetch_loop_list _ _ _ _ _ _ _ _ Hl) by done. cbv zeta.
    apply Z.ltb_ge in Hfull. rewrite Hfull, max_reached_no_limit by done.
    edestruct (IH fuel (all ++ l) (offset + limit)) as (w' & -> & E);
      [exact Hk|lia|].
    exists w'. split.
    + do 2 f_equal. change (first_pages server limit (S (S k)) offset)
        with (page_records server limit offset
              ++ first_pages server limit (S k) (offset + limit)).
      unfold page_records. by rewrite Hl, <- app_assoc.
    + rewrite E, (offsets_requested_S _ _ (S k)). simpl.
      by rewrite <- app_assoc.
Qed.

(** X2.  Without a limit ([max_events] None or 0), when the pages before
    page [k] are arrays of at least 100 records and page [k] is an array of
    fewer (empty or failed included), the call returns, after exactly [k+1]
    requests, every record of these [k+1] pages in the order served:
    nothing is dropped, reordered or fetched twice. *)
Theorem fetch_all_unlimited_is_complete fuel max_events k w :
  no_limit max_events → first_short_page server 100 0 k → (k < fuel)%nat →
  ∃ w', fetch_all_active_events server fuel max_events w
        = (Ok (Some (first_pages server 100 (S k) 0)), w')
        ∧ requests w' = requests w ++ offsets_requested 100 0 (S k).
Proof.
  intros Hmax Hk Hfuel. unfold fetch_all_active_events, print. unfold_M.
  match goal with
  | |- context [fetch_loop server fuel max_events 100 [] 0 ?w0] =>
      destruct (fetch_loop_unlimited max_events 100 k Hmax ltac:(lia)
                  fuel [] 0 w0 Hk Hfuel) as (w' & -> & E)
  end.
  simpl. eexists. split; [reflexivity|]. exact E.
Qed.

Lemma fetch_loop_never_ends max_events limit :
  no_limit max_events → 1 ≤ limit → only_full_pages server limit →
  ∀ fuel all offset w,
    (fetch_loop server fuel max_events limit all offset w).1 = Ok None.
Proof.
  intros Hmax Hlimit Hfull. induction fuel as [|fuel IH]; intros all offset w.
  { reflexivity. }
  destruct (Hfull offset) as (l & Hl & Hlen).
  assert (l ≠ []) by (intros ->; simpl in Hlen; lia).
  rewrite (fetch_loop_list _ _ _ _ _ _ _ _ Hl) by done. cbv zeta.
  apply Z.ltb_ge in Hlen. rewrite Hlen, max_reached_no_limit by done.
  apply IH.
Qed.

(** X3.  Without a limit the loop ends only on a short page: against a
    source that serves an array of at least 100 records at every offset,
    no number of turns makes [fetch_all_active_events] return. *)
Theorem fetch_all_unlimited_needs_a_short_page fuel max_events w :
  no_limit max_events → only_full_pages server 100 →
  (fetch_all_active_events server fuel max_events w).1 = Ok None.
Proof.
  intros Hmax Hfull. unfold fetch_all_active_events, print. unfold_M.
  match goal with
  | |- context [fetch_loop server fuel max_events 100 [] 0 ?w0] =>
      pose proof (fetch_loop_never_ends max_events 100 Hmax ltac:(lia) Hfull
                    fuel [] 0 w0) as E;
      destruct (fetch_loop server fuel max_events 100 [] 0 w0) as [r w1]
  end.
  simpl in E. by rewrite E.
Qed.

(** *** A positive limit *)









End PaginationTheory.

(** ** Field mapping: when it fails and what it reads *)

Section FieldTheory.
Context {R : PyRuntime}.

Lemma map_field_dict d attr key c :
  map_field (VDict d) (attr, key, c)
  = match c with
    | AsFloat dflt => x ← float_of_key d (key, dflt); Ok (attr, x)
    | _ => v ← missing_value
                 match c with
                 | Plain dflt => Plain (default dflt (assoc_get key d))
                 | AsStr dflt => AsStr (default dflt (assoc_get key d))
                 | AsDate => Given (parse_datetime
                                      (default VNone (assoc_get key d)))
                 | other => other
                 end;
           Ok (attr, v)
    end.
Proof. by destruct c. Qed.

Lemma map_field_not_float d f :
  (∀ dflt, f.2 ≠ AsFloat dflt) → is_ok (map_field (VDict d) f).
Proof.
  destruct f as [[attr key] c]. intros Hc. rewrite map_field_dict.
  destruct c; try (eexists; reflexivity). by destruct (Hc dflt).
Qed.

Lemma map_fields_raise d fs e :
  map_fields (VDict d) fs = Raise e
  ↔ ∃ pre kd post, float_keys fs = pre ++ kd :: post
      ∧ Forall (λ kd, is_ok (float_of_key d kd)) pre
      ∧ float_of_key d kd = Raise e.
Proof.
  induction fs as [|[[attr key] c] fs IH].
  { split; [done|]. intros (pre & kd & post & E & _). by destruct pre. }
  assert (Hcons : ∀ kv, map_field (VDict d) (attr, key, c) = Ok kv →
            map_fields (VDict d) ((attr, key, c) :: fs) = Raise e
            ↔ map_fields (VDict d) fs = Raise e).
  { intros kv E. cbn [map_fields]. rewrite E. unfold_M.
    destruct (map_fields (VDict d) fs); split; congruence. }
  assert (Hdec : (∃ dflt, c = AsFloat dflt) ∨ ∀ dflt, c ≠ AsFloat dflt)
    by (destruct c; eauto; right; intros; discriminate).
  destruct Hdec as [[dflt ->]|Hc].
  - change (float_keys ((attr, key, AsFloat dflt) :: fs))
      with ((key, dflt) :: float_keys fs).
    destruct (float_of_key d (key, dflt)) as [x|e'] eqn:Hx.
    + rewrite (Hcons (attr, x)), IH
        by (rewrite map_field_dict, Hx; reflexivity).
      split.
      * intros (pre & kd & post & E & Hpre & Hkd).
        exists ((key, dflt) :: pre), kd, post. rewrite E. split; [done|].
        split; [|done]. constructor; [by eexists|done].
      * intros (pre & kd & post & E & Hpre & Hkd).
        destruct pre as [|kd' pre]; simplify_eq/=; [congruence|].
        exists pre, kd, post. by inversion Hpre.
    + cbn [map_fields]. rewrite map_field_dict, Hx. unfold_M. split.
      * intros [= <-]. by exists [], (key, dflt), (float_keys fs).
      * intros (pre & kd & post & E & Hpre & Hkd).
        destruct pre as [|kd' pre]; simplify_eq/=; [congruence|].
        inversion Hpre as [|? ? [x Hx'] _]. congruence.
  - destruct (map_field_not_float d (attr, key, c)) as [kv Hkv].
    { exact Hc. }
    rewrite (Hcons kv Hkv), IH.
    replace (float_keys ((attr, key, c) :: fs)) with (float_keys fs); [done|].
    unfold float_keys. cbn [omap list_omap]. simpl.
    destruct c; try done. by destruct (Hc dflt).
Qed.

Lemma first_failure {A B} (f : A → res B) (l : list A) :
  Forall (λ x, is_ok (f x)) l
  ∨ ∃ pre x post e, l = pre ++ x :: post
      ∧ Forall (λ x, is_ok (f x)) pre ∧ f x = Raise e.
Proof.
  induction l as [|x l IH]; [by left|].
  destruct (f x) as [y|e] eqn:Hx.
  - destruct IH as [Hall|(pre & x' & post & e & -> & Hpre & Hx')].
    + left. constructor; [by eexists|done].
    + right. exists (x :: pre), x', post, e. split; [done|].
      split; [|done]. constructor; [by eexists|done].
  - right. by exists [], x, l, e.
Qed.

Lemma map_fields_ok d fs :
  is_ok (map_fields (VDict d) fs)
  ↔ Forall (λ kd, is_ok (float_of_key d kd)) (float_keys fs).
Proof.
  split.
  - intros [kvs E].
    destruct (first_failure (float_of_key d) (float_keys fs))
      as [Hall|(pre & kd & post & e & Hsplit & Hpre & Hkd)]; [done|].
    assert (map_fields (VDict d) fs = Raise e) by (apply map_fields_raise; eauto 8).
    congruence.
  - intros Hall. destruct (map_fields (VDict d) fs) as [kvs|e] eqn:E;
      [by eexists|].
    apply map_fields_raise in E as (pre & kd & post & Hsplit & _ & Hkd).
    rewrite Hsplit in Hall. apply Forall_app in Hall as [_ Hall].
    inversion Hall as [|? ? [x Hx] _]. congruence.
Qed.

Lemma create_from_api_fields t data event_id :
  create_from_api t data event_id
  = (attrs ← map_fields data (table_fields t event_id);
     Ok (sa_instance_state :: attrs)).
Proof. by destruct t. Qed.

(** X4.  Mapping an event never fails on a JSON object, whatever its
    fields hold: [create_event_from_api] converts nothing that can raise
    and gives an object with exactly the Event attributes.  On a record
    that is not an object both mapping functions raise AttributeError at
    the first [get]. *)
Theorem create_event_from_api_total (v : pyval) event_id :
  match v with
  | VDict d => ∃ obj, create_event_from_api v = Ok obj
                      ∧ obj.*1 = object_keys Events
  | _ => create_event_from_api v = Raise AttributeError
         ∧ create_market_from_api v event_id = Raise AttributeError
  end.
Proof.
  destruct v; try (split; reflexivity).
  destruct (proj2 (map_fields_ok d event_fields)) as [kvs E];
    [by constructor|].
  exists (sa_instance_state :: kvs). unfold create_event_from_api.
  rewrite E. split; [done|].
  cbn [fmap list_fmap]. simpl. by erewrite map_fields_keys by done.
Qed.

(** X5.  Mapping a market object fails only in a [float(...)] conversion:
    [create_market_from_api] returns an object exactly when the values
    under the ten float-converted keys (0 where the key is missing) are all
    accepted by [float], and when it raises, the exception is the one
    [float] raises on the first of them, in constructor order, that is not. *)
Theorem create_market_from_api_failure d event_id :
  let keys := float_keys (market_fields event_id) in
  keys = (λ key, (key, VInt 0)) <$>
           ["bestBid"; "bestAsk"; "spread"; "lastTradePrice";
            "oneHourPriceChange"; "oneDayPriceChange"; "oneWeekPriceChange";
            "oneMonthPriceChange"; "oneYearPriceChange";
            "orderPriceMinTickSize"]
  ∧ (is_ok (create_market_from_api (VDict d) event_id)
     ↔ Forall (λ kd, is_ok (float_of_key d kd)) keys)
  ∧ (∀ e, create_market_from_api (VDict d) event_id = Raise e
          ↔ ∃ pre kd post, keys = pre ++ kd :: post
              ∧ Forall (λ kd, is_ok (float_of_key d kd)) pre
              ∧ float_of_key d kd = Raise e).
Proof.
  intros keys. split; [reflexivity|]. subst keys.
  rewrite <- map_fields_ok. split.
  - unfold create_market_from_api, is_ok. unfold_M.
    destruct (map_fields _ _); split; intros [? ?]; simplify_eq; eauto.
  - intros e. rewrite <- map_fields_raise.
    unfold create_market_from_api. unfold_M.
    destruct (map_fields _ _); split; congruence.
Qed.

Lemma map_field_agree d d' f :
  assoc_get f.1.2 d = assoc_get f.1.2 d' →
  map_field (VDict d) f = map_field (VDict d') f.
Proof.
  destruct f as [[attr key] c]. intros E. simpl in E.
  rewrite !map_field_dict. unfold float_of_key. simpl. by rewrite E.
Qed.

Lemma map_fields_agree d d' fs :
  (∀ f, f ∈ fs → assoc_get f.1.2 d = assoc_get f.1.2 d') →
  map_fields (VDict d) fs = map_fields (VDict d') fs.
Proof.
  induction fs as [|f fs IH]; intros H; [done|].
  cbn [map_fields]. rewrite (map_field_agree d d' f), IH; [done| |].
  - intros f' Hf'. apply H. by right.
  - apply H. by left.
Qed.

(** X6.  The mapping functions read a record only through the keys their
    constructor call names: two raw objects that give the same answer to
    [get] for each of these keys map to the same object, so fields the
    code does not know, and the order of the fields, never reach the
    store. *)
Theorem create_from_api_reads_mapped_keys t d d' event_id :
  (∀ f, f ∈ table_fields t event_id →
        assoc_get f.1.2 d = assoc_get f.1.2 d') →
  create_from_api t (VDict d) event_id = create_from_api t (VDict d') event_id.
Proof.
  intros H. rewrite !create_from_api_fields.
  by rewrite (map_fields_agree d d').
Qed.

End FieldTheory.

(** ** Reconciliation: what a pass does to the store as a whole *)

Section StoreTheory.
Context {R : PyRuntime}.

Lemma rows_in_upsert t w db :
  rows_in t (upsert w db)
  = (rows_in t db
     + if bool_decide ((write_key w).1 = t ∧ db !! write_key w = None)
       then 1 else 0)%nat.
Proof.
  unfold rows_in, upsert. rewrite map_filter_insert. cbn [fst snd].
  case_decide as Ht.
  - rewrite map_size_insert.
    destruct (db !! write_key w) as [r|] eqn:Hk.
    + rewrite bool_decide_eq_false_2 by (intros [_ ?]; done).
      erewrite map_lookup_filter_Some_2; [simpl; lia|done|done].
    + rewrite bool_decide_eq_true_2 by done.
      rewrite map_lookup_filter_None_2 by (by left). simpl. lia.
  - rewrite bool_decide_eq_false_2 by (intros [? _]; done).
    rewrite map_filter_delete, delete_id; [lia|].
    apply map_lookup_filter_None_2. right. intros r _. exact Ht.
Qed.

Lemma added_count_write t t' found c :
  let added c := match t with
                 | Events => events_added c
                 | Markets => markets_added c
                 end in
  added (count_write t' found c)
  = (added c + if bool_decide (t' = t ∧ found = false) then 1 else 0)%nat.
Proof. destruct t, t', found; simpl; lia. Qed.

Lemma tally_added t ws :
  let added c := match t with
                 | Events => events_added c
                 | Markets => markets_added c
                 end in
  ∀ db c, (rows_in t (apply_writes ws db) + added c
           = rows_in t db + added (tally ws db c))%nat.
Proof.
  intros added. induction ws as [|w ws IH]; intros db c; [done|].
  rewrite apply_writes_cons. cbn [tally].
  specialize (IH (upsert w db)
                 (count_write (write_key w).1
                    (bool_decide (is_Some (db !! write_key w))) c)).
  rewrite rows_in_upsert in IH. subst added. cbv beta in *.
  rewrite (added_count_write t) in IH. cbv zeta in IH.
  destruct (db !! write_key w) as [r|] eqn:Hk.
  - rewrite (bool_decide_eq_true_2 (is_Some (Some r))) in IH |- *
      by by eexists.
    rewrite !bool_decide_eq_false_2 in IH by (intros [_ ?]; done). lia.
  - rewrite (bool_decide_eq_false_2 (is_Some None)) in IH |- *
      by (by intros [? ?]).
    destruct (decide ((write_key w).1 = t)).
    + rewrite !bool_decide_eq_true_2 in IH by done. lia.
    + rewrite !bool_decide_eq_false_2 in IH by (intros [? _]; done). lia.
Qed.

Lemma populate_database_dom events_data store :
  dom store ⊆ dom (populate_database events_data store).2.
Proof.
  destruct (populate_database events_data store) as [[c|e] store'] eqn:Hrun.
  - apply populate_database_ok in Hrun as (ws & Hws & _ & _ & -> & _).
    intros k Hk. apply elem_of_dom. apply elem_of_dom in Hk.
    apply apply_writes_is_Some; [by eapply batch_writes_ok|by right].
  - apply populate_database_raise in Hrun as ->. done.
Qed.

(** X7.  [populate_database] never deletes a row: whatever the batch and
    whether the pass completes or is rolled back, every key the store held
    before the call it still holds after it, and no table has fewer rows.
    Records that disappear from the source stay in the store. *)
Theorem populate_database_never_deletes events_data store :
  dom store ⊆ dom (populate_database events_data store).2
  ∧ ∀ t, (rows_in t store
          ≤ rows_in t (populate_database events_data store).2)%nat.
Proof.
  split; [apply populate_database_dom|]. intros t.
  destruct (populate_database events_data store) as [[c|e] store'] eqn:Hrun.
  - apply populate_database_ok in Hrun as (ws & _ & _ & _ & -> & _).
    pose proof (tally_added t ws store no_counts) as Ht.
    destruct t; simpl in *; lia.
  - by apply populate_database_raise in Hrun as ->.
Qed.

(** X8.  After a pass that completed, each table has grown by exactly the
    number of records the pass counted as added: rows of events after =
    rows before + eventsAdded, and the same for markets.  A record counted
    as updated adds no row, so an id that occurs twice in the batch is
    added once. *)
Theorem populate_database_row_count events_data store c store' :
  populate_database events_data store = (Ok c, store') →
  rows_in Events store' = (rows_in Events store + events_added c)%nat
  ∧ rows_in Markets store' = (rows_in Markets store + markets_added c)%nat.
Proof.
  intros Hrun.
  apply populate_database_ok in Hrun as (ws & Hws & _ & _ & -> & ->).
  pose proof (tally_added Events ws store no_counts) as He.
  pose proof (tally_added Markets ws store no_counts) as Hm.
  simpl in He, Hm. lia.
Qed.

(** *** The slug constraint *)

Lemma omap_NoDup_inj {A B} (f : A → option B) (l : list A) x y b :
  NoDup (omap f l) → x ∈ l → y ∈ l → f x = Some b → f y = Some b → x = y.
Proof.
  induction l as [|z l IH]; intros Hnd Hx Hy Hfx Hfy; [by inversion Hx|].
  cbn [omap list_omap] in Hnd.
  assert (Hhead : ∀ u, u ∈ l → f u = Some b → f z = Some b → False).
  { intros u Hu Hfu Hfz. rewrite Hfz in Hnd. inversion Hnd as [|? ? Hnotin _].
    apply Hnotin. apply list_elem_of_omap. eauto. }
  assert (Htail : NoDup (omap f l)).
  { destruct (f z); [by inversion Hnd|done]. }
  apply elem_of_cons in Hx as [->|Hx], Hy as [->|Hy]; try done.
  - by destruct (Hhead y).
  - by destruct (Hhead x).
  - by apply IH.
Qed.

Lemma omap_NoDup {A B} (f : A → option B) (l : list A) :
  NoDup l →
  (∀ x y b, x ∈ l → y ∈ l → f x = Some b → f y = Some b → x = y) →
  NoDup (omap f l).
Proof.
  induction l as [|z l IH]; intros Hnd Hinj; [constructor|].
  inversion Hnd as [|? ? Hz Hl]; subst. cbn [omap list_omap].
  assert (NoDup (omap f l)).
  { apply IH; [done|]. intros x y b Hx Hy. apply Hinj; by right. }
  destruct (f z) as [b|] eqn:Hfz; [|done].
  constructor; [|done]. intros Hb.
  apply list_elem_of_omap in Hb as (x & Hx & Hfx).
  assert (x = z) by (eapply Hinj; [by right|by left|done..]).
  by subst.
Qed.

Lemma integrity_ok_unique db : integrity_ok db = true ↔ unique_slugs db.
Proof.
  unfold integrity_ok, event_slugs. rewrite bool_decide_eq_true. split.
  - intros Hnd i j ri rj s Hi Hj Hsi Hsj.
    assert (((Events, i), ri) = ((Events, j), rj)) as [= ->]; [|done].
    eapply omap_NoDup_inj; [exact Hnd|by apply elem_of_map_to_list..| |];
      simpl; done.
  - intros Huniq. apply omap_NoDup; [apply NoDup_map_to_list|].
    intros [[t1 i] ri] [[t2 j] rj] s Hx Hy Hfx Hfy. simpl in *.
    apply elem_of_map_to_list in Hx, Hy.
    destruct t1, t2; try done.
    assert (i = j) by (by eapply Huniq). subst j.
    rewrite Hx in Hy. by injection Hy as ->.
Qed.

Lemma populate_database_slugs events_data store :
  unique_slugs store → unique_slugs (populate_database events_data store).2.
Proof.
  intros Huniq.
  destruct (populate_database events_data store) as [[c|e] store'] eqn:Hrun.
  - apply populate_database_ok in Hrun as (ws & _ & _ & Hint & -> & _).
    by apply integrity_ok_unique.
  - by apply populate_database_raise in Hrun as ->.
Qed.

(** *** Which record a row reflects *)

Lemma map_res_app {A B} (f : A → res B) l1 l2 ys :
  map_res f (l1 ++ l2) = Ok ys →
  ∃ ys1 ys2, map_res f l1 = Ok ys1 ∧ map_res f l2 = Ok ys2 ∧ ys = ys1 ++ ys2.
Proof.
  revert ys. induction l1 as [|x l1 IH]; intros ys E.
  { by exists [], ys. }
  cbn [app map_res] in E |- *. unfold_M.
  destruct (f x) as [y|]; [|done].
  destruct (map_res f (l1 ++ l2)) as [ys'|] eqn:E'; [|done].
  injection E as <-. destruct (IH ys' eq_refl) as (ys1 & ys2 & -> & -> & ->).
  by exists (y :: ys1), ys2.
Qed.

Lemma last_write_app k (ws1 ws2 : list write) :
  last_write k (ws1 ++ ws2)
  = match last_write k ws2 with
    | Some obj => Some obj
    | None => last_write k ws1
    end.
Proof.
  induction ws1 as [|w ws1 IH]; simpl.
  - by destruct (last_write k ws2).
  - rewrite IH. by destruct (last_write k ws2).
Qed.

Lemma record_id_get data id :
  py_get data "id" VNone = Ok id → record_id data = py_str id.
Proof. unfold record_id. by intros ->. Qed.

Lemma event_key_later (post : list pyval) id :
  (Events, id) ∈ concat (event_keys <$> post) ↔ id ∈ record_id <$> post.
Proof.
  rewrite elem_of_concat. split.
  - intros (ks & Hks & Hk). apply list_elem_of_fmap in Hks as (ev & -> & Hev).
    apply elem_of_cons in Hk as [[= ->]|Hk].
    + apply list_elem_of_fmap. eauto.
    + apply list_elem_of_fmap in Hk as (md & [=] & _).
  - intros Hid. apply list_elem_of_fmap in Hid as (ev & -> & Hev).
    exists (event_keys ev). split; [apply list_elem_of_fmap; eauto|by left].
Qed.

Lemma market_key_later (post : list pyval) id :
  (Markets, id) ∈ concat (event_keys <$> post)
  ↔ ∃ ev, ev ∈ post ∧ id ∈ record_id <$> markets_of ev.
Proof.
  rewrite elem_of_concat. split.
  - intros (ks & Hks & Hk). apply list_elem_of_fmap in Hks as (ev & -> & Hev).
    apply elem_of_cons in Hk as [[=]|Hk].
    apply list_elem_of_fmap in Hk as (md & [= ->] & Hmd).
    exists ev. split; [done|]. apply list_elem_of_fmap. eauto.
  - intros (ev & Hev & Hid). apply list_elem_of_fmap in Hid as (md & -> & Hmd).
    exists (event_keys ev). split; [apply list_elem_of_fmap; eauto|].
    right. apply list_elem_of_fmap. eauto.
Qed.

(** The writes of a batch, cut at one of its events. *)
Lemma batch_writes_split pre ev post ws :
  batch_writes (pre ++ ev :: post) = Ok ws →
  ∃ ws1 wse ws2,
    batch_writes pre = Ok ws1 ∧ event_writes ev = Ok wse
    ∧ batch_writes post = Ok ws2 ∧ ws = ws1 ++ wse ++ ws2.
Proof.
  unfold batch_writes. unfold_M. intros E.
  destruct (map_res event_writes (pre ++ ev :: post)) as [wss|] eqn:Hwss;
    [|done].
  injection E as <-.
  apply map_res_app in Hwss as (wss1 & wss2 & -> & Hwss2 & ->).
  cbn [map_res] in Hwss2. unfold_M.
  destruct (event_writes ev) as [wse|]; [|done].
  destruct (map_res event_writes post) as [wss3|]; [|done].
  injection Hwss2 as <-. exists (concat wss1), wse, (concat wss3).
  by rewrite concat_app.
Qed.

Lemma last_write_skip k (ws : list write) :
  k ∉ write_key <$> ws → last_write k ws = None.
Proof. apply last_write_None. Qed.

(** The last write to an event's key is the event's own, when no later
    record of the batch has its id. *)
Lemma last_write_event pre ev post ws :
  batch_writes (pre ++ ev :: post) = Ok ws →
  record_id ev ∉ record_id <$> post →
  ∃ obj, create_event_from_api ev = Ok obj
         ∧ last_write (Events, record_id ev) ws = Some obj.
Proof.
  intros Hws Hlast.
  apply batch_writes_split in Hws as (ws1 & wse & ws2 & _ & Hev & Hpost & ->).
  apply event_writes_inv in Hev as (id & obj & mws & Hid & Hobj & -> & Hmws).
  exists obj. split; [done|]. rewrite (record_id_get _ _ Hid) in *.
  rewrite !last_write_app.
  rewrite (last_write_skip _ ws2).
  2:{ rewrite (batch_writes_keys _ _ Hpost), event_key_later. done. }
  cbn [last_write]. rewrite (last_write_skip _ mws).
  2:{ intros Hin. apply list_elem_of_fmap in Hin as (w & Hk & Hw).
      rewrite Forall_forall in Hmws. apply Hmws in Hw.
      by rewrite <- Hk in Hw. }
  by rewrite decide_True.
Qed.

Lemma market_writes_keys event_id markets mws :
  map_res (market_write event_id) markets = Ok mws →
  write_key <$> mws = (λ md, (Markets, record_id md)) <$> markets.
Proof.
  revert mws. induction markets as [|md markets IH]; intros mws E.
  { by injection E as <-. }
  cbn [map_res] in E. unfold_M.
  destruct (market_write event_id md) as [w|] eqn:Hw; [|done].
  destruct (map_res _ markets) as [mws'|]; [|done]. injection E as <-.
  rewrite !fmap_cons, (IH mws' eq_refl).
  by destruct (market_write_ok _ _ _ Hw) as [_ ->].
Qed.

(** The last write to a market's key is the one of the last record with
    its id: here a record no later record of the batch shares its id with. *)
Lemma last_write_market pre ev post ws mpre md mpost :
  batch_writes (pre ++ ev :: post) = Ok ws →
  markets_of ev = mpre ++ md :: mpost →
  record_id md ∉ record_id <$> mpost →
  (∀ ev', ev' ∈ post → record_id md ∉ record_id <$> markets_of ev') →
  ∃ obj, create_market_from_api md (record_id ev) = Ok obj
         ∧ last_write (Markets, record_id md) ws = Some obj.
Proof.
  intros Hws Hmarkets Hlast Hlater.
  apply batch_writes_split in Hws as (ws1 & wse & ws2 & _ & Hev & Hpost & ->).
  unfold event_writes in Hev. unfold_M.
  destruct (py_get ev "id" VNone) as [id|] eqn:Hid; [|done].
  destruct (create_event_from_api ev) as [eobj|]; [|done].
  unfold markets_of in Hmarkets. unfold_M.
  destruct (py_get ev "markets" (VList [])) as [markets_data|]; [|done].
  destruct (py_iter markets_data) as [markets|]; [|done].
  destruct (map_res _ markets) as [mws|] eqn:Hmws; [|done].
  injection Hev as <-. subst markets.
  rewrite (record_id_get _ _ Hid).
  apply map_res_app in Hmws as (mws1 & mws2 & _ & Hmws2 & ->).
  cbn [map_res] in Hmws2. unfold_M.
  destruct (market_write (py_str id) md) as [w|] eqn:Hw; [|done].
  destruct (map_res _ mpost) as [mws3|] eqn:Hmws3; [|done].
  injection Hmws2 as <-.
  destruct (market_write_ok _ _ _ Hw) as [_ Hkey].
  unfold market_write in Hw. unfold_M.
  destruct (py_get md "id" VNone) as [mid|]; [|done].
  destruct (create_market_from_api md (py_str id)) as [obj|]; [|done].
  injection Hw as <-. exists obj. split; [done|].
  rewrite !last_write_app.
  rewrite (last_write_skip _ ws2).
  2:{ rewrite (batch_writes_keys _ _ Hpost), market_key_later.
      intros (ev' & Hev' & Hin). by eapply Hlater. }
  change ((Events, py_str id, eobj) :: mws1 ++ (Markets, py_str mid, obj) :: mws3)
    with (((Events, py_str id, eobj) :: mws1)
          ++ [(Markets, py_str mid, obj)] ++ mws3).
  rewrite !last_write_app. rewrite (last_write_skip _ mws3).
  2:{ rewrite (market_writes_keys _ _ _ Hmws3).
      intros Hin. apply list_elem_of_fmap in Hin as (md' & [= E] & Hmd').
      apply Hlast. apply list_elem_of_fmap. eauto. }
  cbn [last_write]. rewrite decide_True; [done|].
  exact Hkey.
Qed.

(** The row a completed pass leaves under a key the batch wrote. *)
Lemma populate_database_row events_data store c store' ws k obj :
  populate_database events_data store = (Ok c, store') →
  batch_writes events_data = Ok ws →
  last_write k ws = Some obj →
  ∃ row, store' !! k = Some row
         ∧ ∀ attr v, (attr, v) ∈ obj → startswith_underscore attr = false →
                     row !! attr = Some v.
Proof.
  intros Hrun Hws Hlast.
  apply populate_database_ok in Hrun as (ws' & Hws' & _ & _ & -> & _).
  rewrite Hws in Hws'. injection Hws' as <-.
  pose proof (batch_writes_ok _ _ Hws) as Hok.
  rewrite (apply_writes_lookup _ _ _ Hok), Hlast.
  eexists. split; [done|]. intros attr v Hin Hpub.
  apply lookup_union_Some_l. apply public_attrs_lookup; [|done..].
  apply last_write_in in Hlast as (w & Hw & _ & <-).
  rewrite Forall_forall in Hok. destruct (Hok w Hw) as [-> _].
  apply object_keys_NoDup.
Qed.

Lemma column_names_public t attr ty :
  assoc_get attr (table_columns t) = Some ty →
  startswith_underscore attr = false.
Proof.
  assert (Hall : Forall (λ c : string * coltype,
                           startswith_underscore c.1 = false)
                        (table_columns t))
    by (destruct t; repeat constructor).
  induction Hall as [|[name ty'] cols Hname _ IH]; [done|].
  cbn [assoc_get]. destruct (String.eqb_spec name attr) as [<-|_]; [done|].
  exact IH.
Qed.

(** X10.  Within a batch the last record wins.  After a pass that
    completed, the row of an event holds, in every attribute whose mapped
    value the store keeps as it is given (NULL, or a value of the column's
    type), the value mapped from the last record of the batch with that id;
    the row of a market holds those of the last market record with its id,
    wherever in the batch it is nested, and the market is attached to the
    event that record is nested in.  What the store makes of a value of
    another type is outside this statement. *)
Theorem populate_database_last_record_wins pre ev post store c store' :
  populate_database (pre ++ ev :: post) store = (Ok c, store') →
  (record_id ev ∉ record_id <$> post →
   ∃ obj row,
     create_event_from_api ev = Ok obj
     ∧ store' !! (Events, record_id ev) = Some row
     ∧ ∀ attr v ty,
         (attr, v) ∈ obj → assoc_get attr event_columns = Some ty →
         stored_as_is ty v = true → row !! attr = Some v)
  ∧ (∀ mpre md mpost,
       markets_of ev = mpre ++ md :: mpost →
       record_id md ∉ record_id <$> mpost →
       (∀ ev', ev' ∈ post → record_id md ∉ record_id <$> markets_of ev') →
       ∃ obj row,
         create_market_from_api md (record_id ev) = Ok obj
         ∧ store' !! (Markets, record_id md) = Some row
         ∧ (∀ attr v ty,
              (attr, v) ∈ obj → assoc_get attr market_columns = Some ty →
              stored_as_is ty v = true → row !! attr = Some v)
         ∧ row !! "event_id" = Some (VStr (record_id ev))).
Proof.
  intros Hrun.
  destruct (populate_database_ok _ _ _ _ Hrun) as (ws & Hws & _).
  split.
  - intros Hlast.
    destruct (last_write_event _ _ _ _ Hws Hlast) as (obj & Hobj & Hw).
    destruct (populate_database_row _ _ _ _ _ _ _ Hrun Hws Hw)
      as (row & Hrow & Hattrs).
    exists obj, row. repeat split; try done.
    intros attr v ty Hin Hcol _. apply Hattrs; [done|].
    by apply (column_names_public Events attr ty).
  - intros mpre md mpost Hmarkets Hlast Hlater.
    destruct (last_write_market _ _ _ _ _ _ _ Hws Hmarkets Hlast Hlater)
      as (obj & Hobj & Hw).
    destruct (populate_database_row _ _ _ _ _ _ _ Hrun Hws Hw)
      as (row & Hrow & Hattrs).
    exists obj, row. repeat split; try done.
    + intros attr v ty Hin Hcol _. apply Hattrs; [done|].
      by apply (column_names_public Markets attr ty).
    + apply Hattrs; [|done]. by eapply create_market_event_id.
Qed.

Lemma event_slug_attr d obj :
  create_event_from_api (VDict d) = Ok obj →
  ("slug", default VNone (assoc_get "slug" d)) ∈ obj.
Proof.
  unfold create_event_from_api. unfold_M.
  destruct (map_fields (VDict d) event_fields) as [kvs|] eqn:E; [|done].
  intros [= <-]. right.
  destruct (map_fields_elem _ _ _ ("slug", "slug", Plain VNone) E)
    as (kv & Hkv & Hin); [|by injection Hkv as <-].
  unfold event_fields. right. by left.
Qed.

(** X11.  Two events of one batch that end the pass under different ids
    with the same slug text make the whole batch fail: the call raises and
    the store is left as it was, whatever else the batch holds. *)
Theorem duplicate_slug_rejects_batch pre d1 mid d2 post s store :
  assoc_get "slug" d1 = Some (VStr s) →
  assoc_get "slug" d2 = Some (VStr s) →
  record_id (VDict d1) ≠ record_id (VDict d2) →
  record_id (VDict d1) ∉ record_id <$> mid ++ post →
  record_id (VDict d2) ∉ record_id <$> post →
  ∃ e, populate_database (pre ++ VDict d1 :: mid ++ VDict d2 :: post) store
       = (Raise e, store).
Proof.
  intros Hs1 Hs2 Hne Hlast1 Hlast2.
  destruct (populate_database _ store) as [[c|e] store'] eqn:Hrun.
  2:{ apply populate_database_raise in Hrun as ->. eauto. }
  exfalso.
  destruct (populate_database_ok _ _ _ _ Hrun) as (ws & Hws & _ & Hint & -> & _).
  apply integrity_ok_unique in Hint.
  assert (Hrow : ∀ d pre' post',
            pre ++ VDict d1 :: mid ++ VDict d2 :: post = pre' ++ VDict d :: post' →
            record_id (VDict d) ∉ record_id <$> post' →
            assoc_get "slug" d = Some (VStr s) →
            ∃ row, apply_writes ws store !! (Events, record_id (VDict d)) = Some row
                   ∧ slug_text row = Some s).
  { intros d pre' post' Hsplit Hlast Hs. rewrite Hsplit in Hws, Hrun.
    destruct (last_write_event _ _ _ _ Hws Hlast) as (obj & Hobj & Hw).
    destruct (populate_database_row _ _ _ _ _ _ _ Hrun Hws Hw)
      as (row & Hrow & Hattrs).
    exists row. split; [done|]. unfold slug_text.
    rewrite (Hattrs "slug" (VStr s)); [done| |done].
    apply event_slug_attr in Hobj. by rewrite Hs in Hobj. }
  destruct (Hrow d1 pre (mid ++ VDict d2 :: post)) as (r1 & Hr1 & Hslug1);
    [done| |done|].
  { rewrite fmap_app, fmap_cons. rewrite fmap_app in Hlast1.
    rewrite !elem_of_app, elem_of_cons. rewrite elem_of_app in Hlast1.
    intuition. }
  destruct (Hrow d2 (pre ++ VDict d1 :: mid) post) as (r2 & Hr2 & Hslug2);
    [by rewrite <- app_assoc|done|done|].
  apply Hne. eapply Hint; eauto.
Qed.

Lemma map_res_raise_elem {A B} (f : A → res B) l x e :
  x ∈ l → f x = Raise e → ∃ e', map_res f l = Raise e'.
Proof.
  intros Hx Hfx. induction l as [|y l IH]; [by inversion Hx|].
  cbn [map_res]. unfold_M. destruct (f y) as [b|e'] eqn:Hy; [|eauto].
  apply elem_of_cons in Hx as [->|Hx]; [congruence|].
  destruct (IH Hx) as [e' ->]. eauto.
Qed.

Lemma unmappable_event_writes event_data :
  unmappable event_data → ∃ e, event_writes event_data = Raise e.
Proof.
  unfold event_writes. unfold_M.
  intros [Hobj|[(d & v & e & -> & Hv & Hiter)|(md & e & Hmd & Hraise)]].
  - destruct event_data; try (by eexists). by destruct (Hobj d).
  - cbn [py_get]. destruct (create_event_from_api (VDict d)); [|by eexists].
    rewrite Hv. simpl. rewrite Hiter. by eexists.
  - unfold markets_of, record_id in *. unfold_M.
    destruct (py_get event_data "id" VNone) as [id|]; [|by eexists].
    destruct (create_event_from_api event_data); [|by eexists].
    destruct (py_get event_data "markets" (VList [])) as [markets_data|];
      [|by eexists].
    destruct (py_iter markets_data) as [markets|]; [|by eexists].
    destruct (map_res_raise_elem (market_write (py_str id)) markets md
                (match py_get md "id" VNone with
                 | Ok _ => e
                 | Raise e' => e'
                 end) Hmd) as [e' ->]; [|by eexists].
    unfold market_write. unfold_M.
    destruct (py_get md "id" VNone); [|done]. by rewrite Hraise.
Qed.

(** X12.  One record that cannot be written aborts the whole batch,
    wherever it stands: if some raw event is not a JSON object, or has a
    [markets] field that cannot be iterated (an explicit null), or nests a
    market record that does not map, [populate_database] raises and leaves
    the store as it was; the records before it are not kept. *)
Theorem unmappable_record_aborts_batch events_data event_data store :
  event_data ∈ events_data → unmappable event_data →
  ∃ e, populate_database events_data store = (Raise e, store).
Proof.
  intros Hin Hbad.
  destruct (unmappable_event_writes _ Hbad) as [e He].
  destruct (map_res_raise_elem event_writes _ _ _ Hin He) as [e' Hbatch].
  destruct (populate_database events_data store) as [[c|e''] store'] eqn:Hrun.
  - apply populate_database_ok in Hrun as (ws & Hws & _).
    unfold batch_writes in Hws. unfold_M. by rewrite Hbatch in Hws.
  - apply populate_database_raise in Hrun as ->. eauto.
Qed.

End StoreTheory.

(** ** The query layer: tag search *)

Section SearchTheory.
Context {R : PyRuntime}.
Implicit Types (event : gmap string pyval) (events : list (gmap string pyval)).




Lemma event_matches_well_tagged tag_keyword event :
  well_tagged event →
  event_matches tag_keyword event = Ok (tagged_with tag_keyword event).
Proof.
  unfold well_tagged, event_matches, tagged_with, event_tags.
  destruct (event !! "tags") as [[]|]; simpl; try done.
  intros Hok. destruct l; [done|]. by apply tags_match_spec.
Qed.

Lemma filter_agree {A} (P Q : A → Prop) `{∀ x, Decision (P x)}
    `{∀ x, Decision (Q x)} (l : list A) :
  Forall (λ x, P x ↔ Q x) l → filter P l = filter Q l.
Proof.
  induction 1 as [|x l Hx _ IH]; [done|].
  rewrite !filter_cons, IH.
  destruct (decide (P x)), (decide (Q x)); tauto.
Qed.








End SearchTheory.

(** ** The query layer: ordered queries *)

Section OrderTheory.
Context {R : PyRuntime}.
Implicit Types (row : gmap string pyval) (rows : list (gmap string pyval)).

Lemma ends_no_later_total : datetime_order → Total ends_no_later.
Proof.
  intros [Hasym _] a b. unfold ends_no_later.
  destruct (end_date_of a) as [x|], (end_date_of b) as [y|]; auto.
  destruct (datetime_ltb y x) eqn:E; [right; by apply Hasym|by left].
Qed.

Lemma ends_no_later_trans : datetime_order → Transitive ends_no_later.
Proof.
  intros [_ Htrans] a b c. unfold ends_no_later.
  destruct (end_date_of a) as [x|], (end_date_of b) as [y|],
    (end_date_of c) as [z|]; try done.
  intros Hab Hbc. by eapply Htrans.
Qed.

(** A filtered table, ordered by end date and cut to [limit] rows. *)
Lemma select_spec (P : gmap string pyval → Prop) `{∀ x, Decision (P x)}
    rows limit :
  datetime_order → 0 ≤ limit →
  let res := sql_limit limit (order_by_end_date (filter P rows)) in
  res ⊆+ filter P rows
  ∧ length res = (Z.to_nat limit `min` length (filter P rows))%nat
  ∧ StronglySorted ends_no_later res
  ∧ (∀ e e', e ∈ res → e' ∈ filter P rows → e' ∉ res → ends_no_later e e').
Proof.
  intros Horder Hlimit res.
  pose proof (ends_no_later_total Horder) as Htotal.
  pose proof (ends_no_later_trans Horder) as Htrans.
  set (sorted := order_by_end_date (filter P rows)) in *.
  assert (Hperm : sorted ≡ₚ filter P rows) by apply merge_sort_Permutation.
  assert (Hsorted : StronglySorted ends_no_later sorted)
    by (by apply StronglySorted_merge_sort).
  assert (Hres : res = take (Z.to_nat limit) sorted).
  { subst res. unfold sql_limit. by rewrite (proj2 (Z.ltb_ge _ _) Hlimit). }
  rewrite <- (take_drop (Z.to_nat limit) sorted), <- Hres in Hsorted.
  repeat split.
  - rewrite <- Hperm, Hres. apply sublist_submseteq, sublist_take.
  - by rewrite Hres, length_take, Hperm.
  - by eapply StronglySorted_app_1_l.
  - intros e e' He He' Hnot. rewrite <- Hperm in He'.
    rewrite <- (take_drop (Z.to_nat limit) sorted), <- Hres in He'.
    apply elem_of_app in He' as [?|He']; [done|].
    by eapply StronglySorted_app_1_elem_of.
Qed.

(** X15.  Under a comparison of timestamps that is a sensible order and
    for a limit of 0 or more, [get_future_events] returns
    min(limit, number available) of the stored events that are active and
    end after now, each at most as often as the store holds it, in
    ascending order of end date, and they are the ones that end soonest:
    no future, active event left out ends before one that is returned. *)
Theorem get_future_events_spec limit now db :
  datetime_order → 0 ≤ limit →
  let candidates := filter (λ e, future_active now e = true) (event_rows db) in
  let res := get_future_events limit now db in
  res ⊆+ candidates
  ∧ length res = (Z.to_nat limit `min` length candidates)%nat
  ∧ StronglySorted ends_no_later res
  ∧ (∀ e e', e ∈ res → e' ∈ candidates → e' ∉ res → ends_no_later e e').
Proof. intros Horder Hlimit. by apply select_spec. Qed.

(** *** LIKE patterns *)

Lemma like_percent pattern text :
  like (String "%" pattern) text
  = like pattern text
    || match text with
       | EmptyString => false
       | String _ text' => like (String "%" pattern) text'
       end.
Proof. by destruct text. Qed.

Lemma like_char p pattern text :
  Ascii.eqb p "%" = false →
  like (String p pattern) text
  = match text with
    | EmptyString => false
    | String a text' => (Ascii.eqb p "_" || Ascii.eqb p a) && like pattern text'
    end.
Proof. intros Hp. cbn [like]. by rewrite Hp. Qed.

Lemma like_any text : like "%" text = true.
Proof.
  induction text as [|a text IH]; [done|].
  rewrite like_percent, IH. apply orb_true_r.
Qed.

Lemma like_prefix keyword text :
  has_char "%" keyword = false → has_char "_" keyword = false →
  like (keyword +:+ "%") text = startswith text keyword.
Proof.
  revert text. induction keyword as [|p keyword IH]; intros text Hp Hu.
  { rewrite like_any. by destruct text. }
  cbn [has_char] in Hp, Hu.
  apply orb_false_iff in Hp as [Hp Hp'], Hu as [Hu Hu'].
  rewrite str_app_cons, like_char by done. rewrite Hu.
  destruct text as [|a text]; [done|]. cbn [startswith orb].
  by rewrite IH.
Qed.

Lemma like_contains keyword text :
  has_char "%" keyword = false → has_char "_" keyword = false →
  like ("%" +:+ keyword +:+ "%") text = str_in keyword text.
Proof.
  intros Hp Hu. change ("%" +:+ keyword +:+ "%")
    with (String "%" (keyword +:+ "%")).
  induction text as [|a text IH]; rewrite like_percent, like_prefix by done;
    cbn [str_in]; [done|].
  by rewrite IH.
Qed.

Lemma lower_app s1 s2 : lower (s1 +:+ s2) = lower s1 +:+ lower s2.
Proof. induction s1 as [|a s1 IH]; [done|]. simpl. by rewrite IH. Qed.

Lemma lower_char_percent a :
  Ascii.eqb (lower_char a) "%" = Ascii.eqb a "%".
Proof. by destruct a as [[] [] [] [] [] [] [] []]. Qed.

Lemma lower_char_underscore a :
  Ascii.eqb (lower_char a) "_" = Ascii.eqb a "_".
Proof. by destruct a as [[] [] [] [] [] [] [] []]. Qed.

Lemma has_char_lower c s :
  (∀ a, Ascii.eqb (lower_char a) c = Ascii.eqb a c) →
  has_char c (lower s) = has_char c s.
Proof.
  intros Hc. induction s as [|a s IH]; [done|]. simpl. by rewrite Hc, IH.
Qed.

Lemma ilike_contains keyword row column :
  has_char "%" keyword = false → has_char "_" keyword = false →
  ilike (default VNone (row !! column)) ("%" +:+ keyword +:+ "%")
  = column_contains keyword row column.
Proof.
  intros Hp Hu. unfold ilike, column_contains, column_text.
  destruct (row !! column) as [[]|]; cbn [default]; try reflexivity.
  change ("%" +:+ keyword +:+ "%") with (String "%" (keyword +:+ "%")).
  cbn [lower]. rewrite lower_app.
  change (String (lower_char "%") (lower keyword +:+ lower "%"))
    with ("%" +:+ lower keyword +:+ "%").
  apply like_contains.
  - by rewrite (has_char_lower _ _ lower_char_percent).
  - by rewrite (has_char_lower _ _ lower_char_underscore).
Qed.

Lemma market_found_contains keyword now market :
  has_char "%" keyword = false → has_char "_" keyword = false →
  market_found keyword now market
  = future_active now market
    && (column_contains keyword market "question"
        || column_contains keyword market "description").
Proof. intros Hp Hu. unfold market_found. by rewrite !ilike_contains. Qed.

(** X16.  For a keyword without the characters [%] and [_], under a
    sensible order of timestamps and a limit of 0 or more,
    [search_markets_by_keyword] returns min(limit, number available) of the
    markets that are active, end after now and have the keyword, letter
    case aside, as part of their question or their description (a NULL
    column holds no text), in ascending order of end date, the ones that
    end soonest first. *)
Theorem search_markets_by_keyword_spec keyword limit now db :
  datetime_order → 0 ≤ limit →
  has_char "%" keyword = false → has_char "_" keyword = false →
  let candidates :=
    filter (λ m, future_active now m
                 && (column_contains keyword m "question"
                     || column_contains keyword m "description") = true)
           (market_rows db) in
  let res := search_markets_by_keyword keyword limit now db in
  res ⊆+ candidates
  ∧ length res = (Z.to_nat limit `min` length candidates)%nat
  ∧ StronglySorted ends_no_later res
  ∧ (∀ m m', m ∈ res → m' ∈ candidates → m' ∉ res → ends_no_later m m').
Proof.
  intros Horder Hlimit Hp Hu candidates res.
  assert (Hfilter : filter (λ m, market_found keyword now m = true)
                           (market_rows db) = candidates).
  { apply filter_agree, Forall_forall. intros m _.
    by rewrite market_found_contains. }
  subst res. unfold search_markets_by_keyword. rewrite Hfilter.
  subst candidates.
  by apply (select_spec
              (λ m, future_active now m
                    && (column_contains keyword m "question"
                        || column_contains keyword m "description") = true)).
Qed.

Lemma like_underscore pre c post :
  Ascii.eqb c "%" = false →
  ∀ text, like (pre +:+ String c post) text = true →
          like (pre +:+ String "_" post) text = true.
Proof.
  intros Hc. induction pre as [|p pre IH]; intros text.
  - change (like (String c post) text = true
            → like (String "_" post) text = true).
    rewrite !like_char by done.
    destruct text as [|a text]; [done|]. cbn [orb Ascii.eqb].
    rewrite !andb_true_iff. intros [_ ?]. done.
  - rewrite !str_app_cons. destruct (Ascii.eqb p "%") eqn:Hp.
    + apply Ascii.eqb_eq in Hp as ->.
      induction text as [|a text IHtext];
        rewrite (like_percent (pre +:+ String c post)),
          (like_percent (pre +:+ String "_" post)), !orb_true_iff;
        (intros [?|?]; [left; by apply IH|]); [done|].
      right. by apply IHtext.
    + rewrite !like_char by done. destruct text as [|a text]; [done|].
      rewrite !andb_true_iff. intros [? ?]. split; [done|by apply IH].
Qed.

(** X17.  The keyword is handed to the store as a LIKE pattern, not as a
    literal text: replacing any character of a keyword (other than [%]) by
    an underscore never loses a market, since [_] stands for any one
    character.  So a keyword that holds [_] also finds markets in which
    no underscore occurs. *)
Theorem underscore_in_keyword_is_a_wildcard pre c post now market :
  c ≠ "%"%char →
  market_found (pre +:+ String c post) now market = true →
  market_found (pre +:+ String "_" post) now market = true.
Proof.
  intros Hc. unfold market_found, ilike.
  assert (Hlike : ∀ text,
            like (lower ("%" +:+ (pre +:+ String c post) +:+ "%")) text = true →
            like (lower ("%" +:+ (pre +:+ String "_" post) +:+ "%")) text = true).
  { intros text.
    change ("%" +:+ (pre +:+ String c post) +:+ "%")
      with (String "%" ((pre +:+ String c post) +:+ "%")).
    change ("%" +:+ (pre +:+ String "_" post) +:+ "%")
      with (String "%" ((pre +:+ String "_" post) +:+ "%")).
    rewrite !str_app_assoc, !str_app_cons.
    change (String "%" (pre +:+ String c (post +:+ "%")))
      with (String "%" pre +:+ String c (post +:+ "%")).
    change (String "%" (pre +:+ String "_" (post +:+ "%")))
      with (String "%" pre +:+ String "_" (post +:+ "%")).
    rewrite !lower_app. cbn [lower].
    change (lower_char "_") with "_"%char.
    apply like_underscore. rewrite lower_char_percent.
    by apply Ascii.eqb_neq. }
  rewrite !andb_true_iff, !orb_true_iff. intros [Hfuture Hfound].
  split; [done|].
  destruct Hfound as [Hq|Hd]; [left|right].
  - destruct (default VNone (market !! "question")); try done. by apply Hlike.
  - destruct (default VNone (market !! "description")); try done.
    by apply Hlike.
Qed.

End OrderTheory.

(** ** The query layer: the list of tags *)

Section TagListTheory.
Context {R : PyRuntime}.

Lemma tag_labels_strings ts :
  Forall (λ tag, match tag with
                 | VDict _ => is_Some (tag_label tag)
                 | _ => True
                 end) ts →
  tag_labels ts = VStr <$> omap tag_label ts.
Proof.
  induction 1 as [|tag ts Htag _ IH]; [done|].
  cbn [tag_labels omap list_omap].
  destruct tag; cbn [tag_label]; rewrite ?IH; try done.
  destruct Htag as [s Hs]. cbn [tag_label] in Hs.
  destruct (default (VStr "") (assoc_get "label" d)); try done.
Qed.

Lemma event_tag_labels_strings event :
  well_labelled event →
  event_tag_labels event = Ok (VStr <$> omap tag_label (event_tags event)).
Proof.
  unfold well_labelled, event_tag_labels, event_tags.
  destruct (event !! "tags") as [[]|]; simpl; try done.
  intros Hok. destruct l; [done|]. unfold_M.
  by rewrite tag_labels_strings.
Qed.

Lemma collect_labels_strings events :
  Forall well_labelled events →
  collect_labels events
  = Ok (VStr <$> concat ((λ e, omap tag_label (event_tags e)) <$> events)).
Proof.
  induction 1 as [|event events Hev _ IH]; [done|].
  cbn [collect_labels]. unfold_M.
  rewrite event_tag_labels_strings, IH by done.
  by rewrite fmap_cons, concat_cons, fmap_app.
Qed.

Lemma strings_of_strings l : strings_of (VStr <$> l) = Some l.
Proof.
  induction l as [|s l IH]; [done|].
  rewrite fmap_cons. cbn [strings_of]. by rewrite IH.
Qed.

Lemma hashable_strings l : forallb hashable (VStr <$> l) = true.
Proof. induction l as [|s l IH]; [done|]. by rewrite fmap_cons. Qed.

Lemma sorted_set_spec l :
  StronglySorted String.le (sorted_set l)
  ∧ NoDup (sorted_set l)
  ∧ ∀ s, s ∈ sorted_set l ↔ s ∈ l.
Proof.
  unfold sorted_set. repeat split.
  - apply StronglySorted_merge_sort; apply _.
  - rewrite merge_sort_Permutation. apply NoDup_remove_dups.
  - rewrite merge_sort_Permutation. apply elem_of_remove_dups.
  - rewrite merge_sort_Permutation. apply elem_of_remove_dups.
Qed.

(** X18.  On a store in which the tags of every event are missing, null
    or an array whose objects have a string for label when they have one,
    [get_all_unique_tags] does not raise and returns, in ascending order
    and each once, exactly the names under which some event is tagged: the
    string tags and the labels of the object tags, the empty string for an
    object without a label; entries of other types are skipped. *)
Theorem get_all_unique_tags_spec db :
  Forall well_labelled (event_rows db) →
  ∃ res, get_all_unique_tags db = Some (Ok res)
    ∧ StronglySorted String.le res
    ∧ NoDup res
    ∧ ∀ s, s ∈ res
           ↔ ∃ event tag, event ∈ event_rows db ∧ tag ∈ event_tags event
                          ∧ tag_label tag = Some s.
Proof.
  intros Hwell. unfold get_all_unique_tags.
  rewrite collect_labels_strings, hashable_strings, strings_of_strings by done.
  eexists. split; [reflexivity|].
  destruct (sorted_set_spec
              (concat ((λ e, omap tag_label (event_tags e)) <$> event_rows db)))
    as (Hsorted & Hnodup & Hin).
  repeat split; try done.
  - intros Hs. apply Hin, elem_of_concat in Hs as (l & Hl & Hs).
    apply list_elem_of_fmap in Hl as (event & -> & Hevent).
    apply list_elem_of_omap in Hs as (tag & Htag & Hlabel).
    by exists event, tag.
  - intros (event & tag & Hevent & Htag & Hlabel).
    apply Hin, elem_of_concat.
    exists (omap tag_label (event_tags event)). split.
    + apply list_elem_of_fmap. eauto.
    + apply list_elem_of_omap. eauto.
Qed.

End TagListTheory.

(** ** From the API record to the search result *)

Section RoundTripTheory.
Context {R : PyRuntime}.

Lemma event_field_attr d obj attr key c :
  create_event_from_api (VDict d) = Ok obj →
  (attr, key, c) ∈ event_fields →
  ∃ kv, map_field (VDict d) (attr, key, c) = Ok kv ∧ kv ∈ obj.
Proof.
  unfold create_event_from_api. unfold_M.
  destruct (map_fields (VDict d) event_fields) as [kvs|] eqn:E; [|done].
  intros [= <-] Hin.
  destruct (map_fields_elem _ _ _ _ E Hin) as (kv & Hkv & Hkvs).
  exists kv. split; [done|by right].
Qed.

Lemma event_rows_lookup (db : gmap (table * string) (gmap string pyval)) id row :
  db !! (Events, id) = Some row → row ∈ event_rows db.
Proof.
  intros Hrow. unfold event_rows. apply list_elem_of_omap.
  exists ((Events, id), row). split; [|done]. by apply elem_of_map_to_list.
Qed.

(** X19.  A record that went through a completed pass is found by the tag
    search: if the last record of the batch with its id is active, has an
    [endDate] that parses to a time after now and a tag array, free of
    malformed objects, in which some tag carries the keyword, then its row
    is among the future, active events, the tag loop accepts it, and every
    result of [get_events_by_tag] that has not reached its limit holds the
    row. *)
Theorem reconciled_event_is_found pre d post store c store'
    tag_keyword limit now end_date tags :
  populate_database (pre ++ VDict d :: post) store = (Ok c, store') →
  record_id (VDict d) ∉ record_id <$> post →
  assoc_get "active" d = Some (VBool true) →
  parse_datetime (default VNone (assoc_get "endDate" d)) = VDatetime end_date →
  datetime_ltb now end_date = true →
  assoc_get "tags" d = Some (VList tags) →
  Forall (λ tag, is_Some (tag_texts tag)) tags →
  existsb (λ tag, keyword_hits tag_keyword (default [] (tag_texts tag))) tags
  = true →
  ∃ row, store' !! (Events, record_id (VDict d)) = Some row
    ∧ row ∈ filter (λ e, future_active now e = true) (event_rows store')
    ∧ event_matches tag_keyword row = Ok true
    ∧ ∀ res, get_events_by_tag tag_keyword limit now store' = Ok res →
             Z.of_nat (length res) < limit → row ∈ res.
Proof.
  intros Hrun Hlast Hactive Hend Hfuture Htags Hwell Hhit.
  destruct (populate_database_ok _ _ _ _ Hrun) as (ws & Hws & _).
  destruct (last_write_event _ _ _ _ Hws Hlast) as (obj & Hobj & Hw).
  destruct (populate_database_row _ _ _ _ _ _ _ Hrun Hws Hw)
    as (row & Hrow & Hattrs).
  assert (Hfield : ∀ attr key c v,
            (attr, key, c) ∈ event_fields →
            map_field (VDict d) (attr, key, c) = Ok (attr, v) →
            row !! attr = Some v).
  { intros attr key c0 v Hin Hmap.
    destruct (event_field_attr _ _ _ _ _ Hobj Hin) as (kv & Hkv & Hkvobj).
    rewrite Hmap in Hkv. injection Hkv as <-.
    apply Hattrs; [done|].
    assert (Hpublic : Forall (λ f : string * string * conv,
                                startswith_underscore f.1.1 = false)
                             event_fields) by (repeat constructor).
    rewrite Forall_forall in Hpublic. exact (Hpublic _ Hin). }
  assert (Hrow_active : row !! "active" = Some (VBool true)).
  { apply (Hfield _ "active" (Plain (VBool false))).
    - unfold event_fields. repeat (first [by left|right]).
    - simpl. by rewrite Hactive. }
  assert (Hrow_end : row !! "end_date" = Some (VDatetime end_date)).
  { apply (Hfield _ "endDate" AsDate).
    - unfold event_fields. repeat (first [by left|right]).
    - cbn [map_field py_get]. unfold_M. by rewrite Hend. }
  assert (Hrow_tags : row !! "tags" = Some (VList tags)).
  { apply (Hfield _ "tags" (Plain (VList []))).
    - unfold event_fields. repeat (first [by left|right]).
    - simpl. by rewrite Htags. }
  assert (Hcand : row ∈ filter (λ e, future_active now e = true)
                               (event_rows store')).
  { apply list_elem_of_filter. split; [|by eapply event_rows_lookup].
    unfold future_active. by rewrite Hrow_end, Hrow_active. }
  assert (Hmatch : event_matches tag_keyword row = Ok true).
  { rewrite event_matches_well_tagged.
    - unfold tagged_with, event_tags. by rewrite Hrow_tags, Hhit.
    - unfold well_tagged. by rewrite Hrow_tags. }
  exists row. repeat split; try done.
  intros res Hres Hlen. unfold get_events_by_tag in Hres.
  apply scan_events_spec in Hres; [|simpl; lia].
  simpl in Hres. rewrite Nat.sub_0_r in Hres. subst res.
  rewrite length_take in Hlen. rewrite take_ge by lia.
  apply list_elem_of_filter. done.
Qed.

End RoundTripTheory.

(** ** The scheduler *)

Section SchedulerTheory.
Context {R : PyRuntime}.

Lemma update_turn_store server fuel store w store' w' :
  update_turn server fuel (store, w) = Some (store', w') →
  store' = store
  ∨ ∃ events c,
      (fetch_all_active_events server fuel None w).1 = Ok (Some events)
      ∧ events ≠ []
      ∧ populate_database events store = (Ok c, store').
Proof.
  unfold update_turn. cbn [fst snd].
  destruct (fetch_all_active_events server fuel None w)
    as [[[events|]|e] w1]; [| |]; intros [= <- <-]; [|by left].
  destruct events as [|event events]; [by left|]. cbn [truthy].
  destruct (populate_database (event :: events) store)
    as [[c|e] store'] eqn:Hrun.
  - right. by exists (event :: events), c.
  - left. by apply populate_database_raise in Hrun.
Qed.

(** X20.  A turn of the scheduler is all or nothing for the store: after
    it the store is what it was before, or it is the outcome of one
    completed [populate_database] pass over exactly the non-empty list the
    turn fetched.  A fetch that raises or brings nothing and a pass that
    raises leave the store as it was, and the loop goes on. *)
Theorem update_turn_all_or_nothing server fuel store w store' w' :
  update_turn server fuel (store, w) = Some (store', w') →
  (store' = store
   ∨ ∃ events c,
       (fetch_all_active_events server fuel None w).1 = Ok (Some events)
       ∧ events ≠ []
       ∧ populate_database events store = (Ok c, store'))
  ∧ w' = (fetch_all_active_events server fuel None w).2.
Proof.
  intros Hturn. split; [by eapply update_turn_store|].
  revert Hturn. unfold update_turn. cbn [fst snd].
  by destruct (fetch_all_active_events server fuel None w)
    as [[[events|]|e] w1]; intros [= <- <-].
Qed.

Lemma update_turn_invariants server fuel store w store' w' :
  update_turn server fuel (store, w) = Some (store', w') →
  dom store ⊆ dom store' ∧ (unique_slugs store → unique_slugs store').
Proof.
  intros Hturn.
  destruct (update_turn_store _ _ _ _ _ _ Hturn)
    as [->|(events & c & _ & _ & Hrun)]; [done|].
  pose proof (populate_database_dom events store) as Hdom.
  pose proof (populate_database_slugs events store) as Hslugs.
  rewrite Hrun in Hdom, Hslugs. done.
Qed.

(** X21.  However many turns the scheduler runs and whatever the source
    serves at each of them, failed turns included, no row is ever deleted
    and the slugs of the events stay unique: every key the store held at
    the start it holds at the end. *)
Theorem continuous_update_keeps_rows servers fuel store w store' w' :
  continuous_update servers fuel (store, w) = Some (store', w') →
  dom store ⊆ dom store' ∧ (unique_slugs store → unique_slugs store').
Proof.
  revert store w. induction servers as [|server servers IH]; intros store w.
  { by intros [= <- <-]. }
  cbn [continuous_update].
  destruct (update_turn server fuel (store, w)) as [[store1 w1]|] eqn:Hturn;
    [|done].
  intros Hrest. destruct (update_turn_invariants _ _ _ _ _ _ Hturn) as [Hd Hs].
  destruct (IH _ _ Hrest) as [Hd' Hs']. split; [by etrans|auto].
Qed.

Lemma fetch_loop_world server fuel max_events limit :
  ∀ all offset w w',
    (fetch_loop server fuel max_events limit all offset w).1
    = (fetch_loop server fuel max_events limit all offset w').1.
Proof.
  induction fuel as [|fuel IH]; intros all offset w w'; [done|].
  cbn -[fetch_loop]. simpl. unfold_M. rewrite !fetch_active_events_eq.
  destruct (page server limit offset) as [events|e]; [|done].
  destruct (truthy events); simpl; [|done].
  destruct (py_iter events) as [new|e]; simpl; [|done].
  destruct (py_len events) as [n|e]; simpl; [|done].
  unfold print; unfold_M.
  destruct (n <? limit); [done|].
  destruct (max_reached _ _); [done|].
  apply IH.
Qed.

Lemma fetch_all_world server fuel max_events w w' :
  (fetch_all_active_events server fuel max_events w).1
  = (fetch_all_active_events server fuel max_events w').1.
Proof.
  unfold fetch_all_active_events, print. unfold_M.
  match goal with
  | |- context [fetch_loop server fuel max_events 100 [] 0 ?w1] =>
      match goal with
      | |- context [fetch_loop server fuel max_events 100 [] 0 ?w2] =>
          lazymatch w1 with
          | w2 => fail
          | _ => pose proof (fetch_loop_world server fuel max_events 100
                               [] 0 w1 w2) as E
          end
      end
  end.
  destruct (fetch_loop server fuel max_events 100 [] 0 _) as [[[r1|]|e1] w1],
    (fetch_loop server fuel max_events 100 [] 0 _) as [[[r2|]|e2] w2];
    simpl in E; by simplify_eq.
Qed.

Lemma populate_database_twice events_data store :
  (populate_database events_data (populate_database events_data store).2).2
  = (populate_database events_data store).2.
Proof.
  destruct (populate_database events_data store) as [[c|e] store1] eqn:Hrun;
    cbn [snd].
  - apply populate_database_ok in Hrun as (ws & Hws & _ & _ & -> & _).
    destruct (populate_database events_data (apply_writes ws store))
      as [[c2|e2] store2] eqn:Hrun2; cbn [snd].
    + apply populate_database_ok in Hrun2 as (ws' & Hws' & _ & _ & -> & _).
      rewrite Hws in Hws'. injection Hws' as <-.
      apply apply_writes_idemp. by eapply batch_writes_ok.
    + by apply populate_database_raise in Hrun2.
  - pose proof (populate_database_raise _ _ _ _ Hrun) as ->. by rewrite Hrun.
Qed.

(** X22.  Polling a source that has not changed is a no-op: when a turn
    of the scheduler has ended, a further turn against the same source ends
    too and leaves the store exactly as the first turn left it, whether the
    first turn reconciled the records, fetched nothing or failed. *)
Theorem update_turn_again_changes_nothing server fuel store w store1 w1 :
  update_turn server fuel (store, w) = Some (store1, w1) →
  ∃ w2, update_turn server fuel (store1, w1) = Some (store1, w2).
Proof.
  unfold update_turn. cbn [fst snd].
  pose proof (fetch_all_world server fuel None w w1) as E.
  destruct (fetch_all_active_events server fuel None w)
    as [[[events|]|e] w'], (fetch_all_active_events server fuel None w1)
    as [[[events2|]|e2] w2]; simpl in E; simplify_eq; try done;
    intros [= <- <-]; eexists; [|reflexivity].
  destruct events2 as [|event events]; [done|]. cbn [truthy].
  by rewrite populate_database_twice.
Qed.

End SchedulerTheory.

(** ** The conditions on tags, checked by running *)

Section CheckTheory.
Context {R : PyRuntime}.


Lemma well_labelled_checked events :
  forallb well_labelled_check events = true → Forall well_labelled events.
Proof.
  rewrite forallb_forall, Forall_forall. intros Hall event Hin.
  apply list_elem_of_In, Hall in Hin. revert Hin.
  unfold well_labelled_check, well_labelled.
  destruct (default VNone (event !! "tags")); try done.
  rewrite forallb_forall, Forall_forall. intros Htags tag Htag.
  apply list_elem_of_In, Htags in Htag.
  destruct tag; try done. by apply bool_decide_eq_true in Htag.
Qed.

End CheckTheory.

(** ** The further properties on sample data *)

Lemma endless_server_full : only_full_pages endless_server 100.
Proof.
  intros offset. exists (replicate 100 (sample_event "1")).
  split; [reflexivity|]. rewrite length_replicate. lia.
Qed.

Lemma one_full_page_then_empty : first_short_page one_full_page_server 100 0 1.
Proof.
  split.
  - intros i Hi. assert (i = 0%nat) as -> by lia.
    exists (replicate 100 (sample_event "1")). split; [reflexivity|].
    rewrite length_replicate. lia.
  - exists []. split; [reflexivity|]. simpl. lia.
Qed.



(** X2 on a source with one full page and nothing after it: two requests,
    the hundred records returned. *)
Lemma fetch_all_unlimited_is_complete_witness :
  ∃ w', fetch_all_active_events one_full_page_server 2 None world0
        = (Ok (Some (first_pages one_full_page_server 100 2 0)), w')
        ∧ requests w' = requests world0 ++ offsets_requested 100 0 2.
Proof.
  apply (fetch_all_unlimited_is_complete one_full_page_server 2 None 1 world0).
  - by left.
  - exact one_full_page_then_empty.
  - lia.
Defined.

(** X3 on a source that never runs dry. *)
Lemma fetch_all_unlimited_needs_a_short_page_witness :
  (fetch_all_active_events endless_server 7 None world0).1 = Ok None.
Proof.
  apply (fetch_all_unlimited_needs_a_short_page endless_server 7 None world0).
  - by left.
  - exact endless_server_full.
Defined.

(** X5 on a market whose best bid is the text "n/a". *)
Lemma create_market_from_api_failure_witness :
  create_market_from_api (VDict bad_bid_market) "2" = Raise ValueError.
Proof.
  pose proof (create_market_from_api_failure bad_bid_market "2") as H.
  cbv zeta in H. destruct H as (Hkeys & _ & Hraise). apply Hraise.
  rewrite Hkeys. exists [], ("bestBid", VInt 0). eexists.
  split; [rewrite fmap_cons; reflexivity|].
  split; [constructor|reflexivity].
Defined.

(** X6 on two records that differ in a field the code does not know and in
    the order of their fields. *)
Lemma create_from_api_reads_mapped_keys_witness :
  create_from_api Events
    (@VDict sample_runtime [("id", VStr "1"); ("slug", VStr "a")]) ""
  = create_from_api Events
      (VDict [("apiVersion", VInt 2); ("slug", VStr "a"); ("id", VStr "1")]) "".
Proof.
  apply create_from_api_reads_mapped_keys.
  intros f Hf. unfold table_fields, event_fields in Hf.
  repeat (apply elem_of_cons in Hf as [->|Hf]; [reflexivity|]).
  by apply elem_of_nil in Hf.
Defined.

(** X8 on the scenario: one event and one market into an empty store. *)
Lemma populate_database_row_count_witness :
  rows_in Events scenario_store = (rows_in Events empty_store + 1)%nat
  ∧ rows_in Markets scenario_store = (rows_in Markets empty_store + 1)%nat.
Proof.
  apply (populate_database_row_count [scenario_event] empty_store
           {| events_added := 1; events_updated := 0;
              markets_added := 1; markets_updated := 0 |} scenario_store).
  reflexivity.
Defined.

(** C4 as stated fails twice over.  Three nested records with one id are
    counted three times, once as added and twice as updated, and leave one
    market row, not three.  And a call that raises writes nothing: the
    first event of a batch whose second event does not map has no row. *)
Lemma nested_records_share_a_row :
  length (markets_of shared_id_event) = 3%nat
  ∧ populate_database [shared_id_event] empty_store
    = (Ok {| events_added := 1; events_updated := 0;
             markets_added := 1; markets_updated := 2 |},
       (populate_database [shared_id_event] empty_store).2)
  ∧ rows_in Markets (populate_database [shared_id_event] empty_store).2
    = 1%nat
  ∧ populate_database unmappable_batch empty_store
    = (Raise ValueError, empty_store)
  ∧ (populate_database unmappable_batch empty_store).2 !! (Events, "1") = None.
Proof. repeat split; reflexivity. Qed.

(** X10 on a batch that lists event 1 twice: the row holds the slug of the
    second record. *)
Lemma populate_database_last_record_wins_witness :
  ∃ row, (populate_database slug_swap_batch empty_store).2 !! (Events, "1")
         = Some row
         ∧ row !! "slug" = Some (VStr "b").
Proof.
  destruct (populate_database_last_record_wins
              [VDict [("id", VStr "1"); ("slug", VStr "a")]]
              (VDict [("id", VStr "1"); ("slug", VStr "b")])
              [VDict [("id", VStr "2"); ("slug", VStr "a")]]
              empty_store
              {| events_added := 2; events_updated := 1;
                 markets_added := 0; markets_updated := 0 |}
              (populate_database slug_swap_batch empty_store).2 eq_refl)
    as [Hevent _].
  destruct Hevent as (obj & row & Hobj & Hrow & Hattrs).
  { intros Hin. apply list_elem_of_singleton in Hin. discriminate Hin. }
  exists row. split; [exact Hrow|].
  apply (Hattrs "slug" (VStr "b") CString); [|reflexivity|reflexivity].
  revert Hobj. unfold create_event_from_api. simpl.
  intros [= <-]. right. right. by left.
Defined.

(** X11 on two events with different ids and the slug "a". *)
Lemma duplicate_slug_rejects_batch_witness :
  ∃ e, populate_database
         [VDict [("id", VStr "1"); ("slug", VStr "a")];
          VDict [("id", VStr "2"); ("slug", VStr "a")]] empty_store
       = (Raise e, empty_store).
Proof.
  apply (duplicate_slug_rejects_batch []
           [("id", VStr "1"); ("slug", VStr "a")] []
           [("id", VStr "2"); ("slug", VStr "a")] [] "a" empty_store).
  - reflexivity.
  - reflexivity.
  - intros H. discriminate H.
  - apply not_elem_of_nil.
  - apply not_elem_of_nil.
Defined.

(** X12 on the batch whose second event nests a market with the best bid
    "n/a". *)
Lemma unmappable_record_aborts_batch_witness :
  ∃ e, populate_database unmappable_batch empty_store
       = (Raise e, empty_store).
Proof.
  apply (unmappable_record_aborts_batch unmappable_batch
           (VDict [("id", VStr "2"); ("slug", VStr "second");
                   ("markets", VList [VDict [("id", VStr "20");
                                             ("bestBid", VStr "n/a")]])])
           empty_store).
  - right. by left.
  - right. right.
    exists (VDict [("id", VStr "20"); ("bestBid", VStr "n/a")]), ValueError.
    split; [by left|reflexivity].
Defined.

(** The sample timestamps compare as texts, which is a sensible order. *)
Lemma ltb_false_leb (x y : string) : String.ltb y x = false ↔ String.le x y.
Proof.
  unfold String.le, String.ltb, String.leb.
  rewrite (String.compare_antisym x y).
  destruct (y ?= x)%string; simpl; split; done.
Qed.

Lemma sample_datetime_order : @datetime_order sample_runtime.
Proof.
  split.
  - intros x y. simpl. unfold String.ltb.
    rewrite (String.compare_antisym y x).
    by destruct (x ?= y)%string.
  - intros x y z. simpl. rewrite !ltb_false_leb. apply transitivity.
Qed.



(** X15 on the store with two future, active events: asked for one, the
    query returns one. *)
Lemma get_future_events_spec_witness :
  length (get_future_events 1 sample_now bitcoin_store) = 1%nat
  ∧ StronglySorted ends_no_later (get_future_events 1 sample_now bitcoin_store).
Proof.
  destruct (get_future_events_spec (R:=sample_runtime) 1 sample_now bitcoin_store
              sample_datetime_order ltac:(lia)) as (_ & Hlen & Hsorted & _).
  split; [exact Hlen|exact Hsorted].
Defined.

(** X16 on the same store: "bitcoin" is in the question of market 91 and
    in the description, in capitals, of market 92; market 93 has ended. *)
Lemma search_markets_by_keyword_spec_witness :
  length (search_markets_by_keyword "bitcoin" 5 sample_now bitcoin_store)
  = 2%nat
  ∧ StronglySorted ends_no_later
      (search_markets_by_keyword "bitcoin" 5 sample_now bitcoin_store).
Proof.
  destruct (search_markets_by_keyword_spec (R:=sample_runtime) "bitcoin" 5 sample_now
              bitcoin_store sample_datetime_order ltac:(lia)
              eq_refl eq_refl) as (_ & Hlen & Hsorted & _).
  split; [exact Hlen|exact Hsorted].
Defined.

(** The two markets come back with the one that ends first in front. *)
Lemma search_markets_by_keyword_order :
  (λ m, m !! "id")
  <$> search_markets_by_keyword "bitcoin" 5 sample_now bitcoin_store
  = [Some (VStr "92"); Some (VStr "91")].
Proof. reflexivity. Qed.

(** X17 on a market whose question holds "Bitcoin": the keyword "b_tcoin"
    finds it. *)
Lemma underscore_in_keyword_is_a_wildcard_witness :
  market_found "b_tcoin" sample_now sample_market = true.
Proof.
  apply (underscore_in_keyword_is_a_wildcard (R:=sample_runtime) "b" "i" "tcoin" sample_now
           sample_market).
  - intros H. discriminate H.
  - reflexivity.
Defined.

(** X18 on the store with two tagged events: a string tag "Crypto", an
    object without label and an object labelled "Crypto". *)
Lemma get_all_unique_tags_spec_witness :
  ∃ res, get_all_unique_tags bitcoin_store = Some (Ok res)
    ∧ StronglySorted String.le res ∧ NoDup res.
Proof.
  destruct (get_all_unique_tags_spec bitcoin_store)
    as (res & Hres & Hsorted & Hnodup & _).
  - apply well_labelled_checked. reflexivity.
  - exists res. split; [exact Hres|]. split; [exact Hsorted|exact Hnodup].
Defined.

(** The list itself: the empty string of the object without label, then
    "Crypto", once. *)
Lemma get_all_unique_tags_sample :
  get_all_unique_tags bitcoin_store = Some (Ok [""; "Crypto"]).
Proof. reflexivity. Qed.

(** X19 on the event tagged Crypto: reconciled into an empty store, it is
    stored and the tag loop accepts it for "crypto". *)
Lemma reconciled_event_is_found_witness :
  ∃ row, crypto_store !! (Events, "7") = Some row
    ∧ event_matches "crypto" row = Ok true.
Proof.
  destruct (reconciled_event_is_found []
              [("id", VStr "7"); ("slug", VStr "btc-100k");
               ("active", VBool true);
               ("endDate", VStr "2030-01-01T00:00:00Z");
               ("tags", VList [VDict [("label", VStr "Crypto");
                                      ("slug", VStr "crypto")]])]
              [] empty_store
              {| events_added := 1; events_updated := 0;
                 markets_added := 0; markets_updated := 0 |}
              crypto_store "crypto" 10 sample_now
              "2030-01-01T00:00:00+00:00"
              [VDict [("label", VStr "Crypto"); ("slug", VStr "crypto")]])
    as (row & Hrow & _ & Hmatch & _).
  - reflexivity.
  - apply not_elem_of_nil.
  - reflexivity.
  - reflexivity.
  - reflexivity.
  - reflexivity.
  - repeat constructor. by eexists.
  - reflexivity.
  - exists row. split; [exact Hrow|exact Hmatch].
Defined.

(** X20 on a turn against a source that is down: the store is as before. *)
Lemma update_turn_all_or_nothing_witness :
  ∃ store' w',
    update_turn failing_server 2 (scenario_store, world0) = Some (store', w')
    ∧ (store' = scenario_store
       ∨ ∃ events c,
           (fetch_all_active_events failing_server 2 None world0).1
           = Ok (Some events)
           ∧ events ≠ []
           ∧ populate_database events scenario_store = (Ok c, store')).
Proof.
  do 2 eexists. split; [reflexivity|].
  refine (proj1 (update_turn_all_or_nothing failing_server 2 scenario_store
                   world0 _ _ _)).
  reflexivity.
Defined.

(** X21 on three turns, the second against a source that is down. *)
Lemma continuous_update_keeps_rows_witness :
  ∃ store' w',
    continuous_update [three_events_server; failing_server; three_events_server]
                      2 (scenario_store, world0) = Some (store', w')
    ∧ dom scenario_store ⊆ dom store'.
Proof.
  do 2 eexists. split; [reflexivity|].
  refine (proj1 (continuous_update_keeps_rows
                   [three_events_server; failing_server; three_events_server]
                   2 scenario_store world0 _ _ _)).
  reflexivity.
Defined.

(** X22 on two turns against a source with three events, from an empty
    store. *)
Lemma update_turn_again_changes_nothing_witness :
  ∃ store1 w1 w2,
    update_turn three_events_server 2 (empty_store, world0)
    = Some (store1, w1)
    ∧ update_turn three_events_server 2 (store1, w1) = Some (store1, w2).
Proof.
  assert (∃ store1 w1, update_turn three_events_server 2 (empty_store, world0)
                       = Some (store1, w1)) as (store1 & w1 & Hfirst).
  { do 2 eexists. reflexivity. }
  destruct (update_turn_again_changes_nothing _ _ _ _ _ _ Hfirst)
    as [w2 Hsecond].
  exists store1, w1, w2. split; [exact Hfirst|exact Hsecond].
Defined.
